(** * Survey form: condition evaluation, navigation and digit entry

    A shallow embedding of the renderer logic of
    [src/renderer/js/survey-form.js] (classes [FormState],
    [ConditionEvaluator], [Navigator], [AnswerHandler] and
    [InputRouter]) together with the properties stated about it.

    The browser document is modelled as the list of its elements in
    document order.  An element reference is its position in that list;
    every element records the positions of its ancestors, nearest first,
    so that [closest] and descendant selectors can be evaluated.  The
    tree shape, ids, names and types never change while the form runs:
    only classes, values and checked states are written. *)

From Stdlib Require Import ZArith String Ascii List Bool Lia.
From stdpp Require Import base option list strings gmap.

Local Open Scope string_scope.

(** ** JavaScript primitives used by the form *)

Module JS.

(** White space stripped by [parseInt] and [String.prototype.trim]:
    ECMAScript's WhiteSpace and LineTerminator.  Strings hold UTF-8, so
    such a character takes one, two or three bytes:
    U+0009..U+000D and U+0020 (one byte); U+00A0 (C2 A0);
    U+1680 (E1 9A 80); U+2000..U+200A, U+2028, U+2029 and U+202F
    (E2 80 followed by 80..8A, A8, A9, AF); U+205F (E2 81 9F);
    U+3000 (E3 80 80); U+FEFF (EF BB BF). *)
Definition is_ws (c : ascii) : bool :=
  match N_of_ascii c with
  | 9%N | 10%N | 11%N | 12%N | 13%N | 32%N => true
  | _ => false
  end.

Definition is_ws2 (c1 c2 : ascii) : bool :=
  ((N_of_ascii c1 =? 194) && (N_of_ascii c2 =? 160))%N.

Definition is_ws3 (c1 c2 c3 : ascii) : bool :=
  let n1 := N_of_ascii c1 in
  let n2 := N_of_ascii c2 in
  let n3 := N_of_ascii c3 in
  (((n1 =? 225) && (n2 =? 154) && (n3 =? 128))
   || ((n1 =? 226) && (n2 =? 128)
       && (((128 <=? n3) && (n3 <=? 138))
           || (n3 =? 168) || (n3 =? 169) || (n3 =? 175)))
   || ((n1 =? 226) && (n2 =? 129) && (n3 =? 159))
   || ((n1 =? 227) && (n2 =? 128) && (n3 =? 128))
   || ((n1 =? 239) && (n2 =? 187) && (n3 =? 191)))%N.

Definition digit_of (c : ascii) : option Z :=
  let n := Z.of_N (N_of_ascii c) in
  if ((48 <=? n) && (n <=? 57))%Z then Some (n - 48)%Z else None.

(** The string without its leading characters of one, two or three
    bytes that [ws2] and [ws3] (and [is_ws]) accept. *)
Fixpoint skip (ws2 : ascii → ascii → bool)
    (ws3 : ascii → ascii → ascii → bool) (s : string) : string :=
  match s with
  | String c1 r1 =>
      if is_ws c1 then skip ws2 ws3 r1
      else
        match r1 with
        | String c2 r2 =>
            if ws2 c1 c2 then skip ws2 ws3 r2
            else
              match r2 with
              | String c3 r3 => if ws3 c1 c2 c3 then skip ws2 ws3 r3 else s
              | EmptyString => s
              end
        | EmptyString => s
        end
  | EmptyString => s
  end.

Definition skip_ws : string → string := skip is_ws2 is_ws3.

(** The same on a reversed string, whose characters come last byte
    first. *)
Definition skip_ws_rev : string → string :=
  skip (λ c2 c1, is_ws2 c1 c2) (λ c3 c2 c1, is_ws3 c1 c2 c3).

(** Value of the longest prefix of decimal digits; [acc] is [None] as
    long as no digit has been read. *)
Fixpoint digits_prefix (s : string) (acc : option Z) : option Z :=
  match s with
  | String c r =>
      match digit_of c with
      | Some d => digits_prefix r (Some (10 * default 0%Z acc + d)%Z)
      | None => acc
      end
  | EmptyString => acc
  end.

(** [parseInt(s, 10)]; [None] stands for [NaN]. *)
Definition parseInt (s : string) : option Z :=
  match skip_ws s with
  | String "-" r => Z.opp <$> digits_prefix r None
  | String "+" r => digits_prefix r None
  | t => digits_prefix t None
  end.

Definition string_rev (s : string) : string :=
  string_of_list_ascii (rev (list_ascii_of_string s)).

(** [s.trim()] *)
Definition trim (s : string) : string :=
  string_rev (skip_ws_rev (string_rev (skip_ws s))).

(** [Array.prototype.includes] on an array of integers, the argument
    being the result of [parseInt] ([NaN] is never found). *)
Definition includes (l : list Z) (v : option Z) : bool :=
  match v with
  | Some z => bool_decide (z ∈ l)
  | None => false
  end.

(** Property lookup [obj[key]] on an object literal kept as the list of
    its own entries in enumeration order. *)
Fixpoint get {A} (obj : list (string * A)) (key : string) : option A :=
  match obj with
  | [] => None
  | (k, v) :: rest => if bool_decide (k = key) then Some v else get rest key
  end.

End JS.

(** ** The document *)

Inductive TagName := INPUT | TEXTAREA | SELECT | BUTTON | OTHER.

Global Instance TagName_eq_dec : EqDecision TagName.
Proof. solve_decision. Defined.

Record Element := mkElement {
  tagName : TagName;
  el_id : string;                  (* id attribute, empty when absent *)
  el_type : string;                (* type attribute, in lower case *)
  el_name : string;                (* name attribute *)
  el_value : string;
  el_checked : bool;
  el_selectedIndex : Z;
  classList : list string;
  data_name : option string;       (* dataset.name *)
  data_type : option string;       (* dataset.type *)
  data_scaleMax : option string;   (* dataset.scaleMax *)
  data_maxSelect : option string;  (* dataset.maxSelect *)
  el_parents : list nat            (* ancestors, nearest first *)
}.

Abbreviation Document := (list Element).

(** The written attributes, one setter each. *)
Definition set_checked (b : bool) (e : Element) : Element :=
  mkElement (tagName e) (el_id e) (el_type e) (el_name e) (el_value e) b
    (el_selectedIndex e) (classList e) (data_name e) (data_type e)
    (data_scaleMax e) (data_maxSelect e) (el_parents e).

Definition set_value (v : string) (e : Element) : Element :=
  mkElement (tagName e) (el_id e) (el_type e) (el_name e) v (el_checked e)
    (el_selectedIndex e) (classList e) (data_name e) (data_type e)
    (data_scaleMax e) (data_maxSelect e) (el_parents e).

Definition set_selectedIndex (k : Z) (e : Element) : Element :=
  mkElement (tagName e) (el_id e) (el_type e) (el_name e) (el_value e)
    (el_checked e) k (classList e) (data_name e) (data_type e)
    (data_scaleMax e) (data_maxSelect e) (el_parents e).

Definition set_classList (cl : list string) (e : Element) : Element :=
  mkElement (tagName e) (el_id e) (el_type e) (el_name e) (el_value e)
    (el_checked e) (el_selectedIndex e) cl (data_name e) (data_type e)
    (data_scaleMax e) (data_maxSelect e) (el_parents e).

(** [DOMTokenList] *)
Definition contains (c : string) (e : Element) : bool :=
  bool_decide (c ∈ classList e).

Definition class_add (c : string) (e : Element) : Element :=
  if contains c e then e else set_classList (classList e ++ [c]) e.

Definition class_remove (c : string) (e : Element) : Element :=
  set_classList (filter (λ x, x ≠ c) (classList e)) e.

Definition class_toggle (c : string) (force : bool) (e : Element) : Element :=
  if force then class_add c e else class_remove c e.

(** [forEach] over the elements matching [sel], each one updated in
    place by [f]. *)
Definition update_where (sel f : _) (d : Document) : Document :=
  (λ e : Element, if sel e : bool then f e else e) <$> d.

(** Same, for a node list given by positions. *)
Definition update_at (l : list nat) (f : Element → Element) (d : Document)
  : Document :=
  imap (λ i e, if bool_decide (i ∈ l) then f e else e) d.

(** Positions of the elements matching [sel], in document order. *)
Definition select (sel : Element → bool) (d : Document) : list nat :=
  omap (λ p : nat * Element, if sel p.2 then Some p.1 else None)
       (imap pair d).

Definition under (container : nat) (e : Element) : bool :=
  bool_decide (container ∈ el_parents e).

Definition matches_at (sel : Element → bool) (d : Document) (i : nat) : bool :=
  match d !! i with Some e => sel e | None => false end.

(** [el.closest(sel)]: the element itself, then its ancestors outwards. *)
Definition closest (sel : Element → bool) (d : Document) (i : nat)
  : option nat :=
  match d !! i with
  | Some e => List.find (matches_at sel d) (i :: el_parents e)
  | None => None
  end.

(** [el.parentElement?.closest(sel)] *)
Definition parent_closest (sel : Element → bool) (d : Document) (i : nat)
  : option nat :=
  match d !! i with
  | Some e => List.find (matches_at sel d) (el_parents e)
  | None => None
  end.

(** [document.getElementById(id)] *)
Definition getElementById (d : Document) (id : string) : option nat :=
  if bool_decide (id = "") then None
  else fst <$> list_find (λ e, el_id e = id) d.

(** Selectors of the form. *)
Definition is_input (e : Element) : bool := bool_decide (tagName e = INPUT).

Definition has_type (t : string) (e : Element) : bool :=
  is_input e && bool_decide (el_type e = t).

(** [input.type], the property: the attribute when it names an input
    type, ["text"] when it is missing or names none. *)
Definition input_types : list string :=
  [ "hidden"; "text"; "search"; "tel"; "url"; "email"; "password"; "date";
    "month"; "week"; "time"; "datetime-local"; "number"; "range"; "color";
    "checkbox"; "radio"; "file"; "submit"; "image"; "reset"; "button" ].

Definition type_property (e : Element) : string :=
  if bool_decide (el_type e ∈ input_types) then el_type e else "text".

(** [el.tagName === 'INPUT' && el.type === t] *)
Definition is_type (t : string) (e : Element) : bool :=
  is_input e && bool_decide (type_property e = t).

(** [input:checked] *)
Definition input_checked (e : Element) : bool :=
  is_input e && (bool_decide (el_type e = "radio")
                 || bool_decide (el_type e = "checkbox")) && el_checked e.

(** [input[name="n"]:checked] *)
Definition checked_named (n : string) (e : Element) : bool :=
  input_checked e && bool_decide (el_name e = n).

(** [input[type="checkbox"][name="n"]] *)
Definition checkbox_named (n : string) (e : Element) : bool :=
  has_type "checkbox" e && bool_decide (el_name e = n).

Definition is_label (e : Element) : bool :=
  contains "option-label" e || contains "scale-option" e
  || contains "table-option" e.

(** [input.checked = true] on a radio button also unchecks the other
    radio buttons of its group (same non-empty name); this is done by
    the browser, not by the script. *)
Definition same_group (e x : Element) : bool :=
  has_type "radio" e && has_type "radio" x
  && bool_decide (el_name e ≠ "") && bool_decide (el_name x = el_name e).

Definition check (i : nat) (d : Document) : Document :=
  match d !! i with
  | Some e =>
      imap (λ j x, if bool_decide (j = i) then set_checked true x
                   else if same_group e x then set_checked false x else x) d
  | None => d
  end.

Definition uncheck (i : nat) (d : Document) : Document :=
  alter (set_checked false) i d.

(** ** Static configuration ([FormState.config]) *)

Record Cond := mkCond {
  targetId : string;
  showValues : list Z;
  isSection : bool
}.

Global Instance Cond_eq_dec : EqDecision Cond.
Proof. solve_decision. Defined.

Record TableConfig := mkTableConfig {
  rowNames : option (list string)
}.

Record Config := mkConfig {
  cfg_conditionMap : list (string * list Cond);
  cfg_tableConfigs : list (string * TableConfig);
  cfg_otherFieldMap : list (string * list string)
}.

(** ** Mutable state of the form *)

(** The [onSelect] closures handed to [_handleTwoDigitInput], with the
    variables they capture. *)
Inductive OnSelect :=
| SelectOption (question : nat) (inputs : list nat)
| SelectScale (question : nat)
| SelectTableRow (question : nat) (rowName : string) (radios : list nat).

(** An armed [setTimeout]: the [onSelect] captured by its callback and
    the delay in milliseconds. *)
Record Timer := mkTimer {
  timer_onSelect : OnSelect;
  timer_delay : Z
}.

(** The expand icon of a conditional target (a [span] owned by
    [ConditionEvaluator._toggleButtons]). *)
Record Icon := mkIcon {
  icon_text : string;
  icon_title : string;
  icon_classes : list string
}.

(** What the form emits or calls back, in order, newest first; the two
    last constructors record the writes of the evaluation loop. *)
Inductive Event :=
| questionChange (oldIndex newIndex tableRow : Z) (skipScroll skipFocus : bool)
| tableRowChange (rowIndex : Z) (question : option nat)
| digitBufferChange (buffer : string)
| reachEnd
| idRequired (message : string)
| preventDefault
| showToggled (el : nat) (force : bool)
| inputsCleared (el : nat).

(** An entry of [AnswerHandler._optionCache]: node lists captured once. *)
Record CacheEntry := mkCacheEntry {
  cache_inputs : list nat;
  cache_labels : list nat
}.

Record World := mkWorld {
  doc : Document;
  activeElement : option nat;        (* [None] is [document.body] *)
  (* FormState *)
  questionIndex : Z;
  tableRowIndex : Z;
  digitBuffer : string;
  digitTimer : option Timer;
  questionList : list nat;
  respondentId : option nat;         (* elements.respondentId *)
  config : option Config;
  (* ConditionEvaluator *)
  visibilityCache : gmap string bool;
  manualOverrides : list string;     (* keys of the Map, in insertion order;
                                        the only value ever stored is 'open' *)
  toggleButtons : gmap string Icon;
  showAll : bool;
  (* AnswerHandler *)
  optionCache : gmap string CacheEntry;
  pendingSelect : option OnSelect;
  (* observable effects *)
  events : list Event
}.

Definition set_doc (x : Document) (w : World) : World :=
  mkWorld x (activeElement w) (questionIndex w) (tableRowIndex w)
    (digitBuffer w) (digitTimer w) (questionList w) (respondentId w)
    (config w) (visibilityCache w) (manualOverrides w) (toggleButtons w)
    (showAll w) (optionCache w) (pendingSelect w) (events w).

Definition set_activeElement (x : option nat) (w : World) : World :=
  mkWorld (doc w) x (questionIndex w) (tableRowIndex w)
    (digitBuffer w) (digitTimer w) (questionList w) (respondentId w)
    (config w) (visibilityCache w) (manualOverrides w) (toggleButtons w)
    (showAll w) (optionCache w) (pendingSelect w) (events w).

Definition set_questionIndex (x : Z) (w : World) : World :=
  mkWorld (doc w) (activeElement w) x (tableRowIndex w)
    (digitBuffer w) (digitTimer w) (questionList w) (respondentId w)
    (config w) (visibilityCache w) (manualOverrides w) (toggleButtons w)
    (showAll w) (optionCache w) (pendingSelect w) (events w).

Definition set_tableRowIndex (x : Z) (w : World) : World :=
  mkWorld (doc w) (activeElement w) (questionIndex w) x
    (digitBuffer w) (digitTimer w) (questionList w) (respondentId w)
    (config w) (visibilityCache w) (manualOverrides w) (toggleButtons w)
    (showAll w) (optionCache w) (pendingSelect w) (events w).

Definition set_digitBuffer (x : string) (w : World) : World :=
  mkWorld (doc w) (activeElement w) (questionIndex w) (tableRowIndex w)
    x (digitTimer w) (questionList w) (respondentId w)
    (config w) (visibilityCache w) (manualOverrides w) (toggleButtons w)
    (showAll w) (optionCache w) (pendingSelect w) (events w).

Definition set_digitTimer (x : option Timer) (w : World) : World :=
  mkWorld (doc w) (activeElement w) (questionIndex w) (tableRowIndex w)
    (digitBuffer w) x (questionList w) (respondentId w)
    (config w) (visibilityCache w) (manualOverrides w) (toggleButtons w)
    (showAll w) (optionCache w) (pendingSelect w) (events w).

Definition set_visibilityCache (x : gmap string bool) (w : World) : World :=
  mkWorld (doc w) (activeElement w) (questionIndex w) (tableRowIndex w)
    (digitBuffer w) (digitTimer w) (questionList w) (respondentId w)
    (config w) x (manualOverrides w) (toggleButtons w)
    (showAll w) (optionCache w) (pendingSelect w) (events w).

Definition set_manualOverrides (x : list string) (w : World) : World :=
  mkWorld (doc w) (activeElement w) (questionIndex w) (tableRowIndex w)
    (digitBuffer w) (digitTimer w) (questionList w) (respondentId w)
    (config w) (visibilityCache w) x (toggleButtons w)
    (showAll w) (optionCache w) (pendingSelect w) (events w).

Definition set_toggleButtons (x : gmap string Icon) (w : World) : World :=
  mkWorld (doc w) (activeElement w) (questionIndex w) (tableRowIndex w)
    (digitBuffer w) (digitTimer w) (questionList w) (respondentId w)
    (config w) (visibilityCache w) (manualOverrides w) x
    (showAll w) (optionCache w) (pendingSelect w) (events w).

Definition set_showAll (x : bool) (w : World) : World :=
  mkWorld (doc w) (activeElement w) (questionIndex w) (tableRowIndex w)
    (digitBuffer w) (digitTimer w) (questionList w) (respondentId w)
    (config w) (visibilityCache w) (manualOverrides w) (toggleButtons w)
    x (optionCache w) (pendingSelect w) (events w).

Definition set_optionCache (x : gmap string CacheEntry) (w : World) : World :=
  mkWorld (doc w) (activeElement w) (questionIndex w) (tableRowIndex w)
    (digitBuffer w) (digitTimer w) (questionList w) (respondentId w)
    (config w) (visibilityCache w) (manualOverrides w) (toggleButtons w)
    (showAll w) x (pendingSelect w) (events w).

Definition set_pendingSelect (x : option OnSelect) (w : World) : World :=
  mkWorld (doc w) (activeElement w) (questionIndex w) (tableRowIndex w)
    (digitBuffer w) (digitTimer w) (questionList w) (respondentId w)
    (config w) (visibilityCache w) (manualOverrides w) (toggleButtons w)
    (showAll w) (optionCache w) x (events w).

(** [FormState.emit] and the router callbacks: the event is recorded
    for the listeners.  The listeners themselves ([UIUpdater], l.1687 to
    1733) are not run here: they write the highlight (class [active], row
    backgrounds, the indicator's text), scroll, and move the focus, and
    none of them writes the state or an answer. *)
Definition emit (e : Event) (w : World) : World :=
  mkWorld (doc w) (activeElement w) (questionIndex w) (tableRowIndex w)
    (digitBuffer w) (digitTimer w) (questionList w) (respondentId w)
    (config w) (visibilityCache w) (manualOverrides w) (toggleButtons w)
    (showAll w) (optionCache w) (pendingSelect w) (e :: events w).

(** ** ConditionEvaluator *)

(** [get conditionMap()] *)
Definition conditionMap (w : World) : list (string * list Cond) :=
  match config w with
  | Some c => cfg_conditionMap c
  | None => []
  end.

(** The element of a condition entry: sections carry the bare id,
    questions the id prefixed by [q_]. *)
Definition targetEl (cond : Cond) (d : Document) : option nat :=
  if isSection cond then getElementById d (targetId cond)
  else getElementById d ("q_" ++ targetId cond).

(** [this._manualOverrides.get(t)] (truthy) and [.has(t)] *)
Definition overridden (w : World) (t : string) : bool :=
  bool_decide (t ∈ manualOverrides w).

Definition overrides_set (t : string) (l : list string) : list string :=
  if bool_decide (t ∈ l) then l else l ++ [t].

Definition overrides_delete (t : string) (l : list string) : list string :=
  filter (λ x, x ≠ t) l.

Definition tokens_add (c : string) (l : list string) : list string :=
  if bool_decide (c ∈ l) then l else l ++ [c].

Definition tokens_remove (c : string) (l : list string) : list string :=
  filter (λ x, x ≠ c) l.

Definition _updateToggleIcon (t : string) (isOpen isManual : bool)
    (w : World) : World :=
  match toggleButtons w !! t with
  | None => w
  | Some icon =>
      let icon' :=
        if isOpen then
          mkIcon "−"
            (if isManual then "手動展開中（-キーまたはクリックで戻す）"
             else "展開中")
            (let cl := tokens_add "expanded" (icon_classes icon) in
             if isManual then tokens_add "manual-override" cl
             else tokens_remove "manual-override" cl)
        else
          mkIcon "+" "分岐先を開く (+キー)"
            (tokens_remove "manual-override"
               (tokens_remove "expanded" (icon_classes icon))) in
      set_toggleButtons (<[t := icon']> (toggleButtons w)) w
  end.

Definition _updateToggleButton := _updateToggleIcon.

Definition is_textarea (e : Element) : bool :=
  bool_decide (tagName e = TEXTAREA).

Definition is_select (e : Element) : bool :=
  bool_decide (tagName e = SELECT).

(** [_clearInputs(container)]: the five [querySelectorAll(..).forEach]
    passes, in order. *)
Definition _clearInputs (container : nat) (d : Document) : Document :=
  let checkedInputs := select (λ e, under container e && input_checked e) d in
  let labels := omap (closest is_label d) checkedInputs in
  let d1 := update_at labels (class_remove "selected")
              (update_at checkedInputs (set_checked false) d) in
  let d2 := update_where
              (λ e, under container e
                    && (has_type "text" e || has_type "number" e))
              (set_value "") d1 in
  let d3 := update_where (λ e, under container e && is_textarea e)
              (set_value "") d2 in
  let d4 := update_where (λ e, under container e && is_select e)
              (set_selectedIndex 0) d3 in
  update_where (λ e, under container e && contains "other-input" e)
    (class_remove "show") d4.

(** The body of the [for (const cond of conditions)] loop, which is the
    same text in [_evaluateRadio] and [_evaluateCheckbox] once
    [shouldShow] is computed. *)
Definition evaluate_entry (shouldShow : bool) (cond : Cond) (w : World)
  : World :=
  if showAll w || overridden w (targetId cond) then w
  else if bool_decide (visibilityCache w !! targetId cond = Some shouldShow)
  then w
  else
    match targetEl cond (doc w) with
    | None => w
    | Some el =>
        let w1 := set_visibilityCache
                    (<[targetId cond := shouldShow]> (visibilityCache w)) w in
        let w2 := emit (showToggled el shouldShow)
                    (set_doc (alter (class_toggle "show" shouldShow) el
                                (doc w1)) w1) in
        let w3 := _updateToggleButton (targetId cond) shouldShow false w2 in
        if shouldShow then w3
        else emit (inputsCleared el) (set_doc (_clearInputs el (doc w3)) w3)
    end.

(** [document.querySelector(sel)] *)
Definition querySelector (sel : Element → bool) (d : Document)
  : option (nat * Element) :=
  list_find (λ e, sel e = true) d.

(** [checked?.value || ''] *)
Definition radio_value (name : string) (d : Document) : string :=
  match querySelector (checked_named name) d with
  | Some (_, e) => el_value e
  | None => ""
  end.

Definition shouldShow_radio (value : string) (cond : Cond) : bool :=
  negb (bool_decide (value = ""))
  && JS.includes (showValues cond) (JS.parseInt value).

Definition _evaluateRadio (name : string) (conditions : list Cond)
    (w : World) : World :=
  let value := radio_value name (doc w) in
  foldl (λ w cond, evaluate_entry (shouldShow_radio value cond) cond w)
    w conditions.

(** [Array.from(checkedInputs).map(inp => parseInt(inp.value, 10))] *)
Definition checkbox_values (name : string) (d : Document)
  : list (option Z) :=
  (λ e, JS.parseInt (el_value e)) <$> base.filter (λ e, checked_named name e = true) d.

Definition shouldShow_checkbox (checkedValues : list (option Z))
    (cond : Cond) : bool :=
  existsb (JS.includes (showValues cond)) checkedValues.

Definition _evaluateCheckbox (name : string) (conditions : list Cond)
    (w : World) : World :=
  let checkedValues := checkbox_values name (doc w) in
  foldl (λ w cond,
           evaluate_entry (shouldShow_checkbox checkedValues cond) cond w)
    w conditions.

Definition evaluate (fieldName fieldType : string) (w : World) : World :=
  match JS.get (conditionMap w) fieldName with
  | None => w
  | Some conditions =>
      if bool_decide (fieldType = "checkbox")
      then _evaluateCheckbox fieldName conditions w
      else _evaluateRadio fieldName conditions w
  end.

(** [document.querySelector(`input[type="checkbox"][name="${p}"]`)
      ? 'checkbox' : 'radio'] *)
Definition fieldType_of (parentId : string) (d : Document) : string :=
  match querySelector (checkbox_named parentId) d with
  | Some _ => "checkbox"
  | None => "radio"
  end.

(** [_reevaluateForTarget]: the first parent, in enumeration order,
    that lists the target. *)
Definition _reevaluateForTarget (t : string) (w : World) : World :=
  match List.find
          (λ p : string * list Cond,
             existsb (λ cond, bool_decide (targetId cond = t)) p.2)
          (conditionMap w) with
  | Some (parentId, _) => evaluate parentId (fieldType_of parentId (doc w)) w
  | None => w
  end.

Definition has_show (d : Document) (el : nat) : bool :=
  matches_at (contains "show") d el.

Definition toggleManual (t : string) (w : World) : World :=
  let targetEl :=
    match getElementById (doc w) ("q_" ++ t) with
    | Some el => Some el
    | None => getElementById (doc w) t
    end in
  match targetEl with
  | None => w
  | Some el =>
      if overridden w t then
        let w1 := set_manualOverrides
                    (overrides_delete t (manualOverrides w)) w in
        let w2 := set_visibilityCache (delete t (visibilityCache w1)) w1 in
        let w3 := _reevaluateForTarget t w2 in
        let isNowOpen := has_show (doc w3) el in
        _updateToggleButton t isNowOpen false w3
      else
        let w1 := set_manualOverrides (overrides_set t (manualOverrides w)) w in
        let w2 := set_doc (alter (class_add "show") el (doc w1)) w1 in
        _updateToggleButton t true true w2
  end.

(** Body of the loop of [openBranchesForParent]; the flag is [opened]. *)
Definition openBranches_body (acc : World * bool) (cond : Cond)
  : World * bool :=
  let (w, opened) := acc in
  match targetEl cond (doc w) with
  | None => acc
  | Some el =>
      if negb (matches_at (contains "conditional") (doc w) el) then acc
      else if negb (has_show (doc w) el) then
        let w1 := set_manualOverrides
                    (overrides_set (targetId cond) (manualOverrides w)) w in
        let w2 := set_doc (alter (class_add "show") el (doc w1)) w1 in
        (_updateToggleIcon (targetId cond) true true w2, true)
      else acc
  end.

Definition openBranchesForParent (parentId : string) (w : World)
  : World * bool :=
  match JS.get (conditionMap w) parentId with
  | None => (w, false)
  | Some conditions => foldl openBranches_body (w, false) conditions
  end.

(** Body of the first loop of [closeBranchesForParent]; the flag is
    [closed]. *)
Definition closeBranches_body (acc : World * bool) (cond : Cond)
  : World * bool :=
  let (w, closed) := acc in
  if overridden w (targetId cond) then
    let w1 := set_manualOverrides
                (overrides_delete (targetId cond) (manualOverrides w)) w in
    (set_visibilityCache (delete (targetId cond) (visibilityCache w1)) w1,
     true)
  else acc.

Definition closeBranchesForParent (parentId : string) (w : World)
  : World * bool :=
  match JS.get (conditionMap w) parentId with
  | None => (w, false)
  | Some conditions =>
      let (w1, closed) := foldl closeBranches_body (w, false) conditions in
      if closed
      then (evaluate parentId (fieldType_of parentId (doc w1)) w1, true)
      else (w1, false)
  end.

(** Body of the inner loop of [setShowAll]. *)
Definition setShowAll_body (flag : bool) (w : World) (cond : Cond) : World :=
  match targetEl cond (doc w) with
  | None => w
  | Some el =>
      if flag then
        _updateToggleIcon (targetId cond) true false
          (set_doc (alter (class_add "show") el (doc w)) w)
      else
        set_visibilityCache (delete (targetId cond) (visibilityCache w)) w
  end.

(** The re-evaluation of every parent at the end of [setShowAll(false)]. *)
Definition reevaluate_all (parentIds : list string) (w : World) : World :=
  foldl (λ w parentId, evaluate parentId (fieldType_of parentId (doc w)) w)
    w parentIds.

Definition setShowAll (flag : bool) (w : World) : World :=
  let w0 := set_showAll flag w in
  let w1 :=
    foldl (λ w (p : string * list Cond), foldl (setShowAll_body flag) w p.2)
      w0 (conditionMap w0) in
  if flag then w1
  else reevaluate_all (fst <$> conditionMap w1) (set_manualOverrides [] w1).

Definition clearCache (w : World) : World :=
  set_toggleButtons
    ((λ icon, mkIcon "+" "分岐先を開く (+キー)"
                (tokens_remove "manual-override"
                   (tokens_remove "expanded" (icon_classes icon))))
       <$> toggleButtons w)
    (set_manualOverrides [] (set_visibilityCache ∅ w)).

Definition getManualOverrideIds (w : World) : list string :=
  manualOverrides w.

Definition isManuallyOverridden (questionId : string) (w : World) : bool :=
  overridden w questionId.

(** The test applied by [isConditionMet] to one entry of one parent. *)
Definition entry_met (parentId : string) (cond : Cond) (d : Document)
  : bool :=
  match querySelector (checkbox_named parentId) d with
  | Some _ =>
      existsb (JS.includes (showValues cond)) (checkbox_values parentId d)
  | None =>
      match querySelector (checked_named parentId) d with
      | Some (_, checked) =>
          JS.includes (showValues cond) (JS.parseInt (el_value checked))
      | None => false
      end
  end.

Definition isConditionMet (t : string) (w : World) : bool :=
  existsb
    (λ p : string * list Cond,
       existsb
         (λ cond, bool_decide (targetId cond = t) && entry_met p.1 cond (doc w))
         p.2)
    (conditionMap w).

Definition getForcedOverrideIds (w : World) : list string :=
  base.filter (λ t, isConditionMet t w = false) (manualOverrides w).

(** [isVisible(questionEl)]: the question's own [conditional] class and
    that of its nearest [conditional] ancestor. *)
Definition isVisible (questionEl : option nat) (d : Document) : bool :=
  match questionEl with
  | None => false
  | Some q =>
      if matches_at (contains "conditional") d q && negb (has_show d q)
      then false
      else
        match parent_closest (contains "conditional") d q with
        | Some conditionalParent => has_show d conditionalParent
        | None => true
        end
  end.

(** ** FormState *)

(** [list[i]] for an integer index ([undefined] outside the array). *)
Definition nth_Z {A} (l : list A) (i : Z) : option A :=
  if (i <? 0)%Z then None else l !! Z.to_nat i.

Definition getCurrentQuestion (w : World) : option nat :=
  nth_Z (questionList w) (questionIndex w).

(** [question?.dataset.type === 'table'] *)
Definition is_table (question : option nat) (d : Document) : bool :=
  match question with
  | Some q => matches_at (λ e, bool_decide (data_type e = Some "table")) d q
  | None => false
  end.

(** [this.config?.tableConfigs?.[q.dataset.name] || null] *)
Definition tableConfig_of (q : nat) (w : World) : option TableConfig :=
  match config w, (doc w !! q) ≫= data_name with
  | Some c, Some name => JS.get (cfg_tableConfigs c) name
  | _, _ => None
  end.

Definition getTableConfig (w : World) : option TableConfig :=
  match getCurrentQuestion w with
  | Some q => if is_table (Some q) (doc w) then tableConfig_of q w else None
  | None => None
  end.

(** [(tableConfig?.rowNames?.length || 1) - 1] *)
Definition maxRow_of (tableConfig : option TableConfig) : Z :=
  match tableConfig ≫= rowNames with
  | Some [] | None => 0
  | Some rows => Z.of_nat (length rows) - 1
  end.

Record Options := mkOptions {
  opt_tableRow : option Z;
  opt_skipScroll : bool;
  opt_skipFocus : bool
}.

Definition no_options : Options := mkOptions None false false.

Definition setQuestionIndex (index : Z) (options : Options) (w : World)
  : World * bool :=
  let oldIndex := questionIndex w in
  if ((index <? -1) || (Z.of_nat (length (questionList w)) <=? index))%Z
  then (w, false)
  else
    let w1 := set_questionIndex index w in
    let w2 :=
      if is_table (getCurrentQuestion w1) (doc w1)
      then set_tableRowIndex (default 0%Z (opt_tableRow options)) w1
      else set_tableRowIndex 0 w1 in
    (emit (questionChange oldIndex index (tableRowIndex w2)
             (opt_skipScroll options) (opt_skipFocus options)) w2, true).

Definition setTableRowIndex (index : Z) (w : World) : World * bool :=
  let question := getCurrentQuestion w in
  match getTableConfig w with
  | None => (w, false)
  | Some tableConfig =>
      let maxRow := maxRow_of (Some tableConfig) in
      if ((index <? 0) || (maxRow <? index))%Z then (w, false)
      else (emit (tableRowChange index question)
              (set_tableRowIndex index w), true)
  end.

Definition isAtIdSection (w : World) : bool :=
  bool_decide (questionIndex w = (-1)%Z).

(** [!!this.elements.respondentId?.value.trim()] *)
Definition hasValidId (w : World) : bool :=
  match respondentId w ≫= (λ i, doc w !! i) with
  | Some e => negb (bool_decide (JS.trim (el_value e) = ""))
  | None => false
  end.

Definition clearDigitTimer (w : World) : World := set_digitTimer None w.

Definition setDigitBuffer (digit : string) (w : World) : World :=
  emit (digitBufferChange digit) (set_digitBuffer digit (clearDigitTimer w)).

Definition appendDigitBuffer (digit : string) (w : World) : string * World :=
  let combined := digitBuffer w ++ digit in
  (combined, emit (digitBufferChange "")
               (set_digitBuffer "" (clearDigitTimer w))).

Definition clearDigitBuffer (w : World) : World :=
  emit (digitBufferChange "") (set_digitBuffer "" (clearDigitTimer w)).

Definition setDigitTimer (onSelect : OnSelect) (delay : Z) (w : World)
  : World :=
  set_digitTimer (Some (mkTimer onSelect delay)) (clearDigitTimer w).

(** ** Navigator *)

(** The [while (nextIndex < questionList.length)] loop of [moveNext];
    [fuel] bounds the number of iterations. *)
Fixpoint scan_next (w : World) (fuel : nat) (nextIndex : Z) : option Z :=
  match fuel with
  | O => None
  | S fuel' =>
      if (nextIndex <? Z.of_nat (length (questionList w)))%Z then
        if isVisible (nth_Z (questionList w) nextIndex) (doc w)
        then Some nextIndex
        else scan_next w fuel' (nextIndex + 1)%Z
      else None
  end.

Definition moveNext (w : World) : World * bool :=
  let question := getCurrentQuestion w in
  let rowStep :=
    if is_table question (doc w) then
      let maxRow := maxRow_of (getTableConfig w) in
      if (tableRowIndex w <? maxRow)%Z
      then Some (setTableRowIndex (tableRowIndex w + 1) w)
      else None
    else None in
  match rowStep with
  | Some r => r
  | None =>
      let nextIndex := (questionIndex w + 1)%Z in
      match scan_next w
              (Z.to_nat (Z.of_nat (length (questionList w)) - nextIndex))
              nextIndex with
      | Some i => setQuestionIndex i no_options w
      | None => (emit reachEnd w, false)
      end
  end.

(** The [while (prevIndex >= 0)] loop of [movePrev]. *)
Fixpoint scan_prev (w : World) (fuel : nat) (prevIndex : Z) : option Z :=
  match fuel with
  | O => None
  | S fuel' =>
      if (0 <=? prevIndex)%Z then
        if isVisible (nth_Z (questionList w) prevIndex) (doc w)
        then Some prevIndex
        else scan_prev w fuel' (prevIndex - 1)%Z
      else None
  end.

Definition movePrev (w : World) : World * bool :=
  let question := getCurrentQuestion w in
  let rowStep :=
    if is_table question (doc w) then
      if (0 <? tableRowIndex w)%Z
      then Some (setTableRowIndex (tableRowIndex w - 1) w)
      else None
    else None in
  match rowStep with
  | Some r => r
  | None =>
      let prevIndex := (questionIndex w - 1)%Z in
      match scan_prev w (Z.to_nat (prevIndex + 1)) prevIndex with
      | Some i =>
          let q := nth_Z (questionList w) i in
          if is_table q (doc w) then
            let maxRow := maxRow_of (q ≫= (λ q, tableConfig_of q w)) in
            setQuestionIndex i (mkOptions (Some maxRow) false false) w
          else setQuestionIndex i no_options w
      | None => setQuestionIndex (-1) no_options w
      end
  end.

Definition focusId (w : World) : World * bool :=
  setQuestionIndex (-1) no_options w.

(** [questionList.indexOf(questionEl)] followed by [setQuestionIndex]. *)
Definition focusQuestion (questionEl : nat) (options : Options) (w : World)
  : World :=
  match list_find (λ q, q = questionEl) (questionList w) with
  | Some (index, _) => (setQuestionIndex (Z.of_nat index) options w).1
  | None => w
  end.

(** ** AnswerHandler

    Calls to [ScrollHelper] only move the viewport and are left out. *)

Definition DIGIT_WAIT_MS : Z := 500.

Definition otherFieldMap (w : World) : list (string * list string) :=
  match config w with
  | Some c => cfg_otherFieldMap c
  | None => []
  end.

(** [el?.classList...]: a write through an optional reference. *)
Definition alter_opt (f : Element → Element) (o : option nat) (d : Document)
  : Document :=
  match o with
  | Some i => alter f i d
  | None => d
  end.

(** [.question[data-name]] *)
Definition is_question (e : Element) : bool :=
  contains "question" e && bool_decide (is_Some (data_name e)).

Definition inside (sel : Element → bool) (d : Document) (e : Element) : bool :=
  existsb (matches_at sel d) (el_parents e).

(** [dataset.name] of a question of the question list (always present:
    the list is selected by [.question[data-name]]). *)
Definition name_of (question : nat) (d : Document) : string :=
  default "" ((d !! question) ≫= data_name).

Definition _getOptionCache (question : nat) (w : World)
  : CacheEntry * World :=
  let name := name_of question (doc w) in
  match optionCache w !! name with
  | Some entry => (entry, w)
  | None =>
      let allInputs :=
        select (λ e, under question e
                     && (has_type "radio" e || has_type "checkbox" e)
                     && inside (contains "options") (doc w) e) (doc w) in
      let inputs :=
        base.filter (λ i, closest is_question (doc w) i = Some question)
          allInputs in
      let entry := mkCacheEntry inputs [] in
      (entry, set_optionCache (<[name := entry]> (optionCache w)) w)
  end.

Definition first_field (container : nat) (d : Document) : option nat :=
  fst <$> querySelector
            (λ e, under container e && (is_input e || is_textarea e)) d.

Definition _showOtherInput (questionId value : string) (w : World) : World :=
  match getElementById (doc w) ("other_" ++ questionId ++ "_" ++ value) with
  | Some otherInput =>
      let w1 := set_doc (alter (class_add "show") otherInput (doc w)) w in
      match first_field otherInput (doc w1) with
      | Some field => set_activeElement (Some field) w1
      | None => w1
      end
  | None => w
  end.

Definition _hideOtherInput (questionId value : string) (w : World) : World :=
  match getElementById (doc w) ("other_" ++ questionId ++ "_" ++ value) with
  | Some otherInput =>
      let d1 := alter (class_remove "show") otherInput (doc w) in
      set_doc (alter_opt (set_value "") (first_field otherInput d1) d1) w
  | None => w
  end.

Definition _handleOtherField (name value : string) (w : World) : World :=
  match JS.get (otherFieldMap w) name with
  | None => w
  | Some otherValues =>
      foldl (λ w otherValue,
               if bool_decide (value = otherValue)
               then _showOtherInput name otherValue w
               else _hideOtherInput name otherValue w)
        w otherValues
  end.

Definition _handleRadioChange (input : nat) (w : World) : World :=
  match doc w !! input with
  | None => w
  | Some e =>
      let name := el_name e in
      let value := if el_checked e then el_value e else "" in
      _handleOtherField name value (evaluate name "radio" w)
  end.

Definition _enforceMaxSelect (container : nat) (maxSelect : Z) (d : Document)
  : Document :=
  let checkboxes := select (λ e, under container e && has_type "checkbox" e) d in
  let checkedCount :=
    length (base.filter (λ i, matches_at el_checked d i = true) checkboxes) in
  foldl (λ d cb,
           let label := closest (contains "option-label") d cb in
           if (maxSelect <=? Z.of_nat checkedCount)%Z
              && negb (matches_at el_checked d cb)
           then alter_opt (class_add "disabled") label d
           else alter_opt (class_remove "disabled") label d)
    d checkboxes.

Definition _handleCheckboxChange (input : nat) (w : World) : World :=
  match doc w !! input with
  | None => w
  | Some e =>
      let name := el_name e in
      let value := el_value e in
      let w1 :=
        match closest (contains "options") (doc w) input with
        | Some container =>
            match ((doc w !! container) ≫= data_maxSelect) ≫= JS.parseInt with
            | Some maxSelect =>
                if bool_decide (maxSelect = 0%Z) then w
                else set_doc (_enforceMaxSelect container maxSelect (doc w)) w
            | None => w
            end
        | None => w
        end in
      let w2 :=
        match JS.get (otherFieldMap w1) name with
        | Some otherValues =>
            if bool_decide (value ∈ otherValues) then
              if el_checked e then _showOtherInput name value w1
              else _hideOtherInput name value w1
            else w1
        | None => w1
        end in
      evaluate name "checkbox" w2
  end.

Definition _selectOptionCached (question : nat) (num : Z) (inputs : list nat)
    (w : World) : World :=
  if ((num <? 1) || (Z.of_nat (length inputs) <? num))%Z then w
  else
    match inputs !! Z.to_nat (num - 1) with
    | None => w
    | Some input =>
        match doc w !! input with
        | None => w
        | Some e =>
            let label := closest (contains "option-label") (doc w) input in
            if bool_decide (el_type e = "checkbox") then
              let checked := negb (el_checked e) in
              let d1 := alter (set_checked checked) input (doc w) in
              let d2 := alter_opt (class_toggle "selected" checked) label d1 in
              _handleCheckboxChange input (set_doc d2 w)
            else
              let wasChecked := el_checked e in
              let d1 :=
                match closest (contains "options") (doc w) input with
                | Some parent =>
                    update_where
                      (λ x, under parent x && contains "option-label" x)
                      (class_remove "selected") (doc w)
                | None => doc w
                end in
              let d2 :=
                if wasChecked then uncheck input d1
                else alter_opt (class_add "selected") label (check input d1) in
              _handleRadioChange input (set_doc d2 w)
        end
    end.

(** [parseInt(question.dataset.scaleMax || '10', 10)] *)
Definition scaleMax_of (question : nat) (d : Document) : option Z :=
  match (d !! question) ≫= data_scaleMax with
  | Some s => JS.parseInt (if bool_decide (s = "") then "10" else s)
  | None => Some 10%Z
  end.

Definition _selectScaleValue (question : nat) (value : Z) (w : World)
  : World :=
  let scaleMax := scaleMax_of question (doc w) in
  if ((value <? 0)
      || match scaleMax with Some m => (m <? value) | None => false end)%Z
  then w
  else
    let cacheKey := "scale_" ++ name_of question (doc w) in
    let w1 :=
      match optionCache w !! cacheKey with
      | Some _ => w
      | None =>
          set_optionCache
            (<[cacheKey :=
                 mkCacheEntry
                   (select (λ e, under question e && is_input e
                                 && inside (contains "scale-option") (doc w) e)
                      (doc w))
                   (select (λ e, under question e
                                 && contains "scale-option" e) (doc w))]>
               (optionCache w)) w
      end in
    match optionCache w1 !! cacheKey with
    | None => w1
    | Some cache =>
        match List.find
                (λ inp, bool_decide
                          ((doc w1 !! inp) ≫= (λ e, JS.parseInt (el_value e))
                           = Some value))
                (cache_inputs cache) with
        | None => w1
        | Some input =>
            let label := closest (contains "scale-option") (doc w1) input in
            let wasChecked := matches_at el_checked (doc w1) input in
            let d1 := update_at (cache_labels cache) (class_remove "selected")
                        (doc w1) in
            let d2 :=
              if wasChecked then uncheck input d1
              else alter_opt (class_add "selected") label (check input d1) in
            _handleRadioChange input (set_doc d2 w1)
        end
    end.

Definition _selectTableRadio (question : nat) (rowName : string) (radio : nat)
    (w : World) : World :=
  let wasChecked := matches_at el_checked (doc w) radio in
  let radios :=
    select (λ e, under question e && is_input e
                 && bool_decide (el_name e = rowName)) (doc w) in
  let d1 :=
    foldl (λ d r,
             let d' := uncheck r d in
             alter_opt (class_remove "selected")
               (closest (contains "table-option") d' r) d')
      (doc w) radios in
  let d2 :=
    if wasChecked then d1
    else
      let d' := check radio d1 in
      alter_opt (class_add "selected")
        (closest (contains "table-option") d' radio) d' in
  set_doc d2 w.

(** Calling a stored [onSelect] closure with [num]. *)
Definition onSelect (cb : OnSelect) (num : Z) (w : World) : World :=
  match cb with
  | SelectOption question inputs => _selectOptionCached question num inputs w
  | SelectScale question => _selectScaleValue question num w
  | SelectTableRow question rowName radios =>
      if ((1 <=? num) && (num <=? Z.of_nat (length radios)))%Z then
        match radios !! Z.to_nat (num - 1) with
        | Some radio => _selectTableRadio question rowName radio w
        | None => w
        end
      else w
  end.

(** The same call on the result of [parseInt].  [NaN] cannot arise from
    the keys the router passes on (single decimal digits); the table and
    scale closures would return at their guards. *)
Definition onSelect_parsed (cb : OnSelect) (num : option Z) (w : World)
  : World :=
  match num with
  | Some n => onSelect cb n w
  | None => w
  end.

(** The callback armed by [_handleTwoDigitInput] runs when the timer
    expires. *)
Definition timer_expires (w : World) : World :=
  match digitTimer w with
  | None => w
  | Some t =>
      let num := JS.parseInt (digitBuffer w) in
      let w1 := clearDigitBuffer w in
      let w2 := set_pendingSelect None w1 in
      onSelect_parsed (timer_onSelect t) num w2
  end.

Definition _handleTwoDigitInput (digit : string) (maxValue : option Z)
    (cb : OnSelect) (w : World) : World :=
  let pressedDigit := JS.parseInt digit in
  let maxFirstDigit := (λ m, m / 10)%Z <$> maxValue in
  if negb (bool_decide (digitBuffer w = "")) then
    let (combined, w1) := appendDigitBuffer digit w in
    let w2 := set_pendingSelect None w1 in
    onSelect_parsed cb (JS.parseInt combined) w2
  else if match pressedDigit, maxFirstDigit with
          | Some p, Some m => ((1 <=? p) && (p <=? m))%Z
          | _, _ => false
          end
  then
    let w1 := setDigitBuffer digit w in
    let w2 := set_pendingSelect (Some cb) w1 in
    setDigitTimer cb DIGIT_WAIT_MS w2
  else
    let w1 := set_pendingSelect None w in
    onSelect_parsed cb pressedDigit w1.

Definition flushDigitBuffer (w : World) : World :=
  match pendingSelect w with
  | Some cb =>
      if negb (bool_decide (digitBuffer w = "")) then
        let num := JS.parseInt (digitBuffer w) in
        let w1 := clearDigitBuffer w in
        set_pendingSelect None (onSelect_parsed cb num w1)
      else w
  | None => w
  end.

Definition _handleNormalDigit (digit : string) (question : nat) (w : World)
  : World :=
  let (cache, w1) := _getOptionCache question w in
  _handleTwoDigitInput digit (Some (Z.of_nat (length (cache_inputs cache))))
    (SelectOption question (cache_inputs cache)) w1.

Definition _handleScaleDigit (digit : string) (question : nat) (w : World)
  : World :=
  _handleTwoDigitInput digit (scaleMax_of question (doc w))
    (SelectScale question) w.

Definition _handleTableDigit (digit : string) (question : nat) (w : World)
  : World :=
  match getTableConfig w with
  | None => w
  | Some tableConfig =>
      match rowNames tableConfig ≫= (λ rows, nth_Z rows (tableRowIndex w)) with
      | None => w
      | Some rowName =>
          if bool_decide (rowName = "") then w
          else
            let cacheKey := name_of question (doc w) ++ "_" ++ rowName in
            let w1 :=
              match optionCache w !! cacheKey with
              | Some _ => w
              | None =>
                  set_optionCache
                    (<[cacheKey :=
                         mkCacheEntry
                           (select (λ e, under question e && is_input e
                                         && bool_decide (el_name e = rowName))
                              (doc w)) []]>
                       (optionCache w)) w
              end in
            match optionCache w1 !! cacheKey with
            | None => w1
            | Some cache =>
                let radios := cache_inputs cache in
                _handleTwoDigitInput digit (Some (Z.of_nat (length radios)))
                  (SelectTableRow question rowName radios) w1
            end
      end
  end.

Definition handleDigitInput (digit : string) (w : World) : World :=
  match getCurrentQuestion w with
  | None => w
  | Some question =>
      match (doc w !! question) ≫= data_type with
      | Some "table" => _handleTableDigit digit question w
      | Some "scale" => _handleScaleDigit digit question w
      | _ => _handleNormalDigit digit question w
      end
  end.

(** ** InputRouter *)

Record KeyEvent := mkKeyEvent {
  key : string;
  shiftKey : bool
}.

(** [/^[0-9]$/.test(e.key)] *)
Definition is_digit_key (k : string) : bool :=
  match k with
  | String c EmptyString => bool_decide (is_Some (JS.digit_of c))
  | _ => false
  end.

(** [id.replace('q_', '')]: the first occurrence is removed. *)
Fixpoint remove_q_ (s : string) : string :=
  match s with
  | String "q" (String "_" r) => r
  | String c r => String c (remove_q_ r)
  | EmptyString => EmptyString
  end.

(** [question.id?.replace('q_', '') || question.dataset.questionId];
    the generated markup carries no [data-question-id]. *)
Definition questionId_of (question : nat) (d : Document) : option string :=
  match d !! question with
  | Some e =>
      let s := remove_q_ (el_id e) in
      if bool_decide (s = "") then None else Some s
  | None => None
  end.

Section InputRouter.

(** Collaborators of the router that are outside this development:
    the modal dialog ([Some] when it consumed the key), Tab handling,
    Enter inside a field and Enter on the last question. *)
Variable onModalKeydown : KeyEvent → World → option World.
Variable _handleTab : option nat → bool → World → World.
Variable _handleEnterInInput : option nat → World → World.
Variable onEnterAtEnd : World → World.

Definition _handleKeydown (e : KeyEvent) (w : World) : World :=
  match onModalKeydown e w with
  | Some w' => w'
  | None =>
      let activeEl := activeElement w in
      let active sel :=
        match activeEl with
        | Some i => matches_at sel (doc w) i
        | None => false
        end in
      let isTextInput := active (λ x, is_type "text" x || is_type "number" x) in
      let isTextarea := active is_textarea in
      let isSelect := active is_select in
      let isButton := active (λ x, bool_decide (tagName x = BUTTON)) in
      if bool_decide (key e = "Tab") then
        _handleTab activeEl (shiftKey e) (emit preventDefault w)
      else if bool_decide (key e = "Enter") then
        if isButton then w
        else if isTextInput || isSelect then
          _handleEnterInInput activeEl (emit preventDefault w)
        else if negb isTextarea then onEnterAtEnd (emit preventDefault w)
        else w
      else if isTextInput || isSelect || isTextarea then w
      else if is_digit_key (key e) && (0 <=? questionIndex w)%Z then
        if negb (hasValidId w) then
          (focusId
             (emit (idRequired "先にIDを入力してください")
                (emit preventDefault w))).1
        else handleDigitInput (key e) (emit preventDefault w)
      else if bool_decide (key e = "+") && (0 <=? questionIndex w)%Z then
        match getCurrentQuestion w with
        | Some question =>
            match questionId_of question (doc w) with
            | Some questionId =>
                let (w1, opened) := openBranchesForParent questionId w in
                if opened then emit preventDefault w1 else w1
            | None => w
            end
        | None => w
        end
      else if bool_decide (key e = "-") && (0 <=? questionIndex w)%Z then
        match getCurrentQuestion w with
        | Some question =>
            match questionId_of question (doc w) with
            | Some questionId =>
                let (w1, closed) := closeBranchesForParent questionId w in
                if closed then emit preventDefault w1 else w1
            | None => w
            end
        | None => w
        end
      else w
  end.

End InputRouter.

(** ** Vocabulary of the statements *)

(** [s] is the one-character string of the decimal digit [d]: what the
    router passes to [handleDigitInput]. *)
Definition single_digit (s : string) (d : Z) : Prop :=
  ∃ c, s = String c EmptyString ∧ JS.digit_of c = Some d.

(** ** Sample documents used to instantiate the statements *)

Module Sample.

Definition div (id : string) (classes : list string)
    (dname dtype : option string) (parents : list nat) : Element :=
  mkElement OTHER id "" "" "" false 0 classes dname dtype None None parents.

Definition input (type name value : string) (checked : bool)
    (parents : list nat) : Element :=
  mkElement INPUT "" type name value checked 0 [] None None None None parents.

Definition world (d : Document) (questions : list nat) (c : Config) : World :=
  mkWorld d None (-1) 0 "" None questions None (Some c) ∅ [] ∅ false ∅ None [].

Definition no_config : Config := mkConfig [] [] [].

End Sample.

(** The answers held by two documents are the same, element by element. *)
Definition same_inputs (d d' : Document) : Prop :=
  ∀ i, (el_checked <$> d' !! i) = (el_checked <$> d !! i)
       ∧ (el_value <$> d' !! i) = (el_value <$> d !! i)
       ∧ (el_selectedIndex <$> d' !! i) = (el_selectedIndex <$> d !! i).

Module ScaleSample.
Import Sample.

(** A scale question [S] with the options 0, 1 and 2. *)
Definition document : Document :=
  [ mkElement OTHER "q_S" "" "" "" false 0 ["question"] (Some "S")
      (Some "scale") (Some "2") None [];
    div "" ["scale-option"] None None [0%nat];
    input "radio" "S" "0" false [1%nat; 0%nat];
    div "" ["scale-option"] None None [0%nat];
    input "radio" "S" "1" false [3%nat; 0%nat];
    div "" ["scale-option"] None None [0%nat];
    input "radio" "S" "2" false [5%nat; 0%nat] ].

Definition initial : World := world document [0%nat] no_config.

End ScaleSample.

Module RouterSample.
Import Sample.

(** One radio question [Q1] and the identifier field (empty). *)
Definition document : Document :=
  [ div "q_Q1" ["question"] (Some "Q1") None [];
    div "" ["options"] None None [0%nat];
    div "" ["option-label"] None None [1%nat; 0%nat];
    input "radio" "Q1" "1" false [2%nat; 1%nat; 0%nat];
    mkElement INPUT "respondentId" "text" "" "" false 0 [] None None None
      None [] ].

Definition at_id_entry : World :=
  mkWorld document None (-1) 0 "" None [0%nat] (Some 4%nat)
    (Some no_config) ∅ [] ∅ false ∅ None [].

Definition at_question : World := set_questionIndex 0 at_id_entry.

(** The same with a full-width space (U+3000) typed as identifier. *)
Definition blank_id : World :=
  set_doc (alter (set_value "　") 4%nat document) at_question.

Definition no_modal (_ : KeyEvent) (_ : World) : option World := None.
Definition no_tab (_ : option nat) (_ : bool) (w : World) : World := w.
Definition no_enter (_ : option nat) (w : World) : World := w.
Definition no_enter_at_end (w : World) : World := w.

Definition keydown : KeyEvent → World → World :=
  _handleKeydown no_modal no_tab no_enter no_enter_at_end.

End RouterSample.

(** A question is displayed when neither it nor any of its ancestors is
    a [conditional] block without the [show] class. *)
Definition displayed (d : Document) (q : nat) : bool :=
  match d !! q with
  | Some e =>
      forallb (λ a, negb (matches_at (contains "conditional") d a)
                    || has_show d a)
        (q :: el_parents e)
  | None => false
  end.

(** Visibility, as [isVisible] computes it, of the question at a
    position of the question list. *)
Definition visible_at (w : World) (i : Z) : bool :=
  isVisible (nth_Z (questionList w) i) (doc w).

Module NestedSample.
Import Sample.

(** The markup of a choice question: the question block, its options
    block, and one label with its input per option. *)
Definition choice_question (type id : string) (classes : list string)
    (parents : list nat) (self : nat) (values : list string) : Document :=
  div ("q_" ++ id) ("question" :: classes) (Some id) None parents
  :: div "" ["options"] None None (self :: parents)
  :: mjoin
       (imap (λ k v,
                [ div "" ["option-label"] None None
                    (S self :: self :: parents);
                  input type id v false
                    (S (S (2 * k + self)) :: S self :: self :: parents) ])
          values).

Definition radio_question := choice_question "radio".

(** Question [A] (options 1, 2) holds the conditional sub-question [B]
    (shown when A = 1), which holds the conditional sub-question [C]
    (shown when B = 1), which holds the plain sub-question [D]; [E]
    follows at top level. *)
Definition document : Document :=
  (radio_question "A" [] [] 0 ["1"; "2"]
   ++ radio_question "B" ["sub-question"; "conditional"] [0%nat] 6 ["1"]
   ++ radio_question "C" ["sub-question"; "conditional"] [6%nat; 0%nat] 10
        ["1"]
   ++ radio_question "D" ["sub-question"] [10%nat; 6%nat; 0%nat] 14 ["1"]
   ++ radio_question "E" [] [] 18 ["1"])%list.

Definition configuration : Config :=
  mkConfig [ ("A", [mkCond "B" [1%Z] false]);
             ("B", [mkCond "C" [1%Z] false]) ] [] [].

Definition initial : World :=
  world document [0%nat; 6%nat; 10%nat; 14%nat; 18%nat] configuration.

End NestedSample.

Module TicketSample.
Import Sample NestedSample.

(** The shapes of the configuration guide: question [A14] (options 1 to
    3) is followed by the conditional section [section_B], shown when
    A14 is 2 or 3.  The section holds the multi-choice question [Q6_1],
    whose sub-question [Q6_1_1] is shown when Q6_1 includes 2, and whose
    sub-sub-question [Q6_1_1_year], a number field, is shown when
    Q6_1_1 is answered.  Question [C1] follows the section. *)
Definition document : Document :=
  (radio_question "A14" [] [] 0 ["1"; "2"; "3"]
   ++ [ div "section_B" ["survey-section"; "conditional"] None None [] ]
   ++ choice_question "checkbox" "Q6_1" [] [8%nat] 9 ["1"; "2"; "3"]
   ++ radio_question "Q6_1_1" ["sub-question"; "conditional"]
        [9%nat; 8%nat] 17 ["1"; "2"; "3"]
   ++ [ div "q_Q6_1_1_year" ["question"; "sub-question"; "conditional"]
          (Some "Q6_1_1_year") None [17%nat; 9%nat; 8%nat];
        mkElement INPUT "Q6_1_1_year" "number" "Q6_1_1_year" "" false 0 []
          None None None None [25%nat; 17%nat; 9%nat; 8%nat] ]
   ++ radio_question "C1" [] [] 27 ["1"])%list.

Definition configuration : Config :=
  mkConfig [ ("A14", [mkCond "section_B" [2%Z; 3%Z] true]);
             ("Q6_1", [mkCond "Q6_1_1" [2%Z] false]);
             ("Q6_1_1", [mkCond "Q6_1_1_year" [1%Z; 2%Z; 3%Z] false]) ]
    [] [].

Definition initial : World :=
  world document [0%nat; 9%nat; 17%nat; 25%nat; 27%nat] configuration.

(** The operator answers A14 = 2, ticks option 2 of Q6_1, answers
    Q6_1_1 = 1, then goes back to A14 and corrects it to 1. *)
Definition after_correction : World :=
  let w1 := (moveNext initial).1 in
  let w2 := handleDigitInput "2" w1 in
  let w3 := (moveNext w2).1 in
  let w4 := handleDigitInput "2" w3 in
  let w5 := (moveNext w4).1 in
  let w6 := handleDigitInput "1" w5 in
  let w7 := (movePrev w6).1 in
  let w8 := (movePrev w7).1 in
  handleDigitInput "1" w8.

End TicketSample.

Module GeneratedSample.
Import Sample.

(** The same form with the condition table in the order the generator
    builds it: a section registers its questions, and they their
    sub-questions, before its own condition, so the parents come in the
    order Q6_1, Q6_1_1, A14. *)
Definition configuration : Config :=
  mkConfig [ ("Q6_1", [mkCond "Q6_1_1" [2%Z] false]);
             ("Q6_1_1", [mkCond "Q6_1_1_year" [1%Z; 2%Z; 3%Z] false]);
             ("A14", [mkCond "section_B" [2%Z; 3%Z] true]) ]
    [] [].

Definition initial : World :=
  world TicketSample.document [0%nat; 9%nat; 17%nat; 25%nat; 27%nat]
    configuration.

(** Show-all mode is on, so every block is shown; A14 is answered 1,
    option 2 of Q6_1 is ticked and Q6_1_1 is answered 1. *)
Definition showing_all : World :=
  let w := setShowAll true initial in
  set_doc (check 20 (alter (set_checked true) 14%nat (check 3 (doc w)))) w.

(** Show-all mode is turned off. *)
Definition turned_off : World := setShowAll false showing_all.

(** The operator then corrects A14 to 2. *)
Definition corrected : World :=
  evaluate "A14" "radio" (set_doc (check 5 (doc turned_off)) turned_off).

End GeneratedSample.

(** Classes written while the form runs; every other class is part of
    the static markup. *)
Definition dynamic_class (c : string) : Prop :=
  c ∈ ["show"; "selected"; "disabled"].

(** An element with its written attributes erased: what never changes. *)
Definition shape (e : Element) : Element :=
  mkElement (tagName e) (el_id e) (el_type e) (el_name e) "" false 0
    (filter (λ c, ¬ dynamic_class c) (classList e))
    (data_name e) (data_type e) (data_scaleMax e) (data_maxSelect e)
    (el_parents e).

Definition same_shape (d d' : Document) : Prop :=
  shape <$> d' = shape <$> d.

(** A selector that only looks at the static markup. *)
Definition static_selector (sel : Element → bool) : Prop :=
  ∀ e, sel (shape e) = sel e.

(** [f] applied where [sel] holds: one step of a [forEach]. *)
Definition when (sel : Element → bool) (f : Element → Element) (e : Element)
  : Element :=
  if sel e then f e else e.

(** What [_clearInputs container] does to one element: [inChecked]
    tells whether it is one of the checked inputs of the first pass,
    [inLabels] whether it is the label of one of them. *)
Definition clear_element (container : nat) (inChecked inLabels : bool)
    (e : Element) : Element :=
  when (λ x, under container x && contains "other-input" x)
    (class_remove "show")
    (when (λ x, under container x && is_select x) (set_selectedIndex 0)
       (when (λ x, under container x && is_textarea x) (set_value "")
          (when (λ x, under container x
                      && (has_type "text" x || has_type "number" x))
             (set_value "")
             (when (λ _, inLabels) (class_remove "selected")
                (when (λ _, inChecked) (set_checked false) e))))).

(** The attributes that decide which selectors an element matches. *)
Definition kind (e : Element) : TagName * string * list nat :=
  (tagName e, el_type e, el_parents e).

(** An input in its cleared state, for the kinds of input that
    [_clearInputs] handles. *)
Definition cleared (e : Element) : Prop :=
  input_checked e = false
  ∧ (has_type "text" e || has_type "number" e = true → el_value e = "")
  ∧ (is_textarea e = true → el_value e = "")
  ∧ (is_select e = true → el_selectedIndex e = 0%Z).

(** A state that differs from [w] at most in the document, the
    visibility cache, the expand icons and the event log: all that an
    evaluation can write. *)
Definition evolve (w : World) (d : Document) (vc : gmap string bool)
    (tb : gmap string Icon) (ev : list Event) : World :=
  mkWorld d (activeElement w) (questionIndex w) (tableRowIndex w)
    (digitBuffer w) (digitTimer w) (questionList w) (respondentId w)
    (config w) vc (manualOverrides w) tb (showAll w) (optionCache w)
    (pendingSelect w) ev.

Definition evolves (w w' : World) : Prop :=
  ∃ d vc tb ev, w' = evolve w d vc tb ev ∧ same_shape (doc w) d.

(** The loop of [_evaluateRadio] and [_evaluateCheckbox] for a given
    [shouldShow] per entry. *)
Definition eval_all (f : Cond → bool) (conditions : list Cond) (w : World)
  : World :=
  foldl (λ w cond, evaluate_entry (f cond) cond w) w conditions.

(** An entry on which the loop body does nothing. *)
Definition settled (b : bool) (c : Cond) (w : World) : Prop :=
  showAll w || overridden w (targetId c) = true
  ∨ visibilityCache w !! targetId c = Some b
  ∨ targetEl c (doc w) = None.

(** The answers as the document holds them, without the evaluator's
    readers.  A checked input of the group [name]: *)
Definition checked_input (d : Document) (name : string) (i : nat)
    (e : Element) : Prop :=
  d !! i = Some e ∧ tagName e = INPUT
  ∧ (el_type e = "radio" ∨ el_type e = "checkbox")
  ∧ el_checked e = true ∧ el_name e = name.

(** The selected value of a single-choice parent: the value of its
    checked input (of the first in document order, should several be
    checked).  An unanswered parent has none. *)
Definition selected_value (d : Document) (name v : string) : Prop :=
  ∃ i e, checked_input d name i e ∧ el_value e = v
         ∧ ∀ j e', (j < i)%nat → ¬ checked_input d name j e'.

(** The condition of an entry in the words of the specification: for a
    single-choice parent the selected value is non-empty and belongs to
    the trigger set; for a multi-choice parent some checked value belongs
    to it.  Values are strings and trigger sets hold numbers: a value
    belongs to a set by the number it denotes. *)
Definition radio_condition (d : Document) (parentId : string) (cond : Cond)
  : Prop :=
  ∃ v z, selected_value d parentId v ∧ v ≠ ""
         ∧ JS.parseInt v = Some z ∧ z ∈ showValues cond.

Definition checkbox_condition (d : Document) (parentId : string)
    (cond : Cond) : Prop :=
  ∃ i e z, checked_input d parentId i e
           ∧ JS.parseInt (el_value e) = Some z ∧ z ∈ showValues cond.

Module ConditionSample.
Import Sample.

(** Question [A] answered 1, with its conditional sub-question [B] still
    hidden: the state in which the change handler calls [evaluate]. *)
Definition answered : World :=
  set_doc (check 3 NestedSample.document) NestedSample.initial.

Definition entry : Cond := mkCond "B" [1%Z] false.

End ConditionSample.

Module DateSample.
Import Sample.

(** Question [P] (options 1, 2) and the conditional question [T], shown
    when P = 1, which holds a date field and a text field. *)
Definition document : Document :=
  (NestedSample.radio_question "P" [] [] 0 ["1"; "2"]
   ++ [ div "q_T" ["question"; "conditional"] (Some "T") None [];
        div "" ["date-input"] None None [6%nat];
        mkElement INPUT "T" "date" "T" "" false 0 [] None None None None
          [7%nat; 6%nat];
        mkElement INPUT "T_note" "text" "T_note" "" false 0 [] None None None
          None [6%nat] ])%list.

Definition configuration : Config :=
  mkConfig [ ("P", [mkCond "T" [1%Z] false]) ] [] [].

Definition initial : World := world document [0%nat; 6%nat] configuration.

(** P is answered 1, which reveals T. *)
Definition revealed : World :=
  handleDigitInput "1" (moveNext initial).1.

(** The operator types a date and a note into T. *)
Definition filled : World :=
  set_doc (alter (set_value "2024-05-01") 8
             (alter (set_value "note") 9 (doc revealed))) revealed.

(** P is corrected to 2, which hides T. *)
Definition corrected : World := handleDigitInput "2" filled.

End DateSample.

(** The parent has check boxes, which is how the evaluator tells
    multi-choice from single-choice parents. *)
Definition multi_choice (d : Document) (parentId : string) : Prop :=
  ∃ i e, d !! i = Some e ∧ tagName e = INPUT ∧ el_type e = "checkbox"
         ∧ el_name e = parentId.

(** The condition of one entry on the current answer of its parent. *)
Definition entry_condition (d : Document) (parentId : string) (cond : Cond)
  : Prop :=
  (multi_choice d parentId ∧ checkbox_condition d parentId cond)
  ∨ (¬ multi_choice d parentId ∧ radio_condition d parentId cond).

(** The real condition governing target [t] is met: some entry of the
    condition table names [t] and holds on its parent's answer. *)
Definition real_condition_met (w : World) (t : string) : Prop :=
  ∃ parentId conditions cond,
    (parentId, conditions) ∈ conditionMap w ∧ cond ∈ conditions
    ∧ targetId cond = t ∧ entry_condition (doc w) parentId cond.




Module CursorSample.

(** The cursor rests on B (position 1), shown because A = 1; the
    operator then clicks option 2 of A. *)
Definition on_B : World :=
  let w1 := (moveNext NestedSample.initial).1 in
  let w2 := handleDigitInput "1" w1 in
  (moveNext w2).1.

Definition clicked : World := set_doc (check 5 (doc on_B)) on_B.

End CursorSample.

(** All entries of a condition table, in enumeration order. *)
Definition all_conds (cm : list (string * list Cond)) : list Cond :=
  mjoin (snd <$> cm).

(** Well-formed table and markup: parents are the keys of an object (no
    repetition), a target appears once per parent and under one parent
    only, entries have distinct elements, and no target is an
    [other-input] block. *)
Record table_wf (cm : list (string * list Cond)) (d : Document) : Prop := {
  wf_keys : NoDup (fst <$> cm);
  wf_once : ∀ P cs, (P, cs) ∈ cm → NoDup (targetId <$> cs);
  wf_single :
    ∀ i j P cs P' cs' c c',
      cm !! i = Some (P, cs) → cm !! j = Some (P', cs') →
      c ∈ cs → c' ∈ cs' → targetId c = targetId c' → i = j;
  wf_elements :
    ∀ P cs P' cs' c c' el,
      (P, cs) ∈ cm → (P', cs') ∈ cm → c ∈ cs → c' ∈ cs' →
      targetEl c d = Some el → targetEl c' d = Some el → c = c';
  wf_blocks :
    ∀ P cs c el, (P, cs) ∈ cm → c ∈ cs → targetEl c d = Some el →
                 matches_at (contains "other-input") d el = false
}.

(** Questions only depend on earlier ones: the inputs of a parent never
    lie inside a target of that parent or of a parent that comes later
    in the table. *)
Definition parents_before_targets (cm : list (string * list Cond))
    (d : Document) : Prop :=
  ∀ i j Pi csi Pj csj c el k e,
    cm !! i = Some (Pi, csi) → cm !! j = Some (Pj, csj) → (i ≤ j)%nat →
    c ∈ csj → targetEl c d = Some el →
    d !! k = Some e → el_name e = Pi → under el e = false.

Module ForwardSample.
Import Sample.

(** T2 comes first and is shown when X = 1; X is a sub-question of T1,
    which comes later and is shown when P = 1.  The table lists X before
    P.  Show-all mode is on; P is answered 2 and X is answered 1. *)
Definition document : Document :=
  (NestedSample.radio_question "T2" ["conditional"; "show"] [] 0 ["1"]
   ++ NestedSample.radio_question "P" [] [] 4 ["1"; "2"]
   ++ NestedSample.radio_question "T1" ["conditional"; "show"] [] 10 ["1"]
   ++ NestedSample.radio_question "X" ["sub-question"] [10%nat] 14 ["1"])%list.

Definition configuration : Config :=
  mkConfig [ ("X", [mkCond "T2" [1%Z] false]);
             ("P", [mkCond "T1" [1%Z] false]) ] [] [].

Definition showing_all : World :=
  set_showAll true
    (world (check 17 (check 9 document)) [0%nat; 4%nat; 10%nat; 14%nat]
       configuration).

End ForwardSample.

(** Two documents that agree, element by element, on which inputs named
    [P] are checked and on the values of those inputs. *)
Definition same_answers (P : string) (d d' : Document) : Prop :=
  Forall2 (λ e e', checked_named P e' = checked_named P e
                   ∧ (checked_named P e = true → el_value e' = el_value e))
    d d'.

(** State of the re-evaluation loop of [setShowAll(false)] once the
    first [n] parents of the table [cm] are done: their targets carry
    [show] exactly when their condition holds, and the targets of the
    remaining parents have no cache entry. *)
Definition reevaluated (cm : list (string * list Cond)) (n : nat) (w : World)
  : Prop :=
  showAll w = false ∧ manualOverrides w = [] ∧ conditionMap w = cm
  ∧ table_wf cm (doc w) ∧ parents_before_targets cm (doc w)
  ∧ (∀ i P cs c el,
       (i < n)%nat → cm !! i = Some (P, cs) → c ∈ cs →
       targetEl c (doc w) = Some el →
       (has_show (doc w) el = true ↔ entry_condition (doc w) P c))
  ∧ (∀ j P cs c,
       (n ≤ j)%nat → cm !! j = Some (P, cs) → c ∈ cs →
       is_Some (targetEl c (doc w)) →
       visibilityCache w !! targetId c = None).

(** The visibility cache agrees with the document: where evaluation is
    in force for a target (show-all off, no override) and the cache has
    an entry for it, the target carries [show] exactly when the entry
    says so. *)
Definition cache_coherent (w : World) : Prop :=
  ∀ P cs c el b,
    (P, cs) ∈ conditionMap w → c ∈ cs → targetEl c (doc w) = Some el →
    showAll w = false → overridden w (targetId c) = false →
    visibilityCache w !! targetId c = Some b →
    has_show (doc w) el = b.

Module ShowAllSample.

(** The date sample in show-all mode, with T opened by hand earlier. *)
Definition showing_all : World :=
  set_showAll true
    (set_manualOverrides ["T"] DateSample.corrected).

End ShowAllSample.

(** ** Cursor of the navigator *)

(** The cursor designates identifier entry or a question of the list,
    and its row lies inside the current table (row 0 outside a table). *)
Definition cursor_ok (w : World) : Prop :=
  (-1 ≤ questionIndex w < Z.of_nat (length (questionList w)))%Z
  ∧ (0 ≤ tableRowIndex w ≤ maxRow_of (getTableConfig w))%Z.

(** The table configuration seen at position [i] of the question list. *)
Definition tableConfig_at (w : World) (i : Z) : option TableConfig :=
  match nth_Z (questionList w) i with
  | Some q => if is_table (Some q) (doc w) then tableConfig_of q w else None
  | None => None
  end.

(** The calls by which the form moves the cursor. *)
Inductive NavOp :=
| NavNext
| NavPrev
| NavFocusId
| NavFocusQuestion (questionEl : nat) (options : Options)
| NavSetIndex (index : Z) (options : Options)
| NavSetRow (index : Z).

Definition run_nav (w : World) (op : NavOp) : World :=
  match op with
  | NavNext => (moveNext w).1
  | NavPrev => (movePrev w).1
  | NavFocusId => (focusId w).1
  | NavFocusQuestion q options => focusQuestion q options w
  | NavSetIndex i options => (setQuestionIndex i options w).1
  | NavSetRow i => (setTableRowIndex i w).1
  end.

(** [setQuestionIndex] stores its [tableRow] option unchecked.  A call
    respects the table when the row it passes, if any, is a row of the
    table at the position it names. *)
Definition row_option_ok (w : World) (op : NavOp) : Prop :=
  match op with
  | NavFocusQuestion q options =>
      ∀ r i, opt_tableRow options = Some r →
             nth_Z (questionList w) i = Some q →
             (0 ≤ r ≤ maxRow_of (tableConfig_at w i))%Z
  | NavSetIndex i options =>
      ∀ r, opt_tableRow options = Some r →
           (0 ≤ r ≤ maxRow_of (tableConfig_at w i))%Z
  | _ => True
  end.

Module TableSample.
Import Sample.

(** A table question M with the rows M_a and M_b, two options each,
    followed by a single-choice question Z. *)
Definition document : Document :=
  ([ div "q_M" ["question"; "table-question"] (Some "M") (Some "table") [];
     div "" ["table-option"] None None [0%nat];
     input "radio" "M_a" "1" false [1%nat; 0%nat];
     div "" ["table-option"] None None [0%nat];
     input "radio" "M_a" "2" false [3%nat; 0%nat];
     div "" ["table-option"] None None [0%nat];
     input "radio" "M_b" "1" false [5%nat; 0%nat];
     div "" ["table-option"] None None [0%nat];
     input "radio" "M_b" "2" false [7%nat; 0%nat] ]
   ++ NestedSample.radio_question "Z" [] [] 9 ["1"])%list.

Definition configuration : Config :=
  mkConfig [] [("M", mkTableConfig (Some ["M_a"; "M_b"]))] [].

Definition initial : World := world document [0%nat; 9%nat] configuration.

(** On the first and on the last row of the table, and on Z. *)
Definition first_row : World := (moveNext initial).1.
Definition last_row : World := (moveNext first_row).1.
Definition after_table : World := (moveNext last_row).1.

End TableSample.

(** ** Manual overrides and show-all mode *)

(** The element [toggleManual] acts on: the question [q_t] when there is
    one, the section [t] otherwise. *)
Definition toggle_element (d : Document) (t : string) : option nat :=
  match getElementById d ("q_" ++ t) with
  | Some el => Some el
  | None => getElementById d t
  end.

(** [toggleManual(t)] finds the element of the entries named [t], not
    the element of another target. *)
Definition toggle_ok (cm : list (string * list Cond)) (d : Document)
    (t : string) : Prop :=
  ∀ P cs c el,
    (P, cs) ∈ cm → c ∈ cs → targetEl c d = Some el →
    toggle_element d t = Some el → targetId c = t.

(** Every call a client can make on the evaluator. *)
Inductive EvaluatorCall :=
| CallEvaluate (parentId fieldType : string)
| CallToggleManual (target : string)
| CallOpenBranches (parentId : string)
| CallCloseBranches (parentId : string)
| CallSetShowAll (flag : bool)
| CallClearCache.

Definition run_call (w : World) (c : EvaluatorCall) : World :=
  match c with
  | CallEvaluate parentId fieldType => evaluate parentId fieldType w
  | CallToggleManual target => toggleManual target w
  | CallOpenBranches parentId => (openBranchesForParent parentId w).1
  | CallCloseBranches parentId => (closeBranchesForParent parentId w).1
  | CallSetShowAll flag => setShowAll flag w
  | CallClearCache => clearCache w
  end.

Module OverrideSample.

(** B, hidden because A is unanswered, has been opened by hand. *)
Definition opened : World := toggleManual "B" NestedSample.initial.

Definition entry : Cond := mkCond "B" [1%Z] false.

End OverrideSample.

(** ** Digit buffer *)

(** The three parts of the two-digit state agree: either nothing is
    pending, or a digit is buffered, the timer is armed for
    [DIGIT_WAIT_MS] and the timer's callback is the one kept for an
    immediate commit. *)
Definition buffer_ok (w : World) : Prop :=
  (digitBuffer w = "" ∧ digitTimer w = None ∧ pendingSelect w = None)
  ∨ ∃ cb, digitBuffer w ≠ ""
          ∧ digitTimer w = Some (mkTimer cb DIGIT_WAIT_MS)
          ∧ pendingSelect w = Some cb.

(** What happens to the buffer: a digit key, the expiry of the timer, or
    a flush (Tab, click). *)
Inductive DigitOp :=
| DigitKey (digit : string)
| DigitExpiry
| DigitFlush.

Definition run_digit (w : World) (op : DigitOp) : World :=
  match op with
  | DigitKey digit => handleDigitInput digit w
  | DigitExpiry => timer_expires w
  | DigitFlush => flushDigitBuffer w
  end.

(** A step of the answer handler leaves the navigation state, the digit
    buffer, the configuration and the evaluator's modes alone; it writes
    classes, answers, caches and the focus only. *)
Definition answer_step (w w' : World) : Prop :=
  same_shape (doc w) (doc w')
  ∧ questionIndex w' = questionIndex w
  ∧ tableRowIndex w' = tableRowIndex w
  ∧ questionList w' = questionList w
  ∧ digitBuffer w' = digitBuffer w
  ∧ digitTimer w' = digitTimer w
  ∧ pendingSelect w' = pendingSelect w
  ∧ respondentId w' = respondentId w
  ∧ config w' = config w
  ∧ showAll w' = showAll w
  ∧ manualOverrides w' = manualOverrides w.

(** What digit entry may change besides the buffer: classes, answers,
    caches and the focus, never the cursor, the question list, the
    identifier field, the configuration or the evaluator's modes. *)
Definition digit_frame (w w' : World) : Prop :=
  same_shape (doc w) (doc w')
  ∧ questionIndex w' = questionIndex w
  ∧ tableRowIndex w' = tableRowIndex w
  ∧ questionList w' = questionList w
  ∧ respondentId w' = respondentId w
  ∧ config w' = config w
  ∧ showAll w' = showAll w
  ∧ manualOverrides w' = manualOverrides w.

Module WideSample.
Import Sample.

(** A single-choice question with twelve options: the keys 1 and 12 both
    start with the digit 1. *)
Definition document : Document :=
  NestedSample.radio_question "W" [] [] 0
    ["1"; "2"; "3"; "4"; "5"; "6"; "7"; "8"; "9"; "10"; "11"; "12"].

Definition initial : World := world document [0%nat] no_config.

Definition on_question : World := (moveNext initial).1.

(** The digit 1 has been pressed and is waiting for a second digit. *)
Definition waiting : World := handleDigitInput "1" on_question.

End WideSample.

(** ** Clicks and the Tab key ([AnswerHandler.handleOptionClick],
    [InputRouter._handleOptionClick], [_handleTab]) *)

(** [label.querySelector('input')] *)
Definition first_input (container : nat) (d : Document) : option nat :=
  fst <$> querySelector (λ e, under container e && is_input e) d.

Definition handleOptionClick (label : nat) (isScale : bool) (w : World)
  : World :=
  match first_input label (doc w) with
  | None => w
  | Some input =>
      match doc w !! input with
      | None => w
      | Some e =>
          if bool_decide (el_type e = "checkbox") then
            let checked := negb (el_checked e) in
            let d1 := alter (set_checked checked) input (doc w) in
            let d2 := alter (class_toggle "selected" checked) label d1 in
            _handleCheckboxChange input (set_doc d2 w)
          else
            let parentSelector :=
              if isScale then contains "scale-options"
              else contains "options" in
            let optionSelector :=
              if isScale then contains "scale-option"
              else contains "option-label" in
            let parent := closest parentSelector (doc w) label in
            let wasChecked := el_checked e in
            let d1 :=
              match parent with
              | Some par =>
                  update_where (λ x, under par x && optionSelector x)
                    (class_remove "selected") (doc w)
              | None => doc w
              end in
            let d2 :=
              if wasChecked then uncheck input d1
              else alter (class_add "selected") label (check input d1) in
            _handleRadioChange input (set_doc d2 w)
      end
  end.

(** [document.activeElement.blur()]: the focus goes back to the body. *)
Definition blur (w : World) : World := set_activeElement None w.

(** [questionList.indexOf(question)], -1 when absent. *)
Definition indexOf (l : list nat) (question : nat) : Z :=
  match list_find (λ q, q = question) l with
  | Some (index, _) => Z.of_nat index
  | None => -1
  end.

Definition _handleOptionClick (label : nat) (isScale : bool) (w : World)
  : World :=
  let w0 := emit preventDefault w in
  if negb (hasValidId w0) then
    (focusId (emit (idRequired "先にIDを入力してください") w0)).1
  else
    let w1 := flushDigitBuffer w0 in
    let w2 := blur w1 in
    let w3 := handleOptionClick label isScale w2 in
    match closest is_question (doc w3) label with
    | Some question =>
        let clickedIndex := indexOf (questionList w3) question in
        if (questionIndex w3 <? clickedIndex)%Z
        then focusQuestion question (mkOptions None true true) w3
        else w3
    | None => w3
    end.

(** [Array.from(fields).indexOf(activeEl)]; the body is no field. *)
Definition field_index (fields : list nat) (activeEl : option nat) : Z :=
  match activeEl with
  | Some a => indexOf fields a
  | None => -1
  end.

(** The field that takes the focus when Tab or Shift+Tab is pressed
    inside a group of fields, if any. *)
Definition next_field (fields : list nat) (activeEl : option nat)
    (isShiftTab : bool) : option nat :=
  let idx := field_index fields activeEl in
  if (0 <=? idx)%Z then
    if isShiftTab && (0 <? idx)%Z then nth_Z fields (idx - 1)
    else if negb isShiftTab && (idx <? Z.of_nat (length fields) - 1)%Z
    then nth_Z fields (idx + 1)
    else None
  else None.

Definition _handleMultiFieldNav (activeEl : option nat) (question : nat)
    (isShiftTab : bool) (w : World) : World * bool :=
  let numberFields :=
    select (λ e, under question e && is_input e
                 && inside (contains "number-field") (doc w) e) (doc w) in
  let inNumbers :=
    if (1 <? Z.of_nat (length numberFields))%Z
    then next_field numberFields activeEl isShiftTab
    else None in
  match inNumbers with
  | Some field => (set_activeElement (Some field) w, true)
  | None =>
      match querySelector
              (λ e, under question e && contains "date-wareki-input" e)
              (doc w) with
      | Some (warekiContainer, _) =>
          let warekiFields :=
            select (λ e, under warekiContainer e && (is_select e || is_input e))
              (doc w) in
          match next_field warekiFields activeEl isShiftTab with
          | Some field => (set_activeElement (Some field) w, true)
          | None => (w, false)
          end
      | None => (w, false)
      end
  end.

Definition _syncFocusPosition (activeEl : option nat) (w : World) : World :=
  match activeEl ≫= closest is_question (doc w) with
  | None => w
  | Some question =>
      let index := indexOf (questionList w) question in
      if (0 <=? index)%Z && negb (index =? questionIndex w)%Z
      then (setQuestionIndex index (mkOptions None true false) w).1
      else w
  end.

Definition _handleTab (activeEl : option nat) (isShiftTab : bool) (w : World)
  : World :=
  let moved :=
    match getCurrentQuestion w with
    | Some question => _handleMultiFieldNav activeEl question isShiftTab w
    | None => (w, false)
    end in
  if moved.2 then moved.1
  else
    let w1 := flushDigitBuffer w in
    let w2 := _syncFocusPosition activeEl w1 in
    let w3 := blur w2 in
    if isShiftTab then (movePrev w3).1
    else if isAtIdSection w3 && negb (hasValidId w3)
    then emit (idRequired "IDを入力してください") w3
    else (moveNext w3).1.

Definition _handleEnterInInput (activeEl : option nat) (w : World) : World :=
  let moved :=
    match getCurrentQuestion w with
    | Some question => _handleMultiFieldNav activeEl question false w
    | None => (w, false)
    end in
  if moved.2 then moved.1 else (moveNext w).1.

(** The keyboard handler with its own Tab and Enter handling; the modal
    dialog and the action on Enter at the end stay collaborators. *)
Definition keydown (onModalKeydown : KeyEvent → World → option World)
    (onEnterAtEnd : World → World) : KeyEvent → World → World :=
  _handleKeydown onModalKeydown _handleTab _handleEnterInInput onEnterAtEnd.

(** ** Collecting and restoring answers ([SurveyApp]) *)

(** [input[name="n"]] *)
Definition named_input (name : string) (e : Element) : bool :=
  is_input e && bool_decide (el_name e = name).

(** [document.querySelector(`input[name="${name}"]:checked`)?.value || ''] *)
Definition _getRadioValue (name : string) (d : Document) : string :=
  match querySelector (checked_named name) d with
  | Some (_, e) => el_value e
  | None => ""
  end.

(** [_restoreRadio(name, value)]: the first input of that name holding
    the value is checked and its label marked. *)
Definition _restoreRadio (name value : string) (d : Document) : Document :=
  match querySelector
          (λ e, named_input name e && bool_decide (el_value e = value)) d with
  | Some (radio, _) =>
      let d1 := check radio d in
      let label :=
        match closest (contains "option-label") d1 radio with
        | Some l => Some l
        | None => closest (contains "scale-option") d1 radio
        end in
      alter_opt (class_add "selected") label d1
  | None => d
  end.

(** ** Projections of a written state *)

Ltac world_simpl :=
  cbn [doc activeElement questionIndex tableRowIndex digitBuffer digitTimer
       questionList respondentId config visibilityCache manualOverrides
       toggleButtons showAll optionCache pendingSelect events
       set_doc set_activeElement set_questionIndex set_tableRowIndex
       set_digitBuffer set_digitTimer set_visibilityCache
       set_manualOverrides set_toggleButtons set_showAll set_optionCache
       set_pendingSelect emit] in *.

(** ** Digit entry *)

Section DigitEntry.

Lemma digit_not_ws c d : JS.digit_of c = Some d → JS.is_ws c = false.
Proof.
  destruct c as [[] [] [] [] [] [] [] []]; vm_compute; congruence.
Qed.

Lemma digit_range c d : JS.digit_of c = Some d → (0 ≤ d ≤ 9)%Z.
Proof.
  destruct c as [[] [] [] [] [] [] [] []]; vm_compute;
    intros [= <-]; split; discriminate.
Qed.

Lemma skip_ws_digit c d r :
  JS.digit_of c = Some d → JS.skip_ws (String c r) = String c r.
Proof.
  intros H.
  destruct c as [[] [] [] [] [] [] [] []];
    try (vm_compute in H; discriminate H);
    destruct r as [| c2 [| c3 r3]]; reflexivity.
Qed.

Lemma parseInt_starts_with_digit c d r :
  JS.digit_of c = Some d →
  JS.parseInt (String c r) = JS.digits_prefix (String c r) None.
Proof.
  intros H. unfold JS.parseInt. rewrite (skip_ws_digit _ _ _ H).
  destruct c as [[] [] [] [] [] [] [] []]; try reflexivity;
    vm_compute in H; discriminate.
Qed.

Lemma parseInt_single s d : single_digit s d → JS.parseInt s = Some d.
Proof.
  intros (c & -> & H). rewrite (parseInt_starts_with_digit _ _ _ H).
  cbn [JS.digits_prefix]. rewrite H. cbn [JS.digits_prefix default].
  f_equal; try lia.
Qed.

Lemma parseInt_two_digits s1 b s2 d :
  single_digit s1 b → single_digit s2 d →
  JS.parseInt (s1 ++ s2) = Some (10 * b + d)%Z.
Proof.
  intros (c1 & -> & H1) (c2 & -> & H2).
  change (JS.parseInt (String c1 (String c2 "")) = Some (10 * b + d)%Z).
  rewrite (parseInt_starts_with_digit _ _ _ H1).
  cbn [JS.digits_prefix]. rewrite H1. cbn [JS.digits_prefix]. rewrite H2.
  cbn [JS.digits_prefix default]. f_equal; try lia.
Qed.

Lemma single_digit_nonempty s d : single_digit s d → s ≠ "".
Proof. intros (c & -> & _). discriminate. Qed.

End DigitEntry.

(** C2. A digit press [d] on a question with [maxValue] options, with
    [maxFirstDigit = floor(maxValue / 10)]: when a digit [b] is buffered,
    the buffer and its timer are cleared and [10 * b + d] is committed at
    once; otherwise, when [1 <= d <= maxFirstDigit], [d] is buffered,
    nothing is committed, and a 500 ms timer is armed whose expiry
    empties the buffer, disarms itself and commits [d]; otherwise [d] is
    committed at once and the buffer stays empty. *)
Theorem two_digit_input_cases (w : World) (digit : string) (d maxValue : Z)
    (cb : OnSelect) :
  single_digit digit d →
  let maxFirstDigit := (maxValue / 10)%Z in
  let w' := _handleTwoDigitInput digit (Some maxValue) cb w in
  (∀ b, single_digit (digitBuffer w) b →
     w' = onSelect cb (10 * b + d)
            (set_pendingSelect None
               (emit (digitBufferChange "")
                  (set_digitBuffer "" (set_digitTimer None w)))))
  ∧ (digitBuffer w = "" → (1 ≤ d ≤ maxFirstDigit)%Z →
     digitBuffer w' = digit
     ∧ digitTimer w' = Some (mkTimer cb 500)
     ∧ pendingSelect w' = Some cb
     ∧ doc w' = doc w
     ∧ ∃ w'', digitBuffer w'' = "" ∧ digitTimer w'' = None
             ∧ pendingSelect w'' = None ∧ doc w'' = doc w
             ∧ timer_expires w' = onSelect cb d w'')
  ∧ (digitBuffer w = "" → (d = 0 ∨ maxFirstDigit < d)%Z →
     w' = onSelect cb d (set_pendingSelect None w)
     ∧ digitBuffer (set_pendingSelect None w) = "").
Proof.
  intros Hd maxFirstDigit w'. subst w' maxFirstDigit.
  unfold _handleTwoDigitInput. rewrite (parseInt_single _ _ Hd).
  cbn [fmap option_fmap option_map].
  split; [|split].
  - intros b Hb.
    rewrite bool_decide_eq_false_2 by (eapply single_digit_nonempty; eauto).
    cbn [negb appendDigitBuffer].
    rewrite (parseInt_two_digits _ _ _ _ Hb Hd). reflexivity.
  - intros Hbuf Hrange. rewrite Hbuf. cbn [bool_decide negb].
    rewrite bool_decide_eq_true_2 by reflexivity. cbn [negb].
    replace ((1 <=? d)%Z && (d <=? maxValue / 10)%Z) with true
      by (symmetry; apply andb_true_iff; split; apply Z.leb_le; lia).
    split; [reflexivity|]. split; [reflexivity|]. split; [reflexivity|].
    split; [reflexivity|].
    eexists. split; [|split; [|split; [|split]]]; cycle 4.
    + unfold timer_expires.
      unfold setDigitTimer, setDigitBuffer, clearDigitTimer. world_simpl.
      cbn [timer_onSelect]. rewrite (parseInt_single _ _ Hd).
      cbn [onSelect_parsed]. reflexivity.
    + reflexivity.
    + reflexivity.
    + reflexivity.
    + reflexivity.
  - intros Hbuf Hrange. rewrite Hbuf.
    rewrite bool_decide_eq_true_2 by reflexivity. cbn [negb].
    replace ((1 <=? d)%Z && (d <=? maxValue / 10)%Z) with false.
    + split; [reflexivity | exact Hbuf].
    + symmetry. apply andb_false_iff.
      destruct Hrange; [left; apply Z.leb_gt | right; apply Z.leb_gt]; lia.
Qed.

Lemma two_digit_input_cases_witness :
  single_digit "1" 1
  ∧ digitBuffer
      (_handleTwoDigitInput "1" (Some 14%Z) (SelectScale 0)
         ScaleSample.initial) = "1".
Proof.
  assert (H : single_digit "1" 1) by (exists "1"%char; split; reflexivity).
  split; [exact H |].
  apply (two_digit_input_cases ScaleSample.initial "1" 1 14 (SelectScale 0) H);
    [reflexivity | vm_compute; split; discriminate].
Defined.

(** ** Committing a number outside the valid range *)

(** C10 as stated fails on a scale question: its options are numbered
    from 0, so committing 0 (which is below 1) checks the option 0. *)
Lemma commit_zero_on_scale_selects :
  (0 < 1)%Z
  ∧ matches_at el_checked (doc ScaleSample.initial) 2 = false
  ∧ matches_at el_checked
      (doc (onSelect (SelectScale 0) 0 ScaleSample.initial)) 2 = true.
Proof. split; [lia | split; vm_compute; reflexivity]. Qed.

(** C10 (amended). Committing [n] is a no-op on the whole state (every
    checked flag, every value, the digit buffer) when [n < 1] or [n]
    exceeds the number of options of a normal question or of the current
    row of a table question; on a scale question, whose options are
    numbered from 0, when [n < 0] or [n] exceeds [scaleMax]. *)
Theorem out_of_range_commit_is_noop (w : World) (cb : OnSelect) (n : Z) :
  match cb with
  | SelectOption _ inputs => (n < 1 ∨ Z.of_nat (length inputs) < n)%Z
  | SelectTableRow _ _ radios => (n < 1 ∨ Z.of_nat (length radios) < n)%Z
  | SelectScale question =>
      (n < 0)%Z ∨ ∃ m, scaleMax_of question (doc w) = Some m ∧ (m < n)%Z
  end →
  onSelect cb n w = w.
Proof.
  destruct cb as [question inputs | question | question rowName radios];
    cbn [onSelect].
  - intros H. unfold _selectOptionCached.
    replace ((n <? 1)%Z || (Z.of_nat (length inputs) <? n)%Z) with true;
      [reflexivity |].
    symmetry. apply orb_true_iff.
    destruct H; [left | right]; apply Z.ltb_lt; lia.
  - intros H. unfold _selectScaleValue.
    destruct H as [H | (m & -> & H)].
    + replace (n <? 0)%Z with true by (symmetry; apply Z.ltb_lt; lia).
      reflexivity.
    + replace (m <? n)%Z with true by (symmetry; apply Z.ltb_lt; lia).
      rewrite orb_true_r. reflexivity.
  - intros H.
    replace ((1 <=? n)%Z && (n <=? Z.of_nat (length radios))%Z) with false;
      [reflexivity |].
    symmetry. apply andb_false_iff.
    destruct H; [left | right]; apply Z.leb_gt; lia.
Qed.

Lemma out_of_range_commit_is_noop_witness :
  (15 < 1 ∨ Z.of_nat (length [2%nat; 4%nat; 6%nat]) < 15)%Z
  ∧ onSelect (SelectOption 0 [2%nat; 4%nat; 6%nat]) 15 ScaleSample.initial
    = ScaleSample.initial.
Proof.
  assert (H : (15 < 1 ∨ Z.of_nat (length [2%nat; 4%nat; 6%nat]) < 15)%Z)
    by (right; vm_compute; reflexivity).
  split; [exact H |].
  exact (out_of_range_commit_is_noop ScaleSample.initial
           (SelectOption 0 [2%nat; 4%nat; 6%nat]) 15 H).
Defined.

(** ** Digit keys without an identifier *)

Lemma digit_key_not_named k :
  is_digit_key k = true → k ≠ "Tab" ∧ k ≠ "Enter" ∧ k ≠ "+" ∧ k ≠ "-".
Proof.
  destruct k as [| c [| c' r]]; cbn [is_digit_key]; try discriminate.
  intros H. apply bool_decide_eq_true in H. destruct H as [d H].
  repeat split; intros [= ->]; vm_compute in H; discriminate.
Qed.

(** C7 as stated fails at the id-entry sentinel: the digit is dropped
    without any message and without any change of focus. *)
Lemma digit_at_id_entry_is_silent :
  is_digit_key "5" = true
  ∧ questionIndex RouterSample.at_id_entry = (-1)%Z
  ∧ hasValidId RouterSample.at_id_entry = false
  ∧ RouterSample.keydown (mkKeyEvent "5" false) RouterSample.at_id_entry
    = RouterSample.at_id_entry
  ∧ events RouterSample.at_id_entry = [].
Proof. repeat split. Qed.

(** C7 (amended). A digit key that reaches the router (no modal open,
    focus outside text fields, selects and text areas): while a question
    is focused and the identifier field is blank after trimming, the
    press is rejected: no answer is recorded (every element keeps its
    checked state, value and selected index), the digit buffer is left
    alone, the message is passed to [onIdRequired] and the cursor is
    moved to identifier entry by a [questionChange] that asks for the
    focus; while no question is focused the press is ignored
    altogether. *)
Theorem digit_without_id_rejected
    (onModalKeydown : KeyEvent → World → option World)
    (_handleTab : option nat → bool → World → World)
    (_handleEnterInInput : option nat → World → World)
    (onEnterAtEnd : World → World) (e : KeyEvent) (w : World) :
  is_digit_key (key e) = true →
  onModalKeydown e w = None →
  match activeElement w with
  | Some i =>
      matches_at (λ x, is_type "text" x || is_type "number" x) (doc w) i
        = false
      ∧ matches_at is_select (doc w) i = false
      ∧ matches_at is_textarea (doc w) i = false
  | None => True
  end →
  let w' := _handleKeydown onModalKeydown _handleTab _handleEnterInInput
              onEnterAtEnd e w in
  ((0 ≤ questionIndex w)%Z → hasValidId w = false →
     same_inputs (doc w) (doc w')
     ∧ digitBuffer w' = digitBuffer w
     ∧ questionIndex w' = (-1)%Z
     ∧ tableRowIndex w' = 0%Z
     ∧ events w' = questionChange (questionIndex w) (-1) 0 false false
                     :: idRequired "先にIDを入力してください"
                     :: preventDefault :: events w)
  ∧ ((questionIndex w < 0)%Z → w' = w).
Proof.
  intros Hkey Hmodal Hactive w'. subst w'. unfold _handleKeydown.
  rewrite Hmodal.
  destruct (digit_key_not_named _ Hkey) as (HTab & HEnter & Hplus & Hminus).
  rewrite !bool_decide_eq_false_2 by assumption.
  replace (match activeElement w with
           | Some i =>
               matches_at (λ x, is_type "text" x || is_type "number" x)
                 (doc w) i
           | None => false
           end) with false
    by (destruct (activeElement w);
        [symmetry; apply Hactive | reflexivity]).
  replace (match activeElement w with
           | Some i => matches_at is_select (doc w) i
           | None => false
           end) with false
    by (destruct (activeElement w);
        [symmetry; apply Hactive | reflexivity]).
  replace (match activeElement w with
           | Some i => matches_at is_textarea (doc w) i
           | None => false
           end) with false
    by (destruct (activeElement w);
        [symmetry; apply Hactive | reflexivity]).
  rewrite Hkey. cbn [orb andb].
  split.
  - intros Hq Hid. replace (0 <=? questionIndex w)%Z with true
      by (symmetry; apply Z.leb_le; lia).
    rewrite Hid. cbn [negb]. unfold focusId, setQuestionIndex. world_simpl.
    replace ((-1 <? -1)%Z || (Z.of_nat (length (questionList w)) <=? -1)%Z)
      with false by (symmetry; apply orb_false_iff; split;
                     [reflexivity | apply Z.leb_gt; lia]).
    unfold getCurrentQuestion. world_simpl. unfold nth_Z.
    cbn [Z.ltb Z.compare is_table]. world_simpl. cbn [fst].
    split; [intros i; auto | repeat split].
  - intros Hq. replace (0 <=? questionIndex w)%Z with false
      by (symmetry; apply Z.leb_gt; lia).
    reflexivity.
Qed.

Lemma digit_without_id_rejected_witness :
  hasValidId RouterSample.blank_id = false
  ∧ questionIndex
      (RouterSample.keydown (mkKeyEvent "5" false) RouterSample.blank_id)
    = (-1)%Z.
Proof.
  split; [reflexivity |].
  destruct (digit_without_id_rejected RouterSample.no_modal
              RouterSample.no_tab RouterSample.no_enter
              RouterSample.no_enter_at_end (mkKeyEvent "5" false)
              RouterSample.blank_id eq_refl eq_refl I) as [Hreject _].
  destruct Hreject as (_ & _ & Hindex & _);
    [vm_compute; discriminate | reflexivity | exact Hindex].
Defined.

(** ** The document under writes *)

Section Shape.

Lemma shape_set_checked b e : shape (set_checked b e) = shape e.
Proof. reflexivity. Qed.

Lemma shape_set_value v e : shape (set_value v e) = shape e.
Proof. reflexivity. Qed.

Lemma shape_set_selectedIndex k e : shape (set_selectedIndex k e) = shape e.
Proof. reflexivity. Qed.

Lemma filter_static_remove c (l : list string) :
  filter (λ x, ¬ dynamic_class x) (filter (λ x, x ≠ c) l)
  = filter (λ x, ¬ dynamic_class x) l ∨ ¬ dynamic_class c.
Proof.
  destruct (decide (dynamic_class c)) as [Hc | Hc]; [left | right; exact Hc].
  induction l as [| x l IH]; [reflexivity |].
  rewrite !filter_cons. destruct (decide (x ≠ c)) as [Hx | Hx].
  - rewrite filter_cons. destruct (decide (¬ dynamic_class x)); congruence.
  - apply dec_stable in Hx. subst x.
    destruct (decide (¬ dynamic_class c)); [contradiction | exact IH].
Qed.

Lemma shape_class_remove c e :
  dynamic_class c → shape (class_remove c e) = shape e.
Proof.
  intros Hc. unfold shape, class_remove. cbn.
  destruct (filter_static_remove c (classList e)) as [-> | H];
    [reflexivity | contradiction].
Qed.

Lemma shape_class_add c e :
  dynamic_class c → shape (class_add c e) = shape e.
Proof.
  intros Hc. unfold class_add. destruct (contains c e); [reflexivity |].
  unfold shape. cbn. rewrite filter_app, filter_cons, filter_nil.
  destruct (decide (¬ dynamic_class c)); [contradiction |].
  rewrite app_nil_r. reflexivity.
Qed.

Lemma shape_class_toggle c b e :
  dynamic_class c → shape (class_toggle c b e) = shape e.
Proof.
  intros Hc. destruct b; [apply shape_class_add | apply shape_class_remove];
    exact Hc.
Qed.

Lemma dynamic_show : dynamic_class "show".
Proof. unfold dynamic_class. set_solver. Qed.

Lemma dynamic_selected : dynamic_class "selected".
Proof. unfold dynamic_class. set_solver. Qed.

Lemma dynamic_disabled : dynamic_class "disabled".
Proof. unfold dynamic_class. set_solver. Qed.

Lemma same_shape_refl d : same_shape d d.
Proof. reflexivity. Qed.

Lemma same_shape_trans d1 d2 d3 :
  same_shape d1 d2 → same_shape d2 d3 → same_shape d1 d3.
Proof. unfold same_shape. congruence. Qed.

Lemma same_shape_update_where sel f d :
  (∀ e, shape (f e) = shape e) → same_shape d (update_where sel f d).
Proof.
  intros Hf. unfold same_shape, update_where. rewrite <- list_fmap_compose.
  apply list_fmap_ext. intros i e _. cbn. destruct (sel e); auto.
Qed.

Lemma same_shape_imap (g : nat → Element → Element) d :
  (∀ i e, shape (g i e) = shape e) → same_shape d (imap g d).
Proof.
  intros Hg. unfold same_shape. apply list_eq. intros i.
  rewrite !list_lookup_fmap, list_lookup_imap.
  destruct (d !! i); [| reflexivity].
  cbn [fmap option_fmap option_map]. rewrite Hg. reflexivity.
Qed.

Lemma same_shape_update_at l f d :
  (∀ e, shape (f e) = shape e) → same_shape d (update_at l f d).
Proof.
  intros Hf. apply same_shape_imap. intros i e.
  destruct (bool_decide (i ∈ l)); auto.
Qed.

Lemma same_shape_alter f i d :
  (∀ e, shape (f e) = shape e) → same_shape d (alter f i d).
Proof.
  intros Hf. unfold same_shape. apply list_eq. intros j.
  rewrite !list_lookup_fmap.
  destruct (decide (i = j)) as [-> | Hne].
  - rewrite list_lookup_alter_eq. destruct (d !! j); [| reflexivity].
    cbn [fmap option_fmap option_map]. rewrite Hf. reflexivity.
  - rewrite list_lookup_alter_ne by exact Hne. reflexivity.
Qed.

Lemma same_shape_alter_opt f o d :
  (∀ e, shape (f e) = shape e) → same_shape d (alter_opt f o d).
Proof.
  intros Hf. destruct o; [apply same_shape_alter; exact Hf | reflexivity].
Qed.

Lemma same_shape_check i d : same_shape d (check i d).
Proof.
  unfold check. destruct (d !! i) as [e |]; [| reflexivity].
  apply same_shape_imap. intros j x.
  destruct (bool_decide (j = i)); [reflexivity |].
  destruct (same_group e x); reflexivity.
Qed.

Lemma same_shape_uncheck i d : same_shape d (uncheck i d).
Proof. apply same_shape_alter. reflexivity. Qed.

Lemma same_shape_length d d' : same_shape d d' → length d' = length d.
Proof.
  intros H. apply (f_equal length) in H. rewrite !length_fmap in H. exact H.
Qed.

Lemma same_shape_lookup d d' i e :
  same_shape d d' → d !! i = Some e →
  ∃ e', d' !! i = Some e' ∧ shape e' = shape e.
Proof.
  intros H Hi. apply (f_equal (λ l, l !! i)) in H.
  rewrite !list_lookup_fmap, Hi in H.
  destruct (d' !! i) as [e' |]; [| discriminate].
  exists e'. split; [reflexivity |].
  cbn [fmap option_fmap option_map] in H. congruence.
Qed.

Lemma same_shape_sym d d' : same_shape d d' → same_shape d' d.
Proof. unfold same_shape. congruence. Qed.

Lemma same_shape_clearInputs c d : same_shape d (_clearInputs c d).
Proof.
  unfold _clearInputs.
  repeat (eapply same_shape_trans;
          [| first [ apply same_shape_update_where
                   | apply same_shape_update_at ];
             intros; first [ reflexivity
                           | apply shape_class_remove;
                             first [ exact dynamic_show
                                   | exact dynamic_selected ] ] ]).
  apply same_shape_refl.
Qed.

(** Static selectors give the same answers on documents of the same
    shape. *)
Lemma matches_at_shape sel d i :
  static_selector sel → matches_at sel (shape <$> d) i = matches_at sel d i.
Proof.
  intros Hs. unfold matches_at. rewrite list_lookup_fmap.
  destruct (d !! i); cbn; [apply Hs | reflexivity].
Qed.

Lemma matches_at_same_shape sel d d' i :
  static_selector sel → same_shape d d' →
  matches_at sel d' i = matches_at sel d i.
Proof.
  intros Hs H. rewrite <- (matches_at_shape sel d'), <- (matches_at_shape sel d)
    by exact Hs.
  unfold same_shape in H. rewrite H. reflexivity.
Qed.

Lemma querySelector_shape sel d :
  static_selector sel →
  fst <$> querySelector sel (shape <$> d) = fst <$> querySelector sel d.
Proof.
  intros Hs. unfold querySelector. rewrite list_find_fmap.
  rewrite <- option_fmap_compose.
  erewrite (list_find_ext ((λ e, sel e = true) ∘ shape) (λ e, sel e = true)).
  - destruct (list_find _ d) as [[i e] |]; reflexivity.
  - intros e. cbn. rewrite Hs. reflexivity.
Qed.

Lemma querySelector_same_shape sel d d' :
  static_selector sel → same_shape d d' →
  fst <$> querySelector sel d' = fst <$> querySelector sel d.
Proof.
  intros Hs H. rewrite <- (querySelector_shape sel d'),
    <- (querySelector_shape sel d) by exact Hs.
  unfold same_shape in H. rewrite H. reflexivity.
Qed.

Lemma getElementById_same_shape d d' id :
  same_shape d d' → getElementById d' id = getElementById d id.
Proof.
  intros H. unfold getElementById. destruct (bool_decide (id = "")); [done |].
  pose proof (querySelector_same_shape (λ e, bool_decide (el_id e = id)) d d')
    as Hq.
  unfold querySelector in Hq.
  erewrite (list_find_ext (λ e, el_id e = id)
              (λ e, bool_decide (el_id e = id) = true) d').
  - erewrite (list_find_ext (λ e, el_id e = id)
                (λ e, bool_decide (el_id e = id) = true) d).
    + apply Hq; [intros e; reflexivity | exact H].
    + intros e. symmetry. apply bool_decide_eq_true.
  - intros e. symmetry. apply bool_decide_eq_true.
Qed.

Lemma targetEl_same_shape cond d d' :
  same_shape d d' → targetEl cond d' = targetEl cond d.
Proof.
  intros H. unfold targetEl.
  destruct (isSection cond); apply getElementById_same_shape; exact H.
Qed.

Lemma contains_shape c e :
  ¬ dynamic_class c → contains c (shape e) = contains c e.
Proof.
  intros Hc. unfold contains. cbn. apply bool_decide_ext.
  rewrite list_elem_of_filter. tauto.
Qed.

Lemma static_contains c : ¬ dynamic_class c → static_selector (contains c).
Proof. intros Hc e. apply contains_shape. exact Hc. Qed.

Lemma not_dynamic c :
  c ≠ "show" → c ≠ "selected" → c ≠ "disabled" → ¬ dynamic_class c.
Proof.
  unfold dynamic_class. intros H1 H2 H3 H.
  repeat (apply elem_of_cons in H; destruct H as [H | H];
          [congruence |]).
  apply elem_of_nil in H. exact H.
Qed.

End Shape.

(** ** Navigation *)

Section Scanning.

Variable w : World.

Let len : Z := Z.of_nat (length (questionList w)).

Lemma scan_next_Some fuel i j :
  scan_next w fuel i = Some j →
  (i ≤ j < len)%Z ∧ visible_at w j = true
  ∧ ∀ k, (i ≤ k < j)%Z → visible_at w k = false.
Proof.
  revert i. induction fuel as [| fuel IH]; intros i; cbn [scan_next];
    [discriminate |].
  fold len. destruct (Z.ltb_spec i len) as [Hlt | Hge]; [| discriminate].
  destruct (isVisible (nth_Z (questionList w) i) (doc w)) eqn:Hvis.
  - intros [= <-]. repeat split; [lia | lia | exact Hvis | intros k Hk; lia].
  - intros H. destruct (IH _ H) as (Hr & Hv & Hmin).
    repeat split; [lia | lia | exact Hv |].
    intros k Hk. destruct (Z.eq_dec k i) as [-> | Hne]; [exact Hvis |].
    apply Hmin. lia.
Qed.

Lemma scan_next_None fuel i :
  (len - i ≤ Z.of_nat fuel)%Z →
  scan_next w fuel i = None →
  ∀ k, (i ≤ k < len)%Z → visible_at w k = false.
Proof.
  revert i. induction fuel as [| fuel IH]; intros i Hfuel; cbn [scan_next].
  - intros _ k Hk. lia.
  - fold len. destruct (Z.ltb_spec i len) as [Hlt | Hge];
      [| intros _ k Hk; lia].
    destruct (isVisible (nth_Z (questionList w) i) (doc w)) eqn:Hvis;
      [discriminate |].
    intros H k Hk. destruct (Z.eq_dec k i) as [-> | Hne]; [exact Hvis |].
    apply (IH (i + 1)%Z); [lia | exact H | lia].
Qed.

Lemma scan_prev_Some fuel i j :
  scan_prev w fuel i = Some j →
  (0 ≤ j ≤ i)%Z ∧ visible_at w j = true
  ∧ ∀ k, (j < k ≤ i)%Z → visible_at w k = false.
Proof.
  revert i. induction fuel as [| fuel IH]; intros i; cbn [scan_prev];
    [discriminate |].
  destruct (Z.leb_spec 0 i) as [Hle | Hgt]; [| discriminate].
  destruct (isVisible (nth_Z (questionList w) i) (doc w)) eqn:Hvis.
  - intros [= <-]. repeat split; [lia | lia | exact Hvis | intros k Hk; lia].
  - intros H. destruct (IH _ H) as (Hr & Hv & Hmin).
    repeat split; [lia | lia | exact Hv |].
    intros k Hk. destruct (Z.eq_dec k i) as [-> | Hne]; [exact Hvis |].
    apply Hmin. lia.
Qed.

Lemma scan_prev_None fuel i :
  (i + 1 ≤ Z.of_nat fuel)%Z →
  scan_prev w fuel i = None →
  ∀ k, (0 ≤ k ≤ i)%Z → visible_at w k = false.
Proof.
  revert i. induction fuel as [| fuel IH]; intros i Hfuel; cbn [scan_prev].
  - intros _ k Hk. lia.
  - destruct (Z.leb_spec 0 i) as [Hle | Hgt]; [| intros _ k Hk; lia].
    destruct (isVisible (nth_Z (questionList w) i) (doc w)) eqn:Hvis;
      [discriminate |].
    intros H k Hk. destruct (Z.eq_dec k i) as [-> | Hne]; [exact Hvis |].
    apply (IH (i - 1)%Z); [lia | exact H | lia].
Qed.

(** The forward scan always returns: with the fuel [moveNext] gives it,
    it finds the first position after the cursor that [isVisible]
    accepts, or reports that there is none. *)
Lemma scan_next_complete :
  let start := (questionIndex w + 1)%Z in
  match scan_next w (Z.to_nat (len - start)) start with
  | Some j =>
      (start ≤ j < len)%Z ∧ visible_at w j = true
      ∧ ∀ k, (start ≤ k < j)%Z → visible_at w k = false
  | None => ∀ k, (start ≤ k < len)%Z → visible_at w k = false
  end.
Proof.
  intros start.
  destruct (scan_next w (Z.to_nat (len - start)) start) as [j |] eqn:H.
  - eapply scan_next_Some; eauto.
  - eapply scan_next_None; [| exact H]. lia.
Qed.

Lemma scan_prev_complete :
  let start := (questionIndex w - 1)%Z in
  match scan_prev w (Z.to_nat (start + 1)) start with
  | Some j =>
      (0 ≤ j ≤ start)%Z ∧ visible_at w j = true
      ∧ ∀ k, (j < k ≤ start)%Z → visible_at w k = false
  | None => ∀ k, (0 ≤ k ≤ start)%Z → visible_at w k = false
  end.
Proof.
  intros start.
  destruct (scan_prev w (Z.to_nat (start + 1)) start) as [j |] eqn:H.
  - eapply scan_prev_Some; eauto.
  - eapply scan_prev_None; [| exact H]. lia.
Qed.

End Scanning.

Lemma maxRow_positive_config tc row :
  (0 ≤ row < maxRow_of tc)%Z → ∃ c, tc = Some c.
Proof.
  destruct tc as [c |]; [eauto |]. cbn. lia.
Qed.

(** Inside a table question [moveNext] only advances the row. *)
Lemma moveNext_advances_row (w : World) :
  is_table (getCurrentQuestion w) (doc w) = true →
  (0 ≤ tableRowIndex w < maxRow_of (getTableConfig w))%Z →
  moveNext w
  = (emit (tableRowChange (tableRowIndex w + 1) (getCurrentQuestion w))
       (set_tableRowIndex (tableRowIndex w + 1) w), true).
Proof.
  intros Htable Hrow. unfold moveNext. rewrite Htable.
  replace (tableRowIndex w <? maxRow_of (getTableConfig w))%Z with true
    by (symmetry; apply Z.ltb_lt; lia).
  unfold setTableRowIndex.
  destruct (maxRow_positive_config _ _ Hrow) as [c Hc]. rewrite Hc in *.
  replace ((tableRowIndex w + 1 <? 0)%Z
           || (maxRow_of (Some c) <? tableRowIndex w + 1)%Z) with false;
    [reflexivity |].
  symmetry. apply orb_false_iff. split; apply Z.ltb_ge; lia.
Qed.

(** Otherwise it lands on the first later position accepted by
    [isVisible], row 0, or emits [reachEnd] when there is none. *)
Lemma moveNext_scans_forward (w : World) :
  (-1 ≤ questionIndex w)%Z →
  is_table (getCurrentQuestion w) (doc w) = false
  ∨ (maxRow_of (getTableConfig w) ≤ tableRowIndex w)%Z →
  let len := Z.of_nat (length (questionList w)) in
  (∃ j, (questionIndex w < j < len)%Z ∧ visible_at w j = true
        ∧ (∀ k, (questionIndex w < k < j)%Z → visible_at w k = false)
        ∧ moveNext w
          = (emit (questionChange (questionIndex w) j 0 false false)
               (set_tableRowIndex 0 (set_questionIndex j w)), true))
  ∨ ((∀ k, (questionIndex w < k < len)%Z → visible_at w k = false)
     ∧ moveNext w = (emit reachEnd w, false)).
Proof.
  intros Hq Hrow len.
  assert (Hstep :
    (if is_table (getCurrentQuestion w) (doc w)
     then if (tableRowIndex w <? maxRow_of (getTableConfig w))%Z
          then Some (setTableRowIndex (tableRowIndex w + 1) w) else None
     else None) = None).
  { destruct Hrow as [-> | Hrow]; [reflexivity |].
    destruct (is_table _ _); [| reflexivity].
    replace (tableRowIndex w <? maxRow_of (getTableConfig w))%Z with false
      by (symmetry; apply Z.ltb_ge; lia).
    reflexivity. }
  unfold moveNext. rewrite Hstep.
  pose proof (scan_next_complete w) as Hscan. cbv zeta in Hscan.
  destruct (scan_next w _ _) as [j |].
  - left. exists j. destruct Hscan as (Hr & Hv & Hmin).
    split; [fold len; lia |]. split; [exact Hv |].
    split; [intros k Hk; apply Hmin; lia |].
    unfold setQuestionIndex.
    replace ((j <? -1)%Z || (Z.of_nat (length (questionList w)) <=? j)%Z)
      with false by (symmetry; apply orb_false_iff; split;
                     [apply Z.ltb_ge | apply Z.leb_gt]; lia).
    destruct (is_table (getCurrentQuestion (set_questionIndex j w)) _);
      reflexivity.
  - right. split; [| reflexivity].
    intros k Hk. apply Hscan. fold len. lia.
Qed.

(** Going back, [movePrev] lands on the nearest earlier position accepted
    by [isVisible]; on a table question the row is the last one. *)
Lemma movePrev_scans_backward (w : World) :
  is_table (getCurrentQuestion w) (doc w) = false
  ∨ (tableRowIndex w ≤ 0)%Z →
  (questionIndex w ≤ Z.of_nat (length (questionList w)))%Z →
  (∃ j q, (0 ≤ j < questionIndex w)%Z ∧ visible_at w j = true
        ∧ (∀ k, (j < k < questionIndex w)%Z → visible_at w k = false)
        ∧ nth_Z (questionList w) j = Some q
        ∧ let row := if is_table (Some q) (doc w)
                     then maxRow_of (tableConfig_of q w) else 0%Z in
          movePrev w
          = (emit (questionChange (questionIndex w) j row false false)
               (set_tableRowIndex row (set_questionIndex j w)), true))
  ∨ ((∀ k, (0 ≤ k < questionIndex w)%Z → visible_at w k = false)
     ∧ movePrev w
       = (emit (questionChange (questionIndex w) (-1) 0 false false)
            (set_tableRowIndex 0 (set_questionIndex (-1) w)), true)).
Proof.
  intros Hrow Hlen.
  assert (Hstep :
    (if is_table (getCurrentQuestion w) (doc w)
     then if (0 <? tableRowIndex w)%Z
          then Some (setTableRowIndex (tableRowIndex w - 1) w) else None
     else None) = None).
  { destruct Hrow as [-> | Hrow]; [reflexivity |].
    destruct (is_table _ _); [| reflexivity].
    replace (0 <? tableRowIndex w)%Z with false
      by (symmetry; apply Z.ltb_ge; lia).
    reflexivity. }
  unfold movePrev. rewrite Hstep.
  pose proof (scan_prev_complete w) as Hscan. cbv zeta in Hscan.
  destruct (scan_prev w _ _) as [j |].
  - left. destruct Hscan as (Hr & Hv & Hmin).
    assert (Hq : ∃ q, nth_Z (questionList w) j = Some q).
    { unfold visible_at in Hv.
      destruct (nth_Z (questionList w) j) as [q |]; [eauto | discriminate]. }
    destruct Hq as [q Hq]. exists j, q.
    split; [lia |]. split; [exact Hv |].
    split; [intros k Hk; apply Hmin; lia |]. split; [exact Hq |].
    rewrite Hq. cbn [mbind option_bind].
    unfold setQuestionIndex.
    replace ((j <? -1)%Z || (Z.of_nat (length (questionList w)) <=? j)%Z)
      with false by (symmetry; apply orb_false_iff; split;
                     [apply Z.ltb_ge | apply Z.leb_gt]; lia).
    unfold getCurrentQuestion. world_simpl. rewrite Hq.
    destruct (is_table (Some q) (doc w)) eqn:Ht; world_simpl;
      rewrite ?Ht; reflexivity.
  - right. split; [intros k Hk; apply Hscan; lia |].
    unfold setQuestionIndex.
    replace ((-1 <? -1)%Z || (Z.of_nat (length (questionList w)) <=? -1)%Z)
      with false by (symmetry; apply orb_false_iff; split;
                     [reflexivity | apply Z.leb_gt; lia]).
    reflexivity.
Qed.

(** C3, where the code departs from it.  The operator answers A14 = 2
    (section B opens), ticks option 2 of Q6_1 (Q6_1_1 opens), answers
    Q6_1_1 (the year field opens), then corrects A14 to 1.  The section
    is hidden and its inputs are cleared, but the blocks nested in it
    keep their [show] class; [isVisible] looks no further than the
    nearest conditional ancestor, so [moveNext] from A14 lands on the
    year field (position 3), which lies inside the hidden section, and
    not on C1 (position 4), the first question that is displayed. *)
Theorem moveNext_lands_inside_hidden_block :
  let w := TicketSample.after_correction in
  questionIndex w = 0%Z
  ∧ has_show (doc w) 8 = false
  ∧ questionIndex (moveNext w).1 = 3%Z
  ∧ nth_Z (questionList w) 3 = Some 25%nat
  ∧ (under 8 <$> doc w !! 25%nat) = Some true
  ∧ displayed (doc w) 25 = false
  ∧ nth_Z (questionList w) 4 = Some 27%nat
  ∧ displayed (doc w) 27 = true.
Proof. vm_compute. repeat split. Qed.

(** ** Clearing the inputs of a hidden block *)

Ltac el_simpl :=
  cbn [tagName el_id el_type el_name el_value el_checked el_selectedIndex
       classList data_name data_type data_scaleMax data_maxSelect el_parents
       set_checked set_value set_selectedIndex set_classList] in *.

Section ClearInputs.

Lemma elem_of_select sel (d : Document) i :
  i ∈ select sel d ↔ ∃ e, d !! i = Some e ∧ sel e = true.
Proof.
  unfold select. rewrite list_elem_of_omap. split.
  - intros ([j e] & Hin & Hsel). cbn in Hsel.
    apply list_elem_of_lookup in Hin. destruct Hin as [k Hk].
    rewrite list_lookup_imap in Hk.
    destruct (d !! k) as [x |] eqn:Hx; [| discriminate].
    cbn in Hk. injection Hk as <- <-.
    destruct (sel x) eqn:Hs; [| discriminate]. injection Hsel as <-.
    eauto.
  - intros (e & Hi & Hs). exists (i, e). split.
    + apply list_elem_of_lookup. exists i. rewrite list_lookup_imap, Hi.
      reflexivity.
    + cbn. rewrite Hs. reflexivity.
Qed.

Lemma clearInputs_lookup c (d : Document) i :
  _clearInputs c d !! i
  = clear_element c
      (bool_decide (i ∈ select (λ e, under c e && input_checked e) d))
      (bool_decide
         (i ∈ omap (closest is_label d)
                (select (λ e, under c e && input_checked e) d)))
    <$> d !! i.
Proof.
  unfold _clearInputs, update_where, update_at.
  rewrite !list_lookup_fmap, !list_lookup_imap.
  destruct (d !! i); reflexivity.
Qed.

Lemma contains_class_remove_ne c c' e :
  c ≠ c' → contains c (class_remove c' e) = contains c e.
Proof.
  intros Hne. unfold contains, class_remove. cbn. apply bool_decide_ext.
  rewrite list_elem_of_filter. tauto.
Qed.

Lemma contains_class_remove_eq c e : contains c (class_remove c e) = false.
Proof.
  unfold contains, class_remove. cbn. apply bool_decide_eq_false.
  rewrite list_elem_of_filter. tauto.
Qed.

Lemma contains_class_add_eq c e : contains c (class_add c e) = true.
Proof.
  unfold class_add. destruct (contains c e) eqn:H; [exact H |].
  unfold contains. cbn. apply bool_decide_eq_true, elem_of_app. right.
  apply list_elem_of_singleton. reflexivity.
Qed.

Lemma contains_class_toggle_eq c b e : contains c (class_toggle c b e) = b.
Proof.
  destruct b; [apply contains_class_add_eq | apply contains_class_remove_eq].
Qed.

Lemma when_keeps {A} (g : Element → A) sel f e :
  (∀ x, g (f x) = g x) → g (when sel f e) = g e.
Proof. intros H. unfold when. destruct (sel e); auto. Qed.

Lemma when_false sel f e : sel e = false → when sel f e = e.
Proof. intros H. unfold when. rewrite H. reflexivity. Qed.

Lemma clear_element_kind c a b e : kind (clear_element c a b e) = kind e.
Proof.
  unfold clear_element. rewrite !(when_keeps kind) by reflexivity.
  reflexivity.
Qed.

Lemma kind_selectors e e' :
  kind e' = kind e →
  (∀ c, under c e' = under c e) ∧ (∀ t, has_type t e' = has_type t e)
  ∧ is_input e' = is_input e ∧ is_textarea e' = is_textarea e
  ∧ is_select e' = is_select e.
Proof.
  unfold kind, under, has_type, is_input, is_textarea, is_select.
  intros [= -> -> ->]. auto.
Qed.

(** The [show] class of an element that is not an [other-input] block
    survives the clearing. *)
Lemma clear_element_show c a b e :
  contains "other-input" e = false →
  contains "show" (clear_element c a b e) = contains "show" e.
Proof.
  intros Ho. unfold clear_element.
  set (e5 := when (λ x, under c x && is_select x) _ _).
  assert (H5 : contains "other-input" e5 = false
               ∧ contains "show" e5 = contains "show" e).
  { subst e5.
    rewrite !(when_keeps (contains "other-input")),
            !(when_keeps (contains "show"));
      auto using contains_class_remove_ne. }
  destruct H5 as [Ho5 <-]. unfold when at 1. rewrite Ho5, andb_false_r.
  reflexivity.
Qed.

(** Elements outside the container keep their checked state, value and
    selected index. *)
Lemma clear_element_outside c b e :
  under c e = false →
  let e' := clear_element c false b e in
  el_checked e' = el_checked e ∧ el_value e' = el_value e
  ∧ el_selectedIndex e' = el_selectedIndex e.
Proof.
  intros Hu. unfold clear_element.
  set (e2 := when (λ _, b) _ _).
  assert (H2 : under c e2 = false ∧ el_checked e2 = el_checked e
               ∧ el_value e2 = el_value e
               ∧ el_selectedIndex e2 = el_selectedIndex e).
  { subst e2. unfold when. destruct b; auto. }
  destruct H2 as [Hu2 H2]. cbv zeta.
  repeat (rewrite (when_false _ _ e2) by (cbv beta; rewrite Hu2; reflexivity)).
  exact H2.
Qed.

(** Elements inside it end up cleared. *)
Lemma clear_element_inside c b e :
  under c e = true →
  cleared (clear_element c (under c e && input_checked e) b e).
Proof.
  intros Hu. rewrite Hu. cbn [andb]. unfold clear_element.
  set (e1 := when (λ _, input_checked e) (set_checked false) e).
  assert (K1 : kind e1 = kind e) by (apply when_keeps; reflexivity).
  assert (C1 : input_checked e1 = false).
  { subst e1. unfold when. destruct (input_checked e) eqn:H; [| exact H].
    unfold input_checked. cbn [el_checked set_checked]. apply andb_false_r. }
  set (e2 := when (λ _, b) (class_remove "selected") e1).
  assert (K2 : kind e2 = kind e) by
    (rewrite <- K1; apply when_keeps; reflexivity).
  assert (C2 : input_checked e2 = false).
  { rewrite <- C1. subst e2. unfold when. destruct b; reflexivity. }
  set (e3 := when _ (set_value "") e2).
  assert (K3 : kind e3 = kind e) by
    (rewrite <- K2; apply when_keeps; reflexivity).
  assert (C3 : input_checked e3 = false).
  { rewrite <- C2. subst e3. unfold when. destruct (_ && _); reflexivity. }
  assert (V3 : has_type "text" e || has_type "number" e = true →
               el_value e3 = "").
  { intros H. subst e3. unfold when.
    destruct (kind_selectors _ _ K2) as (Hun & Hty & _).
    rewrite Hun, !Hty, Hu, H. reflexivity. }
  set (e4 := when _ (set_value "") e3).
  assert (K4 : kind e4 = kind e) by
    (rewrite <- K3; apply when_keeps; reflexivity).
  assert (C4 : input_checked e4 = false).
  { rewrite <- C3. subst e4. unfold when. destruct (_ && _); reflexivity. }
  assert (V4 : has_type "text" e || has_type "number" e = true
               ∨ is_textarea e = true → el_value e4 = "").
  { intros H. subst e4. unfold when.
    destruct (kind_selectors _ _ K3) as (Hun & _ & _ & Hta & _).
    rewrite Hun, Hta, Hu.
    cbn [andb]. destruct (is_textarea e); [reflexivity |].
    destruct H as [H | H]; [auto | discriminate]. }
  set (e5 := when _ (set_selectedIndex 0) e4).
  assert (K5 : kind e5 = kind e) by
    (rewrite <- K4; apply when_keeps; reflexivity).
  assert (C5 : input_checked e5 = false).
  { rewrite <- C4. subst e5. unfold when. destruct (_ && _); reflexivity. }
  assert (V5 : el_value e5 = el_value e4) by (apply when_keeps; reflexivity).
  assert (S5 : is_select e = true → el_selectedIndex e5 = 0%Z).
  { intros H. subst e5. unfold when.
    destruct (kind_selectors _ _ K4) as (Hun & _ & _ & _ & Hse).
    rewrite Hun, Hse, Hu, H. reflexivity. }
  set (e6 := when _ (class_remove "show") e5).
  assert (K6 : kind e6 = kind e) by
    (rewrite <- K5; apply when_keeps; reflexivity).
  assert (C6 : input_checked e6 = false).
  { rewrite <- C5. subst e6. unfold when. destruct (_ && _); reflexivity. }
  assert (V6 : el_value e6 = el_value e4).
  { rewrite <- V5. apply when_keeps. reflexivity. }
  assert (S6 : el_selectedIndex e6 = el_selectedIndex e5) by
    (apply when_keeps; reflexivity).
  destruct (kind_selectors _ _ K6) as (_ & Ht & _ & Ha & Hs).
  unfold cleared. rewrite !Ht, Ha, Hs, V6, S6.
  split; [exact C6 |]. split; [intros H; apply V4; left; exact H |].
  split; [intros H; apply V4; right; exact H | exact S5].
Qed.

Lemma checked_in_select c (d : Document) i e :
  d !! i = Some e →
  bool_decide (i ∈ select (λ e, under c e && input_checked e) d)
  = under c e && input_checked e.
Proof.
  intros Hi. destruct (under c e && input_checked e) eqn:Hs.
  - apply bool_decide_eq_true, elem_of_select. eauto.
  - apply bool_decide_eq_false. rewrite elem_of_select.
    intros (e' & He' & Hs'). congruence.
Qed.

End ClearInputs.

(** ** Evaluation of the condition table *)

Section Evaluate.

Lemma evolves_refl w : evolves w w.
Proof.
  exists (doc w), (visibilityCache w), (toggleButtons w), (events w).
  split; [destruct w; reflexivity | apply same_shape_refl].
Qed.

Lemma evolves_trans w1 w2 w3 : evolves w1 w2 → evolves w2 w3 → evolves w1 w3.
Proof.
  intros (d & vc & tb & ev & -> & H) (d' & vc' & tb' & ev' & -> & H').
  exists d', vc', tb', ev'. split; [reflexivity |].
  eapply same_shape_trans; eauto.
Qed.

Lemma updateToggleIcon_evolves t o m w : evolves w (_updateToggleIcon t o m w).
Proof.
  unfold _updateToggleIcon. destruct (toggleButtons w !! t) as [icon |];
    [| apply evolves_refl].
  eexists (doc w), (visibilityCache w), _, (events w).
  split; [destruct w; reflexivity | apply same_shape_refl].
Qed.

Lemma updateToggleIcon_doc t o m w : doc (_updateToggleIcon t o m w) = doc w.
Proof.
  unfold _updateToggleIcon. destruct (toggleButtons w !! t); reflexivity.
Qed.

Lemma updateToggleIcon_cache t o m w :
  visibilityCache (_updateToggleIcon t o m w) = visibilityCache w.
Proof.
  unfold _updateToggleIcon. destruct (toggleButtons w !! t); reflexivity.
Qed.

Lemma evaluate_entry_evolves b c w : evolves w (evaluate_entry b c w).
Proof.
  unfold evaluate_entry.
  destruct (showAll w || overridden w (targetId c)); [apply evolves_refl |].
  destruct (bool_decide _); [apply evolves_refl |].
  destruct (targetEl c (doc w)) as [el |]; [| apply evolves_refl].
  match goal with
  | |- evolves w (if b then ?w3 else _) =>
      assert (H3 : evolves w w3)
  end.
  { eapply evolves_trans; [| apply updateToggleIcon_evolves].
    eexists _, _, (toggleButtons w), _. split; [reflexivity |].
    world_simpl. apply same_shape_alter. intros e.
    apply shape_class_toggle, dynamic_show. }
  destruct b; [exact H3 |].
  eapply evolves_trans; [exact H3 |].
  eexists _, _, _, _. split; [reflexivity |]. world_simpl.
  apply same_shape_clearInputs.
Qed.

Lemma eval_all_cons f c conds w :
  eval_all f (c :: conds) w = eval_all f conds (evaluate_entry (f c) c w).
Proof. reflexivity. Qed.

Lemma eval_all_evolves f conds w : evolves w (eval_all f conds w).
Proof.
  revert w. induction conds as [| c conds IH]; intros w;
    [apply evolves_refl |].
  rewrite eval_all_cons.
  eapply evolves_trans; [apply evaluate_entry_evolves | apply IH].
Qed.

Lemma evaluate_evolves p ft w : evolves w (evaluate p ft w).
Proof.
  unfold evaluate. destruct (JS.get _ _); [| apply evolves_refl].
  destruct (bool_decide _); apply eval_all_evolves.
Qed.

(** What an evolution keeps. *)
Lemma evolves_keeps w w' :
  evolves w w' →
  same_shape (doc w) (doc w')
  ∧ showAll w' = showAll w ∧ manualOverrides w' = manualOverrides w
  ∧ config w' = config w ∧ questionIndex w' = questionIndex w
  ∧ tableRowIndex w' = tableRowIndex w ∧ questionList w' = questionList w
  ∧ digitBuffer w' = digitBuffer w ∧ digitTimer w' = digitTimer w.
Proof. intros (d & vc & tb & ev & -> & H). repeat split. exact H. Qed.

Lemma getElementById_Some d id el :
  getElementById d id = Some el → is_Some (d !! el).
Proof.
  unfold getElementById. destruct (bool_decide _); [discriminate |].
  destruct (list_find _ d) as [[i e] |] eqn:H; [| discriminate].
  intros [= <-]. apply list_find_Some in H. destruct H as (H & _). eauto.
Qed.

Lemma targetEl_Some c d el : targetEl c d = Some el → is_Some (d !! el).
Proof.
  unfold targetEl. destruct (isSection c); apply getElementById_Some.
Qed.

Lemma has_show_alter_toggle (d : Document) el b :
  is_Some (d !! el) →
  has_show (alter (class_toggle "show" b) el d) el = b.
Proof.
  intros [e He]. unfold has_show, matches_at.
  rewrite list_lookup_alter_eq, He. cbn.
  apply contains_class_toggle_eq.
Qed.

Lemma has_show_alter_ne f (d : Document) i el :
  i ≠ el → has_show (alter f i d) el = has_show d el.
Proof.
  intros Hne. unfold has_show, matches_at.
  rewrite list_lookup_alter_ne by exact Hne. reflexivity.
Qed.

Lemma has_show_clearInputs c (d : Document) el :
  matches_at (contains "other-input") d el = false →
  has_show (_clearInputs c d) el = has_show d el.
Proof.
  unfold has_show, matches_at. rewrite clearInputs_lookup.
  destruct (d !! el) as [e |]; [| reflexivity]. cbn.
  apply clear_element_show.
Qed.

Lemma other_input_same_shape d d' el :
  same_shape d d' →
  matches_at (contains "other-input") d' el
  = matches_at (contains "other-input") d el.
Proof.
  apply matches_at_same_shape, static_contains, not_dynamic; discriminate.
Qed.

Lemma settled_skips b c w : settled b c w → evaluate_entry b c w = w.
Proof.
  unfold settled, evaluate_entry. intros [-> | [H | H]]; [reflexivity | |].
  - destruct (_ || _); [reflexivity |].
    rewrite bool_decide_eq_true_2 by exact H. reflexivity.
  - destruct (_ || _); [reflexivity |]. destruct (bool_decide _);
      [reflexivity |]. rewrite H. reflexivity.
Qed.

(** Either the loop body does nothing, or it writes the cache entry and
    the class of the target, and clears the block when hiding it. *)
Lemma evaluate_entry_cases b c w :
  settled b c w
  ∨ ∃ el, showAll w = false ∧ overridden w (targetId c) = false
          ∧ visibilityCache w !! targetId c ≠ Some b
          ∧ targetEl c (doc w) = Some el
          ∧ visibilityCache (evaluate_entry b c w)
            = <[targetId c := b]> (visibilityCache w)
          ∧ doc (evaluate_entry b c w)
            = (if b then alter (class_toggle "show" b) el (doc w)
               else _clearInputs el
                      (alter (class_toggle "show" b) el (doc w)))
          ∧ events (evaluate_entry b c w)
            = ((if b then [] else [inputsCleared el])
               ++ showToggled el b :: events w)%list.
Proof.
  unfold settled, evaluate_entry.
  destruct (showAll w || overridden w (targetId c)) eqn:Hs; [auto |].
  apply orb_false_iff in Hs. destruct Hs as [Hs Ho].
  destruct (bool_decide _) eqn:Hc.
  { apply bool_decide_eq_true in Hc. auto. }
  apply bool_decide_eq_false in Hc.
  destruct (targetEl c (doc w)) as [el |]; [| auto].
  right. exists el. repeat split; try assumption.
  - destruct b; unfold _updateToggleButton; world_simpl;
      rewrite updateToggleIcon_cache; reflexivity.
  - destruct b; unfold _updateToggleButton; world_simpl;
      rewrite updateToggleIcon_doc; reflexivity.
  - destruct b; unfold _updateToggleButton, _updateToggleIcon; world_simpl;
      destruct (toggleButtons w !! targetId c); reflexivity.
Qed.

Lemma evaluate_entry_settles b c w : settled b c (evaluate_entry b c w).
Proof.
  destruct (evaluate_entry_cases b c w) as [H | (el & _ & _ & _ & _ & Hc & _)].
  - rewrite (settled_skips _ _ _ H). exact H.
  - right. left. rewrite Hc. apply lookup_insert_eq.
Qed.

Lemma evaluate_entry_cache_other b c w t :
  targetId c ≠ t →
  visibilityCache (evaluate_entry b c w) !! t = visibilityCache w !! t.
Proof.
  intros Hne.
  destruct (evaluate_entry_cases b c w) as [H | (el & _ & _ & _ & _ & Hc & _)].
  - rewrite (settled_skips _ _ _ H). reflexivity.
  - rewrite Hc. apply lookup_insert_ne. exact Hne.
Qed.

Lemma evaluate_entry_show_other b c w el :
  targetEl c (doc w) ≠ Some el →
  matches_at (contains "other-input") (doc w) el = false →
  has_show (doc (evaluate_entry b c w)) el = has_show (doc w) el.
Proof.
  intros Hne Ho.
  destruct (evaluate_entry_cases b c w)
    as [H | (el' & _ & _ & _ & Hel & _ & Hd & _)].
  - rewrite (settled_skips _ _ _ H). reflexivity.
  - rewrite Hd. assert (el' ≠ el) by congruence.
    destruct b.
    + apply has_show_alter_ne. assumption.
    + rewrite has_show_clearInputs.
      * apply has_show_alter_ne. assumption.
      * etransitivity; [| exact Ho].
        apply other_input_same_shape, same_shape_alter.
        intros e. apply shape_class_toggle, dynamic_show.
Qed.

Lemma evaluate_entry_show_target b c w el :
  showAll w = false → overridden w (targetId c) = false →
  targetEl c (doc w) = Some el →
  matches_at (contains "other-input") (doc w) el = false →
  (∀ b', visibilityCache w !! targetId c = Some b' →
         has_show (doc w) el = b') →
  has_show (doc (evaluate_entry b c w)) el = b
  ∧ visibilityCache (evaluate_entry b c w) !! targetId c = Some b.
Proof.
  intros Hs Ho Hel Hoi Hcoh.
  destruct (evaluate_entry_cases b c w)
    as [H | (el' & _ & _ & _ & Hel' & Hc & Hd & _)].
  - rewrite (settled_skips _ _ _ H).
    destruct H as [H | [H | H]].
    + rewrite Hs, Ho in H. discriminate.
    + split; [apply Hcoh |]; exact H.
    + congruence.
  - assert (el' = el) by congruence. subst el'.
    split; [| rewrite Hc; apply lookup_insert_eq].
    rewrite Hd. pose proof (targetEl_Some _ _ _ Hel) as Hsome.
    destruct b; [apply has_show_alter_toggle; exact Hsome |].
    rewrite has_show_clearInputs;
      [apply has_show_alter_toggle; exact Hsome |].
    etransitivity; [| exact Hoi].
    apply other_input_same_shape, same_shape_alter.
    intros e. apply shape_class_toggle, dynamic_show.
Qed.

Lemma settled_preserved b c b' c' w :
  targetId c' ≠ targetId c →
  settled b c w → settled b c (evaluate_entry b' c' w).
Proof.
  intros Hne H.
  pose proof (evolves_keeps _ _ (evaluate_entry_evolves b' c' w))
    as (Hshape & Hs & Ho & _).
  unfold settled, overridden in *. rewrite Hs, Ho.
  rewrite (evaluate_entry_cache_other _ _ _ _ Hne).
  rewrite (targetEl_same_shape _ _ _ Hshape). exact H.
Qed.

Lemma eval_all_fixed f conds w :
  (∀ c, c ∈ conds → settled (f c) c w) → eval_all f conds w = w.
Proof.
  induction conds as [| c conds IH]; intros H; [reflexivity |].
  rewrite eval_all_cons, settled_skips by (apply H; left).
  apply IH. intros c' Hc'. apply H. right. exact Hc'.
Qed.

Lemma eval_all_settles f conds w :
  NoDup (targetId <$> conds) →
  ∀ c, c ∈ conds → settled (f c) c (eval_all f conds w).
Proof.
  revert w. induction conds as [| c0 conds IH]; intros w Hnd c Hc.
  - apply elem_of_nil in Hc. contradiction.
  - rewrite fmap_cons in Hnd. apply NoDup_cons in Hnd.
    destruct Hnd as [Hnotin Hnd]. rewrite eval_all_cons.
    apply elem_of_cons in Hc. destruct Hc as [-> | Hc]; [| apply IH; auto].
    clear IH. pose proof (evaluate_entry_settles (f c0) c0 w) as Hset.
    revert Hset. generalize (evaluate_entry (f c0) c0 w). clear w.
    induction conds as [| c1 conds IH]; intros w Hset; [exact Hset |].
    rewrite eval_all_cons. apply IH.
    + intros Hin. apply Hnotin. rewrite fmap_cons. right. exact Hin.
    + apply NoDup_cons in Hnd. tauto.
    + apply settled_preserved; [| exact Hset].
      intros Heq. apply Hnotin. rewrite fmap_cons, Heq. left.
Qed.

(** Entries of other targets leave a target's class and cache entry as
    they are. *)
Lemma eval_all_other f conds w t el :
  (∀ c, c ∈ conds → targetId c ≠ t ∧ targetEl c (doc w) ≠ Some el) →
  matches_at (contains "other-input") (doc w) el = false →
  has_show (doc (eval_all f conds w)) el = has_show (doc w) el
  ∧ visibilityCache (eval_all f conds w) !! t = visibilityCache w !! t.
Proof.
  revert w. induction conds as [| c conds IH]; intros w H Ho; [auto |].
  rewrite eval_all_cons. destruct (H c) as [Ht Hel]; [left |].
  pose proof (evolves_keeps _ _ (evaluate_entry_evolves (f c) c w))
    as (Hshape & _).
  destruct (IH (evaluate_entry (f c) c w)) as [IH1 IH2].
  - intros c' Hc'. destruct (H c') as [Ht' Hel']; [right; exact Hc' |].
    split; [exact Ht' |]. rewrite (targetEl_same_shape _ _ _ Hshape).
    exact Hel'.
  - rewrite (other_input_same_shape _ _ _ Hshape). exact Ho.
  - rewrite IH1, IH2. split.
    + apply evaluate_entry_show_other; assumption.
    + apply evaluate_entry_cache_other; assumption.
Qed.

(** After the loop, the class of each governed target is the value of
    [shouldShow] for its entry. *)
Lemma eval_all_show f conds w c el :
  c ∈ conds →
  NoDup (targetId <$> conds) →
  (∀ c', c' ∈ conds → c' ≠ c → targetEl c' (doc w) ≠ Some el) →
  targetEl c (doc w) = Some el →
  matches_at (contains "other-input") (doc w) el = false →
  (∀ b, visibilityCache w !! targetId c = Some b → has_show (doc w) el = b) →
  showAll w = false →
  overridden w (targetId c) = false →
  has_show (doc (eval_all f conds w)) el = f c
  ∧ visibilityCache (eval_all f conds w) !! targetId c = Some (f c).
Proof.
  revert w. induction conds as [| c0 conds IH];
    intros w Hc Hnd Hdist Hel Hoi Hcoh Hs Ho.
  - apply elem_of_nil in Hc. contradiction.
  - rewrite fmap_cons in Hnd. apply NoDup_cons in Hnd.
    destruct Hnd as [Hnotin Hnd]. rewrite eval_all_cons.
    pose proof (evolves_keeps _ _ (evaluate_entry_evolves (f c0) c0 w))
      as (Hshape & Hs' & Ho' & _).
    destruct (decide (c0 = c)) as [-> | Hne].
    + destruct (evaluate_entry_show_target (f c) c w el Hs Ho Hel Hoi Hcoh)
        as [H1 H2].
      destruct (eval_all_other f conds (evaluate_entry (f c) c w)
                  (targetId c) el) as [H3 H4].
      * intros c' Hc'. split.
        -- intros Heq. apply Hnotin. rewrite <- Heq.
           apply list_elem_of_fmap_2. exact Hc'.
        -- rewrite (targetEl_same_shape _ _ _ Hshape).
           apply Hdist; [right; exact Hc' |].
           intros ->. apply Hnotin. apply list_elem_of_fmap_2. exact Hc'.
      * rewrite (other_input_same_shape _ _ _ Hshape). exact Hoi.
      * rewrite H3, H4. auto.
    + apply elem_of_cons in Hc. destruct Hc as [-> | Hc]; [congruence |].
      assert (Hid : targetId c0 ≠ targetId c).
      { intros Heq. apply Hnotin. rewrite Heq.
        apply list_elem_of_fmap_2. exact Hc. }
      apply IH; try assumption.
      * intros c' Hc' Hne'. rewrite (targetEl_same_shape _ _ _ Hshape).
        apply Hdist; [right |]; assumption.
      * rewrite (targetEl_same_shape _ _ _ Hshape). exact Hel.
      * rewrite (other_input_same_shape _ _ _ Hshape). exact Hoi.
      * intros b. rewrite (evaluate_entry_cache_other _ _ _ _ Hid).
        rewrite evaluate_entry_show_other; [apply Hcoh | | exact Hoi].
        apply Hdist; [left | exact Hne].
      * rewrite Hs'. exact Hs.
      * unfold overridden in *. rewrite Ho'. exact Ho.
Qed.

End Evaluate.

(** ** Visibility after an evaluation *)

Lemma includes_spec l v :
  JS.includes l v = true ↔ ∃ z, v = Some z ∧ z ∈ l.
Proof.
  unfold JS.includes. destruct v as [z |].
  - rewrite bool_decide_eq_true. split; [eauto |].
    intros (z' & [= <-] & H). exact H.
  - split; [discriminate | intros (z & H & _); discriminate].
Qed.

Lemma checked_named_spec name e :
  checked_named name e = true
  ↔ tagName e = INPUT ∧ (el_type e = "radio" ∨ el_type e = "checkbox")
    ∧ el_checked e = true ∧ el_name e = name.
Proof.
  unfold checked_named, input_checked, is_input.
  rewrite !andb_true_iff, orb_true_iff, !bool_decide_eq_true. tauto.
Qed.

Lemma checked_input_selector d name i e :
  checked_input d name i e ↔ d !! i = Some e ∧ checked_named name e = true.
Proof. unfold checked_input. rewrite checked_named_spec. tauto. Qed.

Lemma checkbox_named_spec name e :
  checkbox_named name e = true
  ↔ tagName e = INPUT ∧ el_type e = "checkbox" ∧ el_name e = name.
Proof.
  unfold checkbox_named, has_type, is_input.
  rewrite !andb_true_iff, !bool_decide_eq_true. tauto.
Qed.

(** What the readers of the evaluator return, in terms of the answers
    the document holds. *)
Lemma multi_choice_selector d parentId :
  multi_choice d parentId
  ↔ ∃ i e, d !! i = Some e ∧ checkbox_named parentId e = true.
Proof.
  unfold multi_choice. split; intros (i & e & Hi & H); exists i, e;
    (split; [exact Hi |]); apply checkbox_named_spec; exact H.
Qed.

Lemma radio_value_selected d name i e :
  querySelector (checked_named name) d = Some (i, e)
  ↔ checked_input d name i e
    ∧ ∀ j e', (j < i)%nat → ¬ checked_input d name j e'.
Proof.
  unfold querySelector. rewrite list_find_Some.
  split.
  - intros (Hi & Hsel & Hfirst). split.
    + apply checked_input_selector. auto.
    + intros j e' Hlt Hj. apply checked_input_selector in Hj.
      destruct Hj as [Hj Hs]. exact (Hfirst j e' Hj Hlt Hs).
  - intros (Hc & Hfirst). apply checked_input_selector in Hc.
    destruct Hc as [Hi Hsel]. repeat split; try assumption.
    intros j e' Hj Hlt Hs. apply (Hfirst j e' Hlt).
    apply checked_input_selector. auto.
Qed.

Lemma radio_value_unanswered d name :
  querySelector (checked_named name) d = None
  ↔ ∀ i e, ¬ checked_input d name i e.
Proof.
  unfold querySelector. rewrite list_find_None, Forall_lookup. split.
  - intros H i e Hc. apply checked_input_selector in Hc.
    destruct Hc as [Hi Hs]. exact (H i e Hi Hs).
  - intros H i e Hi Hs. apply (H i e). apply checked_input_selector. auto.
Qed.

Lemma selected_value_unique d name v v' :
  selected_value d name v → selected_value d name v' → v = v'.
Proof.
  intros (i & e & Hc & <- & Hfirst) (i' & e' & Hc' & <- & Hfirst').
  destruct (lt_eq_lt_dec i i') as [[Hlt | ->] | Hlt].
  - exfalso. exact (Hfirst' i e Hlt Hc).
  - destruct Hc as (Hi & _), Hc' as (Hi' & _). congruence.
  - exfalso. exact (Hfirst i' e' Hlt Hc').
Qed.

Lemma radio_condition_reader d parentId cond :
  radio_condition d parentId cond
  ↔ radio_value parentId d ≠ ""
    ∧ ∃ z, JS.parseInt (radio_value parentId d) = Some z
           ∧ z ∈ showValues cond.
Proof.
  unfold radio_condition, radio_value, selected_value.
  destruct (querySelector (checked_named parentId) d) as [[i e] |] eqn:Hq.
  - apply radio_value_selected in Hq. destruct Hq as [Hc Hfirst]. split.
    + intros (v & z & Hsel & Hv & Hz & Hin).
      assert (v = el_value e) as ->.
      { apply (selected_value_unique d parentId); [exact Hsel |].
        exists i, e. auto. }
      eauto.
    + intros (Hv & z & Hz & Hin). exists (el_value e), z.
      repeat split; try assumption. exists i, e. auto.
  - pose proof (proj1 (radio_value_unanswered d parentId) Hq) as Hnone.
    split.
    + intros (v & z & (i & e & Hc & _) & _). exfalso. exact (Hnone i e Hc).
    + intros [Hv _]. congruence.
Qed.

Lemma checkbox_condition_reader d parentId cond :
  checkbox_condition d parentId cond
  ↔ ∃ z, Some z ∈ checkbox_values parentId d ∧ z ∈ showValues cond.
Proof.
  unfold checkbox_condition, checkbox_values. split.
  - intros (i & e & z & Hc & Hz & Hin). exists z. split; [| exact Hin].
    apply checked_input_selector in Hc. destruct Hc as [Hi Hs].
    apply list_elem_of_fmap. exists e. split; [auto |].
    apply list_elem_of_filter. split; [exact Hs |].
    apply list_elem_of_lookup. eauto.
  - intros (z & Hz & Hin). apply list_elem_of_fmap in Hz.
    destruct Hz as (e & Hz & He). apply list_elem_of_filter in He.
    destruct He as [Hs He]. apply list_elem_of_lookup in He.
    destruct He as [i Hi]. exists i, e, z. split; [| auto].
    apply checked_input_selector. auto.
Qed.

Lemma shouldShow_radio_spec d parentId cond :
  shouldShow_radio (radio_value parentId d) cond = true
  ↔ radio_condition d parentId cond.
Proof.
  rewrite radio_condition_reader. unfold shouldShow_radio.
  rewrite andb_true_iff, negb_true_iff, bool_decide_eq_false, includes_spec.
  reflexivity.
Qed.

Lemma shouldShow_checkbox_spec d parentId cond :
  shouldShow_checkbox (checkbox_values parentId d) cond = true
  ↔ checkbox_condition d parentId cond.
Proof.
  rewrite checkbox_condition_reader. unfold shouldShow_checkbox.
  rewrite existsb_exists. split.
  - intros (v & Hin & Hv). apply includes_spec in Hv.
    destruct Hv as (z & -> & Hz). exists z. split; [| exact Hz].
    apply list_elem_of_In. exact Hin.
  - intros (z & Hin & Hz). exists (Some z). split.
    + apply list_elem_of_In. exact Hin.
    + apply includes_spec. eauto.
Qed.

Lemma get_elem_of {A} (obj : list (string * A)) k v :
  JS.get obj k = Some v → (k, v) ∈ obj.
Proof.
  induction obj as [| [k0 v0] obj IH]; [discriminate |]. cbn [JS.get].
  destruct (bool_decide (k0 = k)) eqn:Hk.
  - apply bool_decide_eq_true in Hk. intros [= ->]. subst. left.
  - intros H. right. auto.
Qed.

(** C1. In a well-formed table whose cache agrees with the document,
    for an entry of [parentId] whose target is not overridden, with
    show-all mode off: after [evaluate(parentId, fieldType)] the target
    carries the [show] class exactly when the condition holds on the
    answers the document held at the call: for a single-choice parent
    the value of its checked input is non-empty and in the trigger set,
    for a multi-choice parent the value of one of its checked inputs is
    in the trigger set. *)
Theorem evaluate_shows_iff_condition (w : World) (parentId fieldType : string)
    (conditions : list Cond) (cond : Cond) (el : nat) :
  table_wf (conditionMap w) (doc w) →
  cache_coherent w →
  JS.get (conditionMap w) parentId = Some conditions →
  cond ∈ conditions →
  targetEl cond (doc w) = Some el →
  showAll w = false →
  overridden w (targetId cond) = false →
  let w' := evaluate parentId fieldType w in
  targetEl cond (doc w') = Some el
  ∧ (has_show (doc w') el = true
     ↔ if bool_decide (fieldType = "checkbox")
       then checkbox_condition (doc w) parentId cond
       else radio_condition (doc w) parentId cond).
Proof.
  intros Hwf Hcoh Hget Hin Hel Hs Ho w'.
  pose proof (get_elem_of _ _ _ Hget) as HP.
  assert (Hshow : ∀ f, has_show (doc (eval_all f conditions w)) el = f cond).
  { intros f. destruct (eval_all_show f conditions w cond el) as [-> _];
      try assumption; try reflexivity.
    - apply (wf_once _ _ Hwf parentId conditions HP).
    - intros c' Hc' Hne Hel'. apply Hne.
      apply (wf_elements _ _ Hwf parentId conditions parentId conditions
               c' cond el); assumption.
    - apply (wf_blocks _ _ Hwf parentId conditions cond el); assumption.
    - intros b. apply (Hcoh parentId conditions cond el b); assumption. }
  split.
  - rewrite (targetEl_same_shape cond (doc w) (doc w')); [exact Hel |].
    apply (evolves_keeps w w'), evaluate_evolves.
  - subst w'. unfold evaluate. rewrite Hget.
    destruct (bool_decide (fieldType = "checkbox")).
    + unfold _evaluateCheckbox. cbv zeta.
      fold (eval_all (shouldShow_checkbox (checkbox_values parentId (doc w)))
              conditions w).
      rewrite Hshow. apply shouldShow_checkbox_spec.
    + unfold _evaluateRadio. cbv zeta.
      fold (eval_all (shouldShow_radio (radio_value parentId (doc w)))
              conditions w).
      rewrite Hshow. apply shouldShow_radio_spec.
Qed.

(** ** Idempotence *)

(** C5. A second [evaluate] of the same parent, reading the same answer
    as the first, returns the state it is given: no class is toggled, no
    input is cleared, no cache entry or icon is written, and nothing is
    added to the log of writes.  The entries of the parent name distinct
    targets. *)
Theorem evaluate_twice_no_mutation (w : World) (parentId fieldType : string) :
  (∀ conditions, JS.get (conditionMap w) parentId = Some conditions →
                 NoDup (targetId <$> conditions)) →
  let w1 := evaluate parentId fieldType w in
  (if bool_decide (fieldType = "checkbox")
   then checkbox_values parentId (doc w1) = checkbox_values parentId (doc w)
   else radio_value parentId (doc w1) = radio_value parentId (doc w)) →
  evaluate parentId fieldType w1 = w1.
Proof.
  intros Hnd w1 Hans.
  assert (Hcfg : conditionMap w1 = conditionMap w).
  { subst w1. unfold conditionMap.
    pose proof (evolves_keeps _ _ (evaluate_evolves parentId fieldType w))
      as (_ & _ & _ & -> & _). reflexivity. }
  unfold evaluate at 1. rewrite Hcfg. subst w1. unfold evaluate in *.
  destruct (JS.get (conditionMap w) parentId) as [conditions |] eqn:Hget;
    [| reflexivity].
  specialize (Hnd conditions eq_refl).
  destruct (bool_decide (fieldType = "checkbox")).
  - unfold _evaluateCheckbox in *. cbv zeta in *. rewrite Hans.
    apply eval_all_fixed. intros c Hc. apply eval_all_settles; assumption.
  - unfold _evaluateRadio in *. cbv zeta in *. rewrite Hans.
    apply eval_all_fixed. intros c Hc. apply eval_all_settles; assumption.
Qed.

Lemma evaluate_twice_no_mutation_witness :
  evaluate "A" "radio" (evaluate "A" "radio" ConditionSample.answered)
  = evaluate "A" "radio" ConditionSample.answered.
Proof.
  apply (evaluate_twice_no_mutation ConditionSample.answered "A" "radio").
  - intros conditions H. vm_compute in H. injection H as <-.
    apply NoDup_singleton.
  - vm_compute. reflexivity.
Defined.

(** ** Transitions of a target *)

(** Hiding a target clears every input under it of the kinds that
    [_clearInputs] knows: check boxes and radio buttons, text and number
    fields, text areas and selects. *)
Lemma evaluate_entry_hiding_clears b c w el :
  targetEl c (doc w) = Some el →
  has_show (doc w) el = true →
  has_show (doc (evaluate_entry b c w)) el = false →
  ∀ i e, doc (evaluate_entry b c w) !! i = Some e →
         under el e = true → cleared e.
Proof.
  intros Hel Hbefore Hafter i e Hi Hu.
  destruct (evaluate_entry_cases b c w)
    as [H | (el' & _ & _ & _ & Hel' & _ & Hd & _)].
  { rewrite (settled_skips _ _ _ H) in Hafter. congruence. }
  assert (el' = el) by congruence. subst el'.
  pose proof (targetEl_Some _ _ _ Hel) as Hsome.
  destruct b.
  { rewrite Hd, has_show_alter_toggle in Hafter by exact Hsome.
    discriminate. }
  rewrite Hd, clearInputs_lookup in Hi.
  destruct (alter (class_toggle "show" false) el (doc w) !! i)
    as [e0 |] eqn:He0; [| discriminate].
  rewrite (checked_in_select _ _ _ _ He0) in Hi.
  cbn [fmap option_fmap option_map] in Hi. injection Hi as <-.
  assert (Hu0 : under el e0 = true).
  { rewrite <- Hu. symmetry.
    apply (kind_selectors e0 (clear_element el _ _ e0)),
      clear_element_kind. }
  apply clear_element_inside. exact Hu0.
Qed.

(** Showing a target writes no input at all. *)
Lemma evaluate_entry_showing_keeps_inputs c w i :
  let w' := evaluate_entry true c w in
  (el_checked <$> doc w' !! i) = (el_checked <$> doc w !! i)
  ∧ (el_value <$> doc w' !! i) = (el_value <$> doc w !! i)
  ∧ (el_selectedIndex <$> doc w' !! i) = (el_selectedIndex <$> doc w !! i).
Proof.
  intros w'. subst w'.
  destruct (evaluate_entry_cases true c w)
    as [H | (el & _ & _ & _ & _ & _ & Hd & _)].
  { rewrite (settled_skips _ _ _ H). auto. }
  rewrite Hd. destruct (decide (el = i)) as [-> | Hne].
  - rewrite list_lookup_alter_eq. destruct (doc w !! i) as [e |]; [| auto].
    cbn. unfold class_add. destruct (contains "show" e); auto.
  - rewrite list_lookup_alter_ne by exact Hne. auto.
Qed.

(** C4, where the code departs from it.  T is shown (P = 1) and holds a
    date and a note; correcting P to 2 hides T and empties the note, but
    the date field keeps its value: [_clearInputs] selects
    [input[type="text"]] and [input[type="number"]] only. *)
Theorem hidden_date_field_keeps_value :
  has_show (doc DateSample.filled) 6 = true
  ∧ has_show (doc DateSample.corrected) 6 = false
  ∧ (under 6 <$> doc DateSample.corrected !! 8%nat) = Some true
  ∧ (el_type <$> doc DateSample.corrected !! 8%nat) = Some "date"
  ∧ (el_value <$> doc DateSample.corrected !! 8%nat) = Some "2024-05-01"
  ∧ (el_value <$> doc DateSample.filled !! 9%nat) = Some "note"
  ∧ (el_value <$> doc DateSample.corrected !! 9%nat) = Some "".
Proof. vm_compute. repeat split. Qed.

(** ** Forced overrides *)

Lemma querySelector_Some_iff sel (d : Document) :
  is_Some (querySelector sel d) ↔ ∃ i e, d !! i = Some e ∧ sel e = true.
Proof.
  unfold querySelector. split.
  - intros [[i e] H]. apply list_find_Some in H.
    destruct H as (Hi & Hs & _). eauto.
  - intros (i & e & Hi & Hs).
    destruct (list_find (λ e, sel e = true) d) as [p |] eqn:H; [eauto |].
    apply list_find_None in H. rewrite Forall_lookup in H.
    exfalso. exact (H i e Hi Hs).
Qed.

Lemma entry_met_spec parentId cond d :
  entry_met parentId cond d = true ↔ entry_condition d parentId cond.
Proof.
  unfold entry_met, entry_condition.
  pose proof (querySelector_Some_iff (checkbox_named parentId) d) as Hq.
  rewrite <- multi_choice_selector in Hq.
  destruct (querySelector (checkbox_named parentId) d) as [p |].
  - assert (Hm : multi_choice d parentId) by (apply Hq; eauto).
    fold (shouldShow_checkbox (checkbox_values parentId d) cond).
    rewrite shouldShow_checkbox_spec. tauto.
  - assert (Hm : ¬ multi_choice d parentId).
    { intros H. apply Hq in H. destruct H as [? H]. discriminate. }
    rewrite radio_condition_reader. unfold radio_value.
    destruct (querySelector (checked_named parentId) d) as [[i e] |].
    + rewrite includes_spec. split.
      * intros (z & Hz & Hin). right. split; [exact Hm |]. split; [| eauto].
        intros Hv. rewrite Hv in Hz. discriminate.
      * intros [[H _] | [_ [_ H]]]; [contradiction | exact H].
    + split; [discriminate |].
      intros [[H _] | [_ [H _]]]; [contradiction | congruence].
Qed.

Lemma isConditionMet_spec t w :
  isConditionMet t w = true ↔ real_condition_met w t.
Proof.
  unfold isConditionMet, real_condition_met. rewrite existsb_exists. split.
  - intros ([parentId conditions] & Hin & H). apply existsb_exists in H.
    destruct H as (cond & Hc & H). apply andb_true_iff in H.
    destruct H as [Ht Hm]. apply bool_decide_eq_true in Ht.
    exists parentId, conditions, cond. rewrite <- !list_elem_of_In in *.
    repeat split; try assumption. apply entry_met_spec. exact Hm.
  - intros (parentId & conditions & cond & Hin & Hc & Ht & Hm).
    exists (parentId, conditions). rewrite <- list_elem_of_In.
    split; [exact Hin |]. apply existsb_exists. exists cond.
    rewrite <- list_elem_of_In. split; [exact Hc |].
    apply andb_true_iff. split; [apply bool_decide_eq_true; exact Ht |].
    apply entry_met_spec. exact Hm.
Qed.

(** C6. [getForcedOverrideIds] returns exactly the overridden targets
    whose real condition is not met: the targets of the override set, in
    its order, for which no entry of the condition table naming the
    target holds on the answers the document holds for the entry's
    parent (for a multi-choice parent, a checked value in the trigger
    set; for a single-choice parent, the selected value in it).  It
    returns nothing when every overridden target's condition is met, and
    nothing when no override is active. *)
Theorem forced_override_ids_exact (w : World) :
  (∀ t, t ∈ getForcedOverrideIds w
        ↔ t ∈ manualOverrides w ∧ ¬ real_condition_met w t)
  ∧ sublist (getForcedOverrideIds w) (manualOverrides w)
  ∧ ((∀ t, t ∈ manualOverrides w → real_condition_met w t) →
      getForcedOverrideIds w = [])
  ∧ (manualOverrides w = [] → getForcedOverrideIds w = []).
Proof.
  assert (Hiff : ∀ t, t ∈ getForcedOverrideIds w
                      ↔ t ∈ manualOverrides w ∧ ¬ real_condition_met w t).
  { intros t. unfold getForcedOverrideIds. rewrite list_elem_of_filter.
    rewrite <- isConditionMet_spec, not_true_iff_false. tauto. }
  split; [exact Hiff |]. split; [apply sublist_filter |]. split.
  - intros Hall. apply elem_of_nil_inv. intros t Ht. apply Hiff in Ht.
    destruct Ht as [Hin Hnot]. apply Hnot, Hall, Hin.
  - intros Hnone. unfold getForcedOverrideIds. rewrite Hnone. reflexivity.
Qed.

(** ** The cursor during an evaluation pass *)

Lemma openBranches_keeps parentId w :
  let w' := (openBranchesForParent parentId w).1 in
  questionIndex w' = questionIndex w ∧ tableRowIndex w' = tableRowIndex w
  ∧ questionList w' = questionList w.
Proof.
  unfold openBranchesForParent. destruct (JS.get _ _) as [conditions |];
    [| auto].
  change w with (w, false).1 at 2 4 6. generalize (w, false).
  induction conditions as [| c conditions IH]; intros acc; [auto |].
  cbn [foldl]. cbv zeta in IH.
  destruct (IH (openBranches_body acc c)) as (-> & -> & ->).
  destruct acc as [w0 opened]. unfold openBranches_body.
  destruct (targetEl c (doc w0)) as [el |]; [| auto].
  destruct (negb (matches_at _ _ _)); [auto |].
  destruct (negb (has_show _ _)); [| auto].
  unfold _updateToggleIcon. world_simpl.
  destruct (toggleButtons w0 !! targetId c); auto.
Qed.

Lemma closeBranches_keeps parentId w :
  let w' := (closeBranchesForParent parentId w).1 in
  questionIndex w' = questionIndex w ∧ tableRowIndex w' = tableRowIndex w
  ∧ questionList w' = questionList w.
Proof.
  unfold closeBranchesForParent. destruct (JS.get _ _) as [conditions |];
    [| auto].
  assert (Hfold : ∀ acc : World * bool,
            let r := foldl closeBranches_body acc conditions in
            questionIndex r.1 = questionIndex acc.1
            ∧ tableRowIndex r.1 = tableRowIndex acc.1
            ∧ questionList r.1 = questionList acc.1).
  { induction conditions as [| c conditions IH]; intros acc; [auto |].
    cbn [foldl]. cbv zeta in IH |- *.
    destruct (IH (closeBranches_body acc c)) as (-> & -> & ->).
    destruct acc as [w0 closed]. unfold closeBranches_body.
    destruct (overridden w0 (targetId c)); auto. }
  specialize (Hfold (w, false)). cbv zeta in Hfold.
  destruct (foldl closeBranches_body (w, false) conditions) as [w1 closed].
  cbn [fst] in Hfold. destruct closed; [| exact Hfold].
  cbn [fst].
  pose proof (evolves_keeps _ _
                (evaluate_evolves parentId (fieldType_of parentId (doc w1)) w1))
    as (_ & _ & _ & _ & -> & -> & -> & _).
  exact Hfold.
Qed.




(** ** Leaving show-all mode *)

Section Answers.

Lemma same_answers_first P d d' :
  same_answers P d d' →
  (λ p : nat * Element, el_value p.2)
    <$> list_find (λ e, checked_named P e = true) d'
  = (λ p : nat * Element, el_value p.2)
      <$> list_find (λ e, checked_named P e = true) d.
Proof.
  induction 1 as [| e e' d d' [Hc Hv] _ IH]; [reflexivity |].
  cbn [list_find].
  destruct (decide (checked_named P e = true)) as [He | He].
  - rewrite (decide_True (P := checked_named P e' = true)) by congruence.
    cbn. rewrite Hv by exact He. reflexivity.
  - rewrite (decide_False (P := checked_named P e' = true)) by congruence.
    rewrite <- !option_fmap_compose.
    destruct (list_find _ d) as [[i x] |], (list_find _ d') as [[i' x'] |];
      cbn in *; congruence.
Qed.

Lemma same_answers_values P d d' :
  same_answers P d d' →
  radio_value P d' = radio_value P d
  ∧ checkbox_values P d' = checkbox_values P d.
Proof.
  intros H. split.
  - pose proof (same_answers_first P d d' H) as Hf.
    unfold radio_value, querySelector.
    destruct (list_find _ d) as [[i x] |], (list_find _ d') as [[i' x'] |];
      cbn in *; congruence.
  - unfold checkbox_values.
    induction H as [| e e' d d' [Hc Hv] _ IH]; [reflexivity |].
    rewrite !filter_cons.
    destruct (decide (checked_named P e = true)) as [He | He].
    + rewrite (decide_True (P := checked_named P e' = true)) by congruence.
      rewrite !fmap_cons, IH, Hv by exact He. reflexivity.
    + rewrite (decide_False (P := checked_named P e' = true)) by congruence.
      exact IH.
Qed.

Lemma same_answers_refl P d : same_answers P d d.
Proof. apply Forall_Forall2_diag, Forall_forall. auto. Qed.

Lemma same_answers_trans P d1 d2 d3 :
  same_answers P d1 d2 → same_answers P d2 d3 → same_answers P d1 d3.
Proof.
  intros H1 H2. eapply Forall2_trans; [| exact H1 | exact H2].
  cbn. intros e1 e2 e3 [Hc Hv] [Hc' Hv']. split; [congruence |].
  intros H. rewrite Hv' by congruence. auto.
Qed.

Lemma same_answers_lookup P (d d' : Document) :
  length d' = length d →
  (∀ i e e', d !! i = Some e → d' !! i = Some e' →
             checked_named P e' = checked_named P e
             ∧ (checked_named P e = true → el_value e' = el_value e)) →
  same_answers P d d'.
Proof.
  intros Hlen H. apply Forall2_same_length_lookup. split; [auto |].
  intros i e e' He He'. eauto.
Qed.

Lemma checked_named_ext P e e' :
  kind e' = kind e → el_name e' = el_name e → el_checked e' = el_checked e →
  checked_named P e' = checked_named P e.
Proof.
  unfold kind, checked_named, input_checked, is_input.
  intros [= -> -> _] -> ->. reflexivity.
Qed.

Lemma clear_element_name c a b e : el_name (clear_element c a b e) = el_name e.
Proof.
  unfold clear_element. rewrite !(when_keeps el_name) by reflexivity.
  reflexivity.
Qed.

Lemma same_answers_alter_class P f i (d : Document) :
  (∀ e, el_checked (f e) = el_checked e ∧ el_value (f e) = el_value e
        ∧ kind (f e) = kind e ∧ el_name (f e) = el_name e) →
  same_answers P d (alter f i d).
Proof.
  intros Hf. apply same_answers_lookup; [apply length_alter |].
  intros j e e' He He'. destruct (decide (i = j)) as [-> | Hne].
  - rewrite list_lookup_alter_eq, He in He'. injection He' as <-.
    destruct (Hf e) as (Hc & Hv & Hk & Hn).
    split; [apply checked_named_ext; assumption | intros _; exact Hv].
  - rewrite list_lookup_alter_ne in He' by exact Hne.
    assert (e' = e) by congruence. subst. auto.
Qed.

Lemma same_answers_clearInputs P el (d : Document) :
  (∀ k e, d !! k = Some e → el_name e = P → under el e = false) →
  same_answers P d (_clearInputs el d).
Proof.
  intros Hout. apply same_answers_lookup.
  { apply same_shape_length, same_shape_clearInputs. }
  intros i e e' He He'. rewrite clearInputs_lookup, He in He'.
  cbn [fmap option_fmap option_map] in He'. injection He' as <-.
  rewrite (checked_in_select _ _ _ _ He).
  set (b := bool_decide (i ∈ omap (closest is_label d) _)).
  destruct (decide (el_name e = P)) as [Hn | Hn].
  - rewrite (Hout _ _ He Hn). cbn [andb].
    destruct (clear_element_outside el b e (Hout _ _ He Hn)) as (Hc & Hv & _).
    split; [| intros _; exact Hv].
    apply checked_named_ext;
      [apply clear_element_kind | apply clear_element_name | exact Hc].
  - assert (Hn' : ∀ x, el_name x = el_name e → checked_named P x = false).
    { intros x Hx. unfold checked_named. rewrite Hx.
      rewrite bool_decide_eq_false_2 by exact Hn. apply andb_false_r. }
    rewrite (Hn' e eq_refl), (Hn' _ (clear_element_name _ _ _ _)).
    split; [reflexivity | discriminate].
Qed.

Lemma evaluate_entry_same_answers P b c w :
  (∀ el k e, targetEl c (doc w) = Some el → doc w !! k = Some e →
             el_name e = P → under el e = false) →
  same_answers P (doc w) (doc (evaluate_entry b c w)).
Proof.
  intros Hout.
  destruct (evaluate_entry_cases b c w)
    as [H | (el & _ & _ & _ & Hel & _ & Hd & _)].
  { rewrite (settled_skips _ _ _ H). apply same_answers_refl. }
  rewrite Hd.
  assert (Hcls : same_answers P (doc w)
                   (alter (class_toggle "show" b) el (doc w))).
  { apply same_answers_alter_class. intros e.
    destruct b; cbn [class_toggle]; unfold class_add;
      [destruct (contains "show" e) |]; auto. }
  destruct b; [exact Hcls |].
  eapply same_answers_trans; [exact Hcls |].
  apply same_answers_clearInputs. intros k e He Hn.
  destruct (decide (el = k)) as [-> | Hne].
  - rewrite list_lookup_alter_eq in He.
    destruct (doc w !! k) as [e0 |] eqn:He0; [| discriminate].
    injection He as <-. apply (Hout k k e0 Hel He0). exact Hn.
  - rewrite list_lookup_alter_ne in He by exact Hne.
    apply (Hout el k e Hel He Hn).
Qed.

Lemma eval_all_same_answers P f conds w :
  (∀ c el k e, c ∈ conds → targetEl c (doc w) = Some el →
               doc w !! k = Some e → el_name e = P → under el e = false) →
  same_answers P (doc w) (doc (eval_all f conds w)).
Proof.
  revert w. induction conds as [| c conds IH]; intros w Hout;
    [apply same_answers_refl |].
  rewrite eval_all_cons.
  pose proof (evolves_keeps _ _ (evaluate_entry_evolves (f c) c w))
    as (Hshape & _).
  eapply same_answers_trans.
  - apply evaluate_entry_same_answers. intros el k e. apply Hout. left.
  - apply IH. intros c' el k e' Hc' Hel He' Hn.
    rewrite (targetEl_same_shape _ _ _ Hshape) in Hel.
    destruct (same_shape_lookup _ _ k e' (same_shape_sym _ _ Hshape) He')
      as (e & He & Hse).
    assert (Hk : el_parents e' = el_parents e ∧ el_name e' = el_name e).
    { apply (f_equal (λ x, (el_parents x, el_name x))) in Hse. cbn in Hse.
      injection Hse as -> ->. auto. }
    destruct Hk as [Hp Hname]. unfold under. rewrite Hp.
    apply (Hout c' el k e); [right | | | congruence]; assumption.
Qed.

End Answers.

Section ShowAllOff.

Lemma get_lookup {A} (obj : list (string * A)) i k v :
  NoDup (fst <$> obj) → obj !! i = Some (k, v) → JS.get obj k = Some v.
Proof.
  revert i. induction obj as [| [k0 v0] obj IH]; intros i Hnd Hi;
    [discriminate |].
  rewrite fmap_cons in Hnd. apply NoDup_cons in Hnd. destruct Hnd as [Hk Hnd].
  cbn [JS.get]. destruct i as [| i].
  - injection Hi as -> ->. rewrite bool_decide_eq_true_2 by reflexivity.
    reflexivity.
  - cbn in Hi. rewrite bool_decide_eq_false_2; [eapply IH; eauto |].
    intros ->. apply Hk. apply list_elem_of_fmap. exists (k, v).
    split; [reflexivity |]. apply list_elem_of_lookup. eauto.
Qed.

Lemma static_checkbox_named P : static_selector (checkbox_named P).
Proof. intros e. reflexivity. Qed.

Lemma multi_choice_same_shape P d d' :
  same_shape d d' → multi_choice d' P ↔ multi_choice d P.
Proof.
  intros H. rewrite !multi_choice_selector, <- !querySelector_Some_iff.
  pose proof (querySelector_same_shape (checkbox_named P) d d'
                (static_checkbox_named P) H) as Hq.
  destruct (querySelector (checkbox_named P) d),
           (querySelector (checkbox_named P) d'); cbn in Hq;
    try discriminate; split; intros [x Hx]; try discriminate; eauto.
Qed.

Lemma entry_condition_ext P c d d' :
  same_shape d d' → same_answers P d d' →
  entry_condition d' P c ↔ entry_condition d P c.
Proof.
  intros Hs Ha. destruct (same_answers_values P d d' Ha) as [Hr Hc].
  unfold entry_condition.
  rewrite !checkbox_condition_reader, !radio_condition_reader.
  rewrite Hr, Hc, (multi_choice_same_shape P d d' Hs). reflexivity.
Qed.

Lemma fieldType_of_checkbox P d :
  bool_decide (fieldType_of P d = "checkbox") = true ↔ multi_choice d P.
Proof.
  unfold fieldType_of. rewrite multi_choice_selector.
  rewrite <- querySelector_Some_iff.
  destruct (querySelector (checkbox_named P) d); split; intros H;
    try reflexivity; try discriminate; eauto.
  destruct H. discriminate.
Qed.

(** With the field type the evaluator detects, [evaluate] runs the loop
    with the condition of each entry on the current answer. *)
Lemma evaluate_detected w P cs :
  JS.get (conditionMap w) P = Some cs →
  ∃ f, evaluate P (fieldType_of P (doc w)) w = eval_all f cs w
       ∧ ∀ c, f c = true ↔ entry_condition (doc w) P c.
Proof.
  intros Hget. unfold evaluate. rewrite Hget.
  pose proof (fieldType_of_checkbox P (doc w)) as Hft.
  destruct (bool_decide (fieldType_of P (doc w) = "checkbox")).
  - exists (shouldShow_checkbox (checkbox_values P (doc w))).
    split; [reflexivity |]. intros c. rewrite shouldShow_checkbox_spec.
    unfold entry_condition. tauto.
  - exists (shouldShow_radio (radio_value P (doc w))).
    split; [reflexivity |]. intros c. rewrite shouldShow_radio_spec.
    unfold entry_condition.
    assert (¬ multi_choice (doc w) P) by (rewrite <- Hft; discriminate).
    tauto.
Qed.

Lemma eval_all_cache_other f conds w t :
  (∀ c, c ∈ conds → targetId c ≠ t) →
  visibilityCache (eval_all f conds w) !! t = visibilityCache w !! t.
Proof.
  revert w. induction conds as [| c conds IH]; intros w H; [reflexivity |].
  rewrite eval_all_cons, IH by (intros c' Hc'; apply H; right; exact Hc').
  apply evaluate_entry_cache_other, H. left.
Qed.

Lemma table_wf_same_shape cm d d' :
  same_shape d d' → table_wf cm d → table_wf cm d'.
Proof.
  intros Hs [H1 H2 H3 H4 H5]. split; try assumption.
  - intros P cs P' cs' c c' el HP HP' Hc Hc'.
    rewrite !(targetEl_same_shape _ _ _ Hs). eauto.
  - intros P cs c el HP Hc.
    rewrite (targetEl_same_shape _ _ _ Hs), (other_input_same_shape _ _ _ Hs).
    eauto.
Qed.

Lemma parents_before_targets_same_shape cm d d' :
  same_shape d d' → parents_before_targets cm d →
  parents_before_targets cm d'.
Proof.
  intros Hs H i j Pi csi Pj csj c el k e' Hi Hj Hij Hc Hel He' Hn.
  rewrite (targetEl_same_shape _ _ _ Hs) in Hel.
  destruct (same_shape_lookup _ _ k e' (same_shape_sym _ _ Hs) He')
    as (e & He & Hse).
  apply (f_equal (λ x, (el_parents x, el_name x))) in Hse. cbn in Hse.
  injection Hse as Hp Hname. unfold under. rewrite <- Hp.
  apply (H i j Pi csi Pj csj c el k e); try assumption. congruence.
Qed.

(** One turn of the re-evaluation loop. *)
Lemma reevaluated_step cm n P cs w :
  reevaluated cm n w → cm !! n = Some (P, cs) →
  reevaluated cm (S n) (evaluate P (fieldType_of P (doc w)) w).
Proof.
  intros (Hs & Ho & Hcm & Hwf & Hord & Hdone & Htodo) Hn.
  assert (Hin : (P, cs) ∈ cm) by (apply list_elem_of_lookup; eauto).
  assert (Hget : JS.get (conditionMap w) P = Some cs).
  { rewrite Hcm. eapply get_lookup; [apply Hwf | exact Hn]. }
  destruct (evaluate_detected w P cs Hget) as (f & -> & Hf).
  pose proof (evolves_keeps _ _ (eval_all_evolves f cs w))
    as (Hshape & Hs' & Ho' & Hc' & _).
  assert (Hsame : ∀ i Pi csi, (i ≤ n)%nat → cm !! i = Some (Pi, csi) →
                  same_answers Pi (doc w) (doc (eval_all f cs w))).
  { intros i Pi csi Hi Hlook. apply eval_all_same_answers.
    intros c el k e Hc Hel He Hname.
    apply (Hord i n Pi csi P cs c el k e); assumption. }
  unfold reevaluated. rewrite Hs', Ho'.
  split; [exact Hs |]. split; [exact Ho |].
  split; [unfold conditionMap in *; rewrite Hc'; exact Hcm |].
  split; [eapply table_wf_same_shape; eauto |].
  split; [eapply parents_before_targets_same_shape; eauto |].
  split.
  - intros i Pi csi c el Hi Hlook Hc Hel.
    rewrite (targetEl_same_shape _ _ _ Hshape) in Hel.
    rewrite (entry_condition_ext Pi c (doc w) _ Hshape)
      by (apply (Hsame i Pi csi); [lia | exact Hlook]).
    destruct (decide (i = n)) as [-> | Hne].
    + assert (Pi = P ∧ csi = cs) as [-> ->] by (split; congruence).
      destruct (eval_all_show f cs w c el) as [-> _]; try assumption.
      * apply (wf_once cm (doc w) Hwf P cs Hin).
      * intros c0 Hc0 Hne Hel0. apply Hne.
        apply (wf_elements cm (doc w) Hwf P cs P cs c0 c el); assumption.
      * apply (wf_blocks cm (doc w) Hwf P cs c el); assumption.
      * intros b Hb. rewrite (Htodo n P cs c) in Hb; eauto. discriminate.
      * unfold overridden. rewrite Ho. reflexivity.
      * apply Hf.
    + destruct (eval_all_other f cs w (targetId c) el) as [-> _].
      * intros c0 Hc0. split.
        -- intros Heq.
           pose proof (wf_single cm (doc w) Hwf n i P cs Pi csi c0 c
                         Hn Hlook Hc0 Hc Heq). lia.
        -- intros Hel0.
           assert (c0 = c) as ->.
           { apply (wf_elements cm (doc w) Hwf P cs Pi csi c0 c el);
               try assumption.
             apply list_elem_of_lookup. eauto. }
           pose proof (wf_single cm (doc w) Hwf n i P cs Pi csi c c
                         Hn Hlook Hc0 Hc eq_refl). lia.
      * apply (wf_blocks cm (doc w) Hwf Pi csi c el); try assumption.
        apply list_elem_of_lookup. eauto.
      * apply (Hdone i Pi csi c el); [lia | assumption..].
  - intros j Pj csj c Hj Hlook Hc Hel.
    rewrite (targetEl_same_shape _ _ _ Hshape) in Hel.
    rewrite eval_all_cache_other; [apply (Htodo j Pj csj c); eauto; lia |].
    intros c0 Hc0 Heq.
    pose proof (wf_single cm (doc w) Hwf n j P cs Pj csj c0 c
                  Hn Hlook Hc0 Hc Heq). lia.
Qed.

Lemma reevaluate_all_cons P l w :
  reevaluate_all (P :: l) w
  = reevaluate_all l (evaluate P (fieldType_of P (doc w)) w).
Proof. reflexivity. Qed.

Lemma reevaluated_all cm n w :
  reevaluated cm n w →
  reevaluated cm (n `max` length cm)
    (reevaluate_all (fst <$> drop n cm) w).
Proof.
  remember (length cm - n)%nat as k eqn:Hk. revert n w Hk.
  induction k as [| k IH]; intros n w Hk Hinv.
  - rewrite drop_ge by lia. replace (n `max` length cm)%nat with n by lia.
    exact Hinv.
  - destruct (cm !! n) as [[P cs] |] eqn:Hn.
    2:{ apply lookup_ge_None in Hn. lia. }
    rewrite (drop_S _ _ _ Hn), fmap_cons, reevaluate_all_cons. cbn [fst].
    replace (n `max` length cm)%nat with (S n `max` length cm)%nat
      by (apply lookup_lt_Some in Hn; lia).
    apply (IH (S n)); [lia |].
    apply (reevaluated_step cm n P cs w); assumption.
Qed.

(** The first loop of [setShowAll(false)] only deletes cache entries,
    and deletes that of every target that has an element. *)
Lemma delete_loop conds w :
  ∃ vc, foldl (setShowAll_body false) w conds = set_visibilityCache vc w
        ∧ ∀ c, c ∈ conds → is_Some (targetEl c (doc w)) →
               vc !! targetId c = None.
Proof.
  revert w. induction conds as [| c conds IH] using rev_ind; intros w.
  - exists (visibilityCache w). split; [destruct w; reflexivity |].
    intros c Hc. apply elem_of_nil in Hc. contradiction.
  - rewrite foldl_snoc. destruct (IH w) as (vc & -> & Hvc).
    unfold setShowAll_body. world_simpl.
    destruct (targetEl c (doc w)) as [el |] eqn:Hel.
    + exists (delete (targetId c) vc). split; [reflexivity |].
      intros c' Hc' Hsome. apply elem_of_app in Hc'.
      destruct (decide (targetId c = targetId c')) as [-> | Hne];
        [apply lookup_delete_eq |].
      rewrite lookup_delete_ne by exact Hne.
      destruct Hc' as [Hc' | Hc']; [auto |].
      apply list_elem_of_singleton in Hc'. congruence.
    + exists vc. split; [reflexivity |].
      intros c' Hc' Hsome. apply elem_of_app in Hc'.
      destruct Hc' as [Hc' | Hc']; [auto |].
      apply list_elem_of_singleton in Hc'. subst c'.
      rewrite Hel in Hsome. destruct Hsome. discriminate.
Qed.

Lemma nested_loop {A} (g : World → A → World) (l : list (string * list A)) w :
  foldl (λ w (p : string * list A), foldl g w p.2) w l
  = foldl g w (mjoin (snd <$> l)).
Proof.
  revert w. induction l as [| [k v] l IH]; intros w; [reflexivity |].
  cbn [foldl fmap list_fmap snd mjoin list_join]. rewrite foldl_app. apply IH.
Qed.

End ShowAllOff.

(** When a question depends on a later one the re-evaluation leaves a
    stale target: X is re-evaluated (T2 shown) before P, whose
    evaluation hides T1 and clears X; T2 stays shown although its
    condition no longer holds. *)
Lemma show_all_off_leaves_stale_target :
  let w := setShowAll false ForwardSample.showing_all in
  manualOverrides w = []
  ∧ targetEl (mkCond "T2" [1%Z] false) (doc w) = Some 0%nat
  ∧ has_show (doc w) 0 = true
  ∧ radio_value "X" (doc w) = ""
  ∧ isConditionMet "T2" w = false.
Proof. vm_compute. repeat split. Qed.

(** [setShowAll(false)] turns show-all mode off, empties the whole
    override set and re-evaluates every parent of the table in order;
    when the table and markup are well formed and no parent lies inside
    a target of the same or a later parent, every target that has an
    element then carries [show] exactly when its condition holds on the
    final answers. *)
Lemma show_all_off_restores_conditions (w : World) :
  table_wf (conditionMap w) (doc w) →
  parents_before_targets (conditionMap w) (doc w) →
  let w' := setShowAll false w in
  showAll w' = false
  ∧ manualOverrides w' = []
  ∧ ∀ P cs c el,
      (P, cs) ∈ conditionMap w → c ∈ cs → targetEl c (doc w') = Some el →
      (has_show (doc w') el = true ↔ entry_condition (doc w') P c).
Proof.
  intros Hwf Hord w'. subst w'. unfold setShowAll.
  rewrite nested_loop.
  destruct (delete_loop (mjoin (snd <$> conditionMap (set_showAll false w)))
              (set_showAll false w)) as (vc & -> & Hvc).
  change (conditionMap (set_showAll false w)) with (conditionMap w) in *.
  change (conditionMap (set_visibilityCache vc (set_showAll false w)))
    with (conditionMap w).
  set (w1 := set_manualOverrides []
               (set_visibilityCache vc (set_showAll false w))).
  assert (Hinv : reevaluated (conditionMap w) 0 w1).
  { unfold reevaluated. repeat split; try assumption; try apply Hwf.
    - intros. lia.
    - intros. lia.
    - intros j P cs c _ Hlook Hc Hel. apply Hvc; [| exact Hel].
      apply list_elem_of_join. exists cs. split; [exact Hc |].
      apply list_elem_of_fmap. exists (P, cs). split; [reflexivity |].
      apply list_elem_of_lookup. eauto. }
  pose proof (reevaluated_all _ _ _ Hinv) as Hfinal.
  rewrite drop_0 in Hfinal. cbn [Nat.max] in Hfinal.
  destruct Hfinal as (Hs & Ho & _ & _ & _ & Hdone & _).
  split; [exact Hs |]. split; [exact Ho |].
  intros P cs c el HP Hc Hel. apply list_elem_of_lookup in HP.
  destruct HP as [i Hi]. apply (Hdone i P cs c el); try assumption.
  apply lookup_lt_Some in Hi. exact Hi.
Qed.

(** C9. On the generated form the claim fails.  With show-all mode on,
    A14 is answered 1 while option 2 of Q6_1 is ticked and Q6_1_1 is
    answered.  [setShowAll(false)] does turn the mode off and empty the
    override set, but it re-evaluates Q6_1 and Q6_1_1 (their targets
    stay shown) before A14, whose evaluation hides the section and
    clears the answers of Q6_1 and Q6_1_1; nothing re-evaluates them, so
    Q6_1_1 keeps [show] although its real condition is no longer met.
    Once A14 is corrected to 2 the section is shown again and Q6_1_1 is
    displayed with its condition unmet. *)
Theorem show_all_off_leaves_nested_target_shown :
  showAll GeneratedSample.turned_off = false
  ∧ manualOverrides GeneratedSample.turned_off = []
  ∧ targetEl (mkCond "Q6_1_1" [2%Z] false) (doc GeneratedSample.turned_off)
    = Some 17%nat
  ∧ has_show (doc GeneratedSample.turned_off) 17 = true
  ∧ ¬ real_condition_met GeneratedSample.turned_off "Q6_1_1"
  ∧ displayed (doc GeneratedSample.corrected) 17 = true
  ∧ ¬ real_condition_met GeneratedSample.corrected "Q6_1_1".
Proof.
  split; [vm_compute; reflexivity |]. split; [vm_compute; reflexivity |].
  split; [vm_compute; reflexivity |]. split; [vm_compute; reflexivity |].
  split; [| split; [vm_compute; reflexivity |]];
    rewrite <- isConditionMet_spec; vm_compute; discriminate.
Qed.

(** ** The cache stays coherent

    The hypothesis of C1 on the cache holds at start-up and is kept by
    the operations of the evaluator. *)

Section Coherence.

Lemma coherent_empty_cache w : visibilityCache w = ∅ → cache_coherent w.
Proof.
  intros He P cs c el b _ _ _ _ _ H. rewrite He, lookup_empty in H.
  discriminate.
Qed.

Lemma coherent_show_all w : showAll w = true → cache_coherent w.
Proof. intros Hs P cs c el b _ _ _ H. congruence. Qed.

Lemma NoDup_targetId cs c c' :
  NoDup (targetId <$> cs) → c ∈ cs → c' ∈ cs → targetId c = targetId c' →
  c = c'.
Proof.
  induction cs as [| c0 cs IH]; intros Hnd Hc Hc' Heq.
  - apply elem_of_nil in Hc. contradiction.
  - rewrite fmap_cons in Hnd. apply NoDup_cons in Hnd.
    destruct Hnd as [Hnotin Hnd].
    apply elem_of_cons in Hc. apply elem_of_cons in Hc'.
    destruct Hc as [-> | Hc], Hc' as [-> | Hc']; [reflexivity | | | auto].
    + exfalso. apply Hnotin. rewrite Heq. apply list_elem_of_fmap_2. exact Hc'.
    + exfalso. apply Hnotin. rewrite <- Heq. apply list_elem_of_fmap_2.
      exact Hc.
Qed.

Lemma coherent_eval_all f P cs w :
  table_wf (conditionMap w) (doc w) → (P, cs) ∈ conditionMap w →
  cache_coherent w → cache_coherent (eval_all f cs w).
Proof.
  intros Hwf HP Hcoh P' cs' c' el' b HP' Hc' Hel' Hs' Ho' Hcache.
  pose proof (evolves_keeps _ _ (eval_all_evolves f cs w))
    as (Hshape & Hs & Ho & Hcfg & _).
  assert (Hcm : conditionMap (eval_all f cs w) = conditionMap w)
    by (unfold conditionMap; rewrite Hcfg; reflexivity).
  rewrite Hcm in HP'. rewrite Hs in Hs'. unfold overridden in Ho'.
  rewrite Ho in Ho'. fold (overridden w (targetId c')) in Ho'.
  rewrite (targetEl_same_shape _ _ _ Hshape) in Hel'.
  destruct (decide (c' ∈ cs)) as [Hin | Hnotin].
  - destruct (eval_all_show f cs w c' el') as [H1 H2]; try assumption.
    + apply (wf_once _ _ Hwf P cs HP).
    + intros c0 Hc0 Hne Hel0. apply Hne.
      apply (wf_elements _ _ Hwf P cs P cs c0 c' el'); assumption.
    + apply (wf_blocks _ _ Hwf P cs c' el'); assumption.
    + intros b'. apply (Hcoh P cs c' el' b'); assumption.
    + congruence.
  - destruct (eval_all_other f cs w (targetId c') el') as [H1 H2].
    + intros c Hc. split.
      * intros Heq. apply list_elem_of_lookup in HP, HP'.
        destruct HP as [i Hi], HP' as [j Hj].
        pose proof (wf_single _ _ Hwf i j P cs P' cs' c c' Hi Hj Hc Hc' Heq)
          as ->.
        assert (cs' = cs) as -> by congruence. contradiction.
      * intros Hel. apply Hnotin.
        rewrite <- (wf_elements _ _ Hwf P cs P' cs' c c' el'); assumption.
    + apply (wf_blocks _ _ Hwf P' cs' c' el'); assumption.
    + rewrite H1. rewrite H2 in Hcache.
      apply (Hcoh P' cs' c' el' b); assumption.
Qed.

Lemma coherent_evaluate P ft w :
  table_wf (conditionMap w) (doc w) →
  cache_coherent w → cache_coherent (evaluate P ft w).
Proof.
  intros Hwf Hcoh. unfold evaluate.
  destruct (JS.get (conditionMap w) P) as [cs |] eqn:Hget; [| exact Hcoh].
  apply get_elem_of in Hget.
  destruct (bool_decide (ft = "checkbox"));
    eapply (coherent_eval_all _ P cs); eassumption.
Qed.

Lemma table_wf_evaluate P ft w :
  table_wf (conditionMap w) (doc w) →
  table_wf (conditionMap (evaluate P ft w)) (doc (evaluate P ft w)).
Proof.
  intros Hwf.
  pose proof (evolves_keeps _ _ (evaluate_evolves P ft w))
    as (Hshape & _ & _ & Hcfg & _).
  unfold conditionMap in *. rewrite Hcfg.
  eapply table_wf_same_shape; eauto.
Qed.

Lemma coherent_reevaluate_all keys w :
  table_wf (conditionMap w) (doc w) →
  cache_coherent w → cache_coherent (reevaluate_all keys w).
Proof.
  revert w. induction keys as [| P keys IH]; intros w Hwf Hcoh; [exact Hcoh |].
  rewrite reevaluate_all_cons.
  apply IH; [apply table_wf_evaluate | apply coherent_evaluate]; assumption.
Qed.

(** Whatever the state before, the cache is coherent after
    [setShowAll]. *)
Lemma coherent_setShowAll flag w :
  table_wf (conditionMap w) (doc w) → cache_coherent (setShowAll flag w).
Proof.
  intros Hwf. destruct flag.
  - apply coherent_show_all. unfold setShowAll. rewrite nested_loop.
    generalize (mjoin (snd <$> conditionMap (set_showAll true w))).
    intros conds.
    assert (H : ∀ w0, showAll w0 = true →
                showAll (foldl (setShowAll_body true) w0 conds) = true).
    { induction conds as [| c conds IH]; intros w0 H0; [exact H0 |].
      cbn [foldl]. apply IH. unfold setShowAll_body.
      destruct (targetEl c (doc w0)); [| exact H0].
      unfold _updateToggleIcon. world_simpl.
      destruct (toggleButtons w0 !! targetId c); exact H0. }
    apply H. reflexivity.
  - unfold setShowAll. rewrite nested_loop.
    destruct (delete_loop (mjoin (snd <$> conditionMap (set_showAll false w)))
                (set_showAll false w)) as (vc & -> & Hvc).
    apply coherent_reevaluate_all; [exact Hwf |].
    intros P cs c el b HP Hc Hel _ _ Hcache. world_simpl.
    rewrite Hvc in Hcache; [discriminate | | eauto].
    apply list_elem_of_join. exists cs. split; [exact Hc |].
    apply list_elem_of_fmap. exists (P, cs). split; [reflexivity | exact HP].
Qed.

Lemma overrides_delete_other t t' l :
  t' ≠ t → t' ∈ overrides_delete t l ↔ t' ∈ l.
Proof.
  intros Hne. unfold overrides_delete. rewrite list_elem_of_filter. tauto.
Qed.

Lemma coherent_closeBranches_body w closed c :
  cache_coherent w → cache_coherent (closeBranches_body (w, closed) c).1.
Proof.
  intros Hcoh. unfold closeBranches_body.
  destruct (overridden w (targetId c)); [| exact Hcoh].
  cbn [fst]. intros P' cs' c' el' b HP' Hc' Hel' Hs' Ho' Hcache.
  world_simpl. destruct (decide (targetId c = targetId c')) as [Heq | Hne].
  - rewrite Heq, lookup_delete_eq in Hcache. discriminate.
  - rewrite lookup_delete_ne in Hcache by exact Hne.
    apply (Hcoh P' cs' c' el' b); try assumption.
    unfold overridden in *. world_simpl.
    rewrite <- Ho'. apply bool_decide_ext. symmetry.
    apply overrides_delete_other. congruence.
Qed.

Lemma closeBranches_body_keeps acc c :
  doc (closeBranches_body acc c).1 = doc acc.1
  ∧ config (closeBranches_body acc c).1 = config acc.1.
Proof.
  destruct acc as [w closed]. unfold closeBranches_body.
  destruct (overridden w (targetId c)); auto.
Qed.

Lemma coherent_closeBranches P w :
  table_wf (conditionMap w) (doc w) →
  cache_coherent w → cache_coherent (closeBranchesForParent P w).1.
Proof.
  intros Hwf Hcoh. unfold closeBranchesForParent.
  destruct (JS.get (conditionMap w) P) as [cs |]; [| exact Hcoh].
  assert (Hfold : ∀ acc : World * bool,
            cache_coherent acc.1 →
            cache_coherent (foldl closeBranches_body acc cs).1
            ∧ doc (foldl closeBranches_body acc cs).1 = doc acc.1
            ∧ config (foldl closeBranches_body acc cs).1 = config acc.1).
  { induction cs as [| c cs IH]; intros acc Hacc; [auto |].
    cbn [foldl]. destruct (closeBranches_body_keeps acc c) as [<- <-].
    apply IH. destruct acc as [w0 closed].
    apply coherent_closeBranches_body. exact Hacc. }
  destruct (Hfold (w, false) Hcoh) as (H1 & H2 & H3).
  destruct (foldl closeBranches_body (w, false) cs) as [w1 closed].
  cbn [fst] in *. destruct closed; [| exact H1]. cbn [fst].
  apply coherent_evaluate; [| exact H1].
  unfold conditionMap. rewrite H2, H3. exact Hwf.
Qed.

Lemma coherent_openBranches_body w opened P cs c :
  table_wf (conditionMap w) (doc w) → (P, cs) ∈ conditionMap w → c ∈ cs →
  cache_coherent w → cache_coherent (openBranches_body (w, opened) c).1.
Proof.
  intros Hwf HP Hc Hcoh. unfold openBranches_body.
  destruct (targetEl c (doc w)) as [el |] eqn:Hel; [| exact Hcoh].
  destruct (negb (matches_at _ _ _)); [exact Hcoh |].
  destruct (negb (has_show _ _)); [| exact Hcoh].
  cbn [fst]. intros P' cs' c' el' b HP' Hc' Hel' Hs' Ho' Hcache.
  match type of Hel' with
  | context [_updateToggleIcon ?t ?o ?m ?w2] =>
      pose proof (evolves_keeps _ _ (updateToggleIcon_evolves t o m w2))
        as (_ & Hsa & Hm & Hcfg & _);
      pose proof (updateToggleIcon_doc t o m w2) as Hd;
      pose proof (updateToggleIcon_cache t o m w2) as Hv
  end.
  unfold overridden, conditionMap in *.
  rewrite Hd in *. rewrite Hm in Ho'. rewrite Hv in Hcache.
  rewrite Hsa in Hs'. rewrite Hcfg in HP'. world_simpl.
  assert (Hshape : same_shape (doc w) (alter (class_add "show") el (doc w))).
  { apply same_shape_alter. intros e. apply shape_class_add, dynamic_show. }
  rewrite (targetEl_same_shape _ _ _ Hshape) in Hel'.
  apply bool_decide_eq_false in Ho'. unfold overrides_set in Ho'.
  assert (Hno : (targetId c' ∉ manualOverrides w)
                ∧ (targetId c' ≠ targetId c)).
  { destruct (bool_decide (targetId c ∈ manualOverrides w)) eqn:Hb.
    - apply bool_decide_eq_true in Hb. split; [exact Ho' | congruence].
    - rewrite elem_of_app, list_elem_of_singleton in Ho'. tauto. }
  destruct Hno as [Hno Hne].
  assert (el ≠ el').
  { intros ->. apply Hne. f_equal. symmetry.
    apply (wf_elements _ _ Hwf P cs P' cs' c c' el'); assumption. }
  rewrite has_show_alter_ne by assumption.
  apply (Hcoh P' cs' c' el' b); try assumption.
  apply bool_decide_eq_false. exact Hno.
Qed.

Lemma openBranches_body_keeps acc c :
  same_shape (doc acc.1) (doc (openBranches_body acc c).1)
  ∧ config (openBranches_body acc c).1 = config acc.1.
Proof.
  destruct acc as [w opened]. unfold openBranches_body. cbn [fst].
  destruct (targetEl c (doc w)) as [el |]; [| split; reflexivity].
  destruct (negb (matches_at _ _ _)); [split; reflexivity |].
  destruct (negb (has_show _ _)); [| split; reflexivity].
  cbn [fst]. rewrite updateToggleIcon_doc.
  match goal with
  | |- context [_updateToggleIcon ?t ?o ?m ?w2] =>
      pose proof (evolves_keeps _ _ (updateToggleIcon_evolves t o m w2))
        as (_ & _ & _ & -> & _)
  end.
  split; [| reflexivity]. world_simpl.
  apply same_shape_alter. intros e. apply shape_class_add, dynamic_show.
Qed.

Lemma coherent_openBranches P w :
  table_wf (conditionMap w) (doc w) →
  cache_coherent w → cache_coherent (openBranchesForParent P w).1.
Proof.
  intros Hwf Hcoh. unfold openBranchesForParent.
  destruct (JS.get (conditionMap w) P) as [cs |] eqn:Hget; [| exact Hcoh].
  apply get_elem_of in Hget.
  assert (Hfold : ∀ l (acc : World * bool),
            (∀ c, c ∈ l → c ∈ cs) →
            conditionMap acc.1 = conditionMap w →
            table_wf (conditionMap w) (doc acc.1) →
            cache_coherent acc.1 →
            cache_coherent (foldl openBranches_body acc l).1).
  { induction l as [| c l IH]; intros acc Hl Hcm Hwf' Hacc; [exact Hacc |].
    cbn [foldl]. destruct (openBranches_body_keeps acc c) as [Hshape Hcfg].
    apply IH.
    - intros c' Hc'. apply Hl. right. exact Hc'.
    - unfold conditionMap in *. rewrite Hcfg. exact Hcm.
    - eapply table_wf_same_shape; eauto.
    - destruct acc as [w0 opened]. cbn [fst] in *.
      apply (coherent_openBranches_body w0 opened P cs c);
        rewrite ?Hcm; try assumption.
      apply Hl. left. }
  apply (Hfold cs (w, false)); auto.
Qed.

(** The element [toggleManual] acts on. *)
Lemma coherent_toggleManual t w :
  table_wf (conditionMap w) (doc w) →
  (∀ P cs c el,
     (P, cs) ∈ conditionMap w → c ∈ cs → targetEl c (doc w) = Some el →
     (match getElementById (doc w) ("q_" ++ t) with
      | Some x => Some x
      | None => getElementById (doc w) t
      end) = Some el →
     targetId c = t) →
  cache_coherent w → cache_coherent (toggleManual t w).
Proof.
  intros Hwf Hel Hcoh. unfold toggleManual.
  destruct (match getElementById (doc w) ("q_" ++ t) with
            | Some x => Some x
            | None => getElementById (doc w) t
            end) as [el |] eqn:Hfound; [| exact Hcoh].
  destruct (overridden w t) eqn:Hov.
  - cbv zeta. unfold _updateToggleButton.
    match goal with
    | |- cache_coherent (_updateToggleIcon t ?o ?m ?w3) =>
        assert (H3 : cache_coherent w3);
        [| intros P' cs' c' el' b;
           pose proof (evolves_keeps _ _ (updateToggleIcon_evolves t o m w3))
             as (_ & Hsa & Hm & Hcfg & _);
           unfold overridden, conditionMap;
           rewrite updateToggleIcon_doc, updateToggleIcon_cache, Hsa, Hm, Hcfg;
           apply (H3 P' cs' c' el' b)]
    end.
    set (w2 := set_visibilityCache _ _).
    assert (H2 : cache_coherent w2).
    { intros P' cs' c' el' b HP' Hc' Hel' Hs' Ho' Hcache. subst w2.
      unfold overridden in *. world_simpl.
      destruct (decide (t = targetId c')) as [-> | Hne].
      - rewrite lookup_delete_eq in Hcache. discriminate.
      - rewrite lookup_delete_ne in Hcache by exact Hne.
        apply (Hcoh P' cs' c' el' b); try assumption.
        unfold overridden. rewrite <- Ho'. apply bool_decide_ext. symmetry.
        apply overrides_delete_other. congruence. }
    unfold _reevaluateForTarget.
    destruct (List.find _ _) as [[parentId conditions] |]; [| exact H2].
    apply coherent_evaluate; [exact Hwf | exact H2].
  - cbv zeta. unfold _updateToggleButton.
    intros P' cs' c' el' b.
    match goal with
    | |- context [_updateToggleIcon t ?o ?m ?w2] =>
        pose proof (evolves_keeps _ _ (updateToggleIcon_evolves t o m w2))
          as (_ & Hsa & Hm & Hcfg & _);
        unfold overridden, conditionMap;
        rewrite updateToggleIcon_doc, updateToggleIcon_cache, Hsa, Hm, Hcfg
    end.
    world_simpl. intros HP' Hc' Hel' Hs' Ho' Hcache.
    assert (Hshape : same_shape (doc w) (alter (class_add "show") el (doc w))).
    { apply same_shape_alter. intros e. apply shape_class_add, dynamic_show. }
    rewrite (targetEl_same_shape _ _ _ Hshape) in Hel'.
    apply bool_decide_eq_false in Ho'. unfold overrides_set in Ho'.
    assert (Hno : (targetId c' ∉ manualOverrides w) ∧ (targetId c' ≠ t)).
    { destruct (bool_decide (t ∈ manualOverrides w)) eqn:Hb.
      - apply bool_decide_eq_true in Hb. split; [exact Ho' | congruence].
      - rewrite elem_of_app, list_elem_of_singleton in Ho'. tauto. }
    destruct Hno as [Hno Hne].
    assert (el ≠ el').
    { intros Heq. subst. apply Hne.
      exact (Hel P' cs' c' el' HP' Hc' Hel' eq_refl). }
    rewrite has_show_alter_ne by assumption.
    apply (Hcoh P' cs' c' el' b); try assumption.
    apply bool_decide_eq_false. exact Hno.
Qed.

(** Writes that leave every class alone (answers typed or checked by
    the operator) keep the cache coherent. *)
Lemma coherent_answers d' w :
  same_shape (doc w) d' → (∀ el, has_show d' el = has_show (doc w) el) →
  cache_coherent w → cache_coherent (set_doc d' w).
Proof.
  intros Hshape Hshow Hcoh P cs c el b HP Hc Hel Hs Ho Hcache.
  world_simpl. rewrite (targetEl_same_shape _ _ _ Hshape) in Hel.
  rewrite Hshow. apply (Hcoh P cs c el b); assumption.
Qed.

End Coherence.

(** ** The statements at sample inputs *)

Ltac table_entries :=
  repeat match goal with
         | H : _ ∈ _ :: _ |- _ =>
             apply elem_of_cons in H; destruct H as [H | H];
             [first [injection H as -> -> | subst] |]
         | H : _ ∈ [] |- _ => apply elem_of_nil in H; contradiction
         | H : (_ :: _) !! ?i = Some _ |- _ =>
             destruct i; cbn in H; [injection H as <- <- |]
         | H : [] !! _ = Some _ |- _ => discriminate H
         end.

Lemma nested_table_wf d :
  same_shape NestedSample.document d →
  table_wf (cfg_conditionMap NestedSample.configuration) d.
Proof.
  intros Hs. apply (table_wf_same_shape _ NestedSample.document d Hs).
  split; cbn [cfg_conditionMap NestedSample.configuration].
  - cbn. apply NoDup_cons. split; [| apply NoDup_singleton].
    intros H. apply list_elem_of_singleton in H. discriminate.
  - intros P cs H. table_entries; apply NoDup_singleton.
  - intros i j P cs P' cs' c c' Hi Hj Hc Hc' Ht.
    table_entries; table_entries; try reflexivity; discriminate.
  - intros P cs P' cs' c c' el HP HP' Hc Hc' Hel Hel'.
    table_entries; table_entries; try reflexivity;
      vm_compute in Hel, Hel'; congruence.
  - intros P cs c el HP Hc Hel.
    table_entries; table_entries; vm_compute in Hel; injection Hel as <-;
      reflexivity.
Qed.

Lemma date_table_wf d :
  same_shape DateSample.document d →
  table_wf (cfg_conditionMap DateSample.configuration) d.
Proof.
  intros Hs. apply (table_wf_same_shape _ DateSample.document d Hs).
  split; cbn [cfg_conditionMap DateSample.configuration].
  - cbn. apply NoDup_singleton.
  - intros P cs H. table_entries; apply NoDup_singleton.
  - intros i j P cs P' cs' c c' Hi Hj Hc Hc' Ht.
    table_entries; table_entries; reflexivity.
  - intros P cs P' cs' c c' el HP HP' Hc Hc' Hel Hel'.
    table_entries; table_entries; reflexivity.
  - intros P cs c el HP Hc Hel.
    table_entries; table_entries; vm_compute in Hel; injection Hel as <-;
      reflexivity.
Qed.

Lemma date_parents_before_targets d :
  same_shape DateSample.document d →
  parents_before_targets (cfg_conditionMap DateSample.configuration) d.
Proof.
  intros Hs.
  apply (parents_before_targets_same_shape _ DateSample.document d Hs).
  intros i j Pi csi Pj csj c el k e Hi Hj _ Hc Hel He Hn.
  cbn [cfg_conditionMap DateSample.configuration] in Hi, Hj.
  revert Hn He. table_entries. table_entries. table_entries.
  intros Hn He. vm_compute in Hel. injection Hel as <-.
  assert (Hall : Forall (λ e, el_name e = "P" → under 6 e = false)
                   DateSample.document).
  { repeat constructor; intros H; first [reflexivity | discriminate H]. }
  rewrite Forall_lookup in Hall. exact (Hall k e He Hn).
Qed.

Lemma answered_selected_value :
  selected_value (doc ConditionSample.answered) "A" "1".
Proof.
  exists 3%nat. eexists.
  split; [split; [reflexivity | cbn; auto] |]. split; [reflexivity |].
  intros j e' Hlt (Hj & Htag & _ & Hchecked & _).
  do 3 (destruct j as [| j];
        [vm_compute in Hj; injection Hj as <-;
         first [discriminate Htag | discriminate Hchecked] |]).
  lia.
Qed.

Lemma evaluate_shows_iff_condition_witness :
  selected_value (doc ConditionSample.answered) "A" "1"
  ∧ has_show (doc (evaluate "A" "radio" ConditionSample.answered)) 6 = true.
Proof.
  split; [exact answered_selected_value |].
  apply (evaluate_shows_iff_condition ConditionSample.answered "A" "radio"
           [ConditionSample.entry] ConditionSample.entry 6).
  - apply nested_table_wf. apply same_shape_check.
  - intros P cs c el b _ _ _ _ _ H.
    change (visibilityCache ConditionSample.answered) with (∅ : gmap string bool)
      in H.
    rewrite lookup_empty in H. discriminate.
  - reflexivity.
  - left.
  - vm_compute. reflexivity.
  - reflexivity.
  - vm_compute. reflexivity.
  - exists "1", 1%Z. split; [exact answered_selected_value |].
    split; [discriminate |]. split; [reflexivity |]. left.
Defined.

Lemma show_all_off_on_date_sample :
  showAll (setShowAll false ShowAllSample.showing_all) = false
  ∧ manualOverrides (setShowAll false ShowAllSample.showing_all) = [].
Proof.
  assert (Hs : same_shape DateSample.document
                 (doc ShowAllSample.showing_all)).
  { vm_compute. reflexivity. }
  pose proof (show_all_off_restores_conditions ShowAllSample.showing_all
                (date_table_wf _ Hs) (date_parents_before_targets _ Hs)) as H.
  cbv zeta in H. destruct H as (H1 & H2 & _). split; assumption.
Defined.

(** ** Cursor movement *)

Section Cursor.

Lemma maxRow_nonneg tc : (0 ≤ maxRow_of tc)%Z.
Proof.
  unfold maxRow_of.
  destruct (tc ≫= rowNames) as [[| r rows] |]; cbn [length]; lia.
Qed.

Lemma getTableConfig_at w : getTableConfig w = tableConfig_at w (questionIndex w).
Proof. reflexivity. Qed.

Lemma tableConfig_at_moved w i row ev j :
  tableConfig_at (emit ev (set_tableRowIndex row (set_questionIndex i w))) j
  = tableConfig_at w j.
Proof. reflexivity. Qed.

Lemma setQuestionIndex_accepts i o w :
  (-1 ≤ i < Z.of_nat (length (questionList w)))%Z →
  let row := if is_table (nth_Z (questionList w) i) (doc w)
             then default 0%Z (opt_tableRow o) else 0%Z in
  setQuestionIndex i o w
  = (emit (questionChange (questionIndex w) i row (opt_skipScroll o)
             (opt_skipFocus o))
       (set_tableRowIndex row (set_questionIndex i w)), true).
Proof.
  intros Hi row. subst row. unfold setQuestionIndex.
  replace ((i <? -1)%Z || (Z.of_nat (length (questionList w)) <=? i)%Z)
    with false by (symmetry; apply orb_false_iff; split;
                   [apply Z.ltb_ge | apply Z.leb_gt]; lia).
  unfold getCurrentQuestion. world_simpl.
  destruct (is_table (nth_Z (questionList w) i) (doc w)); reflexivity.
Qed.

Lemma setQuestionIndex_rejects i o w :
  (i < -1 ∨ Z.of_nat (length (questionList w)) ≤ i)%Z →
  setQuestionIndex i o w = (w, false).
Proof.
  intros Hi. unfold setQuestionIndex.
  replace ((i <? -1)%Z || (Z.of_nat (length (questionList w)) <=? i)%Z)
    with true; [reflexivity |].
  symmetry. apply orb_true_iff.
  destruct Hi; [left; apply Z.ltb_lt | right; apply Z.leb_le]; lia.
Qed.

Lemma setQuestionIndex_keeps i o w :
  doc (setQuestionIndex i o w).1 = doc w
  ∧ questionList (setQuestionIndex i o w).1 = questionList w.
Proof.
  unfold setQuestionIndex. destruct (_ || _); [auto |].
  destruct (is_table _ _); auto.
Qed.

Lemma is_table_at w i :
  is_table (nth_Z (questionList w) i) (doc w) = false →
  tableConfig_at w i = None.
Proof.
  unfold tableConfig_at. destruct (nth_Z (questionList w) i) as [q |];
    [| reflexivity].
  intros ->. reflexivity.
Qed.

Lemma cursor_ok_moved w i row ev :
  (-1 ≤ i < Z.of_nat (length (questionList w)))%Z →
  (0 ≤ row ≤ maxRow_of (tableConfig_at w i))%Z →
  cursor_ok (emit ev (set_tableRowIndex row (set_questionIndex i w))).
Proof.
  intros Hi Hrow. split; [exact Hi |]. exact Hrow.
Qed.

Lemma cursor_ok_setQuestionIndex_row i o w :
  cursor_ok w →
  (∀ r, opt_tableRow o = Some r →
        (0 ≤ r ≤ maxRow_of (tableConfig_at w i))%Z) →
  cursor_ok (setQuestionIndex i o w).1.
Proof.
  intros Hok Hrow.
  destruct (Z_lt_dec i (-1)) as [Hlo | Hlo];
    [rewrite setQuestionIndex_rejects by lia; exact Hok |].
  destruct (Z_le_dec (Z.of_nat (length (questionList w))) i) as [Hhi | Hhi];
    [rewrite setQuestionIndex_rejects by lia; exact Hok |].
  rewrite setQuestionIndex_accepts by lia. cbn [fst].
  apply cursor_ok_moved; [lia |].
  pose proof (maxRow_nonneg (tableConfig_at w i)).
  destruct (is_table _ _); [| lia].
  destruct (opt_tableRow o) as [r |]; cbn [default]; [auto | lia].
Qed.

Lemma cursor_ok_setQuestionIndex i skipScroll skipFocus w :
  cursor_ok w →
  cursor_ok (setQuestionIndex i (mkOptions None skipScroll skipFocus) w).1.
Proof.
  intros Hok. apply cursor_ok_setQuestionIndex_row; [exact Hok |].
  intros r Hr. discriminate Hr.
Qed.

Lemma cursor_ok_setTableRowIndex i w :
  cursor_ok w → cursor_ok (setTableRowIndex i w).1.
Proof.
  intros Hok. unfold setTableRowIndex.
  destruct (getTableConfig w) as [tc |] eqn:Htc; [| exact Hok].
  destruct (Z.ltb_spec i 0) as [Hlo | Hlo]; [exact Hok |].
  destruct (Z.ltb_spec (maxRow_of (Some tc)) i) as [Hhi | Hhi]; [exact Hok |].
  cbn [orb fst]. split; [apply Hok |].
  change (getTableConfig _) with (getTableConfig w). rewrite Htc.
  world_simpl. lia.
Qed.

Lemma movePrev_retreats_row (w : World) :
  cursor_ok w → (0 < tableRowIndex w)%Z →
  movePrev w
  = (emit (tableRowChange (tableRowIndex w - 1) (getCurrentQuestion w))
       (set_tableRowIndex (tableRowIndex w - 1) w), true).
Proof.
  intros [_ Hrow] Hpos.
  assert (Htc : ∃ tc, getTableConfig w = Some tc).
  { destruct (getTableConfig w) as [tc |]; [eauto |]. cbn in Hrow. lia. }
  destruct Htc as [tc Htc].
  assert (Htable : is_table (getCurrentQuestion w) (doc w) = true).
  { unfold getTableConfig in Htc.
    destruct (getCurrentQuestion w) as [q |]; [| discriminate].
    destruct (is_table (Some q) (doc w)); [reflexivity | discriminate]. }
  unfold movePrev. rewrite Htable.
  replace (0 <? tableRowIndex w)%Z with true by (symmetry; apply Z.ltb_lt; lia).
  unfold setTableRowIndex. rewrite Htc. rewrite Htc in Hrow.
  replace ((tableRowIndex w - 1 <? 0)%Z
           || (maxRow_of (Some tc) <? tableRowIndex w - 1)%Z) with false;
    [reflexivity |].
  symmetry. apply orb_false_iff. split; apply Z.ltb_ge; lia.
Qed.

Lemma row_below_max_table w :
  (0 < maxRow_of (getTableConfig w))%Z →
  is_table (getCurrentQuestion w) (doc w) = true.
Proof.
  intros Hrow. unfold getTableConfig in Hrow.
  destruct (getCurrentQuestion w) as [q |]; [| cbn in Hrow; lia].
  destruct (is_table (Some q) (doc w)); [reflexivity | cbn in Hrow; lia].
Qed.

End Cursor.

Lemma run_nav_cursor_ok (w : World) (op : NavOp) :
  cursor_ok w → row_option_ok w op → cursor_ok (run_nav w op).
Proof.
  intros Hok Hopt. pose proof Hok as [Hidx Hrow].
  destruct op as [| | | q o | i o | i]; cbn [run_nav].
  - destruct (Z_lt_dec (tableRowIndex w) (maxRow_of (getTableConfig w)))
      as [Hlt | Hge].
    + rewrite moveNext_advances_row;
        [| apply row_below_max_table; lia | lia].
      cbn [fst]. split; [apply Hok |].
      change (getTableConfig _) with (getTableConfig w). world_simpl. lia.
    + destruct (moveNext_scans_forward w) as [(j & Hj & _ & _ & ->) | [_ ->]];
        [apply Hok | right; lia | |]; cbn [fst]; [| exact Hok].
      apply cursor_ok_moved; [lia |].
      pose proof (maxRow_nonneg (tableConfig_at w j)). lia.
  - destruct (Z_lt_dec 0 (tableRowIndex w)) as [Hpos | Hzero].
    + rewrite movePrev_retreats_row by assumption. cbn [fst].
      split; [apply Hok |].
      change (getTableConfig _) with (getTableConfig w). world_simpl. lia.
    + destruct (movePrev_scans_backward w)
        as [(j & q & Hj & _ & _ & Hq & ->) | [_ ->]];
        [right; lia | lia | |]; cbn [fst].
      * apply cursor_ok_moved; [lia |].
        unfold tableConfig_at. rewrite Hq.
        destruct (is_table (Some q) (doc w));
          [pose proof (maxRow_nonneg (tableConfig_of q w)) |]; cbn; lia.
      * apply cursor_ok_moved; [lia |]. cbn. lia.
  - unfold focusId. apply cursor_ok_setQuestionIndex. exact Hok.
  - unfold focusQuestion.
    destruct (list_find _ _) as [[index q'] |] eqn:Hfind; [| exact Hok].
    apply list_find_Some in Hfind. destruct Hfind as (Hq & -> & _).
    apply cursor_ok_setQuestionIndex_row; [exact Hok |].
    intros r Hr. apply (Hopt r (Z.of_nat index) Hr).
    unfold nth_Z. replace (Z.of_nat index <? 0)%Z with false
      by (symmetry; apply Z.ltb_ge; lia).
    rewrite Nat2Z.id. exact Hq.
  - apply cursor_ok_setQuestionIndex_row; [exact Hok | exact Hopt].
  - apply cursor_ok_setTableRowIndex. exact Hok.
Qed.

Lemma setQuestionIndex_config i o w :
  config (setQuestionIndex i o w).1 = config w.
Proof.
  unfold setQuestionIndex. destruct (_ || _); [auto |].
  destruct (is_table _ _); auto.
Qed.

Lemma setTableRowIndex_keeps i w :
  doc (setTableRowIndex i w).1 = doc w
  ∧ questionList (setTableRowIndex i w).1 = questionList w.
Proof.
  unfold setTableRowIndex. destruct (getTableConfig w); [| auto].
  destruct (_ || _); auto.
Qed.

Lemma setTableRowIndex_config i w :
  config (setTableRowIndex i w).1 = config w.
Proof.
  unfold setTableRowIndex. destruct (getTableConfig w); [| auto].
  destruct (_ || _); auto.
Qed.

Lemma run_nav_keeps (w : World) (op : NavOp) :
  doc (run_nav w op) = doc w ∧ questionList (run_nav w op) = questionList w.
Proof.
  destruct op as [| | | q o | i o | i]; cbn [run_nav].
  - unfold moveNext. cbv zeta.
    destruct (if is_table _ _ then _ else None) as [r |] eqn:Hstep.
    + destruct (is_table _ _); [| discriminate].
      destruct (_ <? _)%Z; [| discriminate]. injection Hstep as <-.
      apply setTableRowIndex_keeps.
    + destruct (scan_next _ _ _); [apply setQuestionIndex_keeps | auto].
  - unfold movePrev. cbv zeta.
    destruct (if is_table _ _ then _ else None) as [r |] eqn:Hstep.
    + destruct (is_table _ _); [| discriminate].
      destruct (_ <? _)%Z; [| discriminate]. injection Hstep as <-.
      apply setTableRowIndex_keeps.
    + destruct (scan_prev _ _ _) as [i |]; [| apply setQuestionIndex_keeps].
      destruct (is_table (nth_Z (questionList w) i) (doc w));
        apply setQuestionIndex_keeps.
  - apply setQuestionIndex_keeps.
  - unfold focusQuestion.
    destruct (list_find _ _) as [[index _] |]; [| auto].
    apply setQuestionIndex_keeps.
  - apply setQuestionIndex_keeps.
  - apply setTableRowIndex_keeps.
Qed.

Lemma run_nav_config (w : World) (op : NavOp) :
  config (run_nav w op) = config w.
Proof.
  destruct op as [| | | q o | i o | i]; cbn [run_nav].
  - unfold moveNext. cbv zeta.
    destruct (if is_table _ _ then _ else None) as [r |] eqn:Hstep.
    + destruct (is_table _ _); [| discriminate].
      destruct (_ <? _)%Z; [| discriminate]. injection Hstep as <-.
      apply setTableRowIndex_config.
    + destruct (scan_next _ _ _); [apply setQuestionIndex_config | auto].
  - unfold movePrev. cbv zeta.
    destruct (if is_table _ _ then _ else None) as [r |] eqn:Hstep.
    + destruct (is_table _ _); [| discriminate].
      destruct (_ <? _)%Z; [| discriminate]. injection Hstep as <-.
      apply setTableRowIndex_config.
    + destruct (scan_prev _ _ _) as [i |]; [| apply setQuestionIndex_config].
      destruct (is_table (nth_Z (questionList w) i) (doc w));
        apply setQuestionIndex_config.
  - apply setQuestionIndex_config.
  - unfold focusQuestion.
    destruct (list_find _ _) as [[index _] |]; [| auto].
    apply setQuestionIndex_config.
  - apply setQuestionIndex_config.
  - apply setTableRowIndex_config.
Qed.

Lemma row_option_ok_run_nav (w : World) (op op' : NavOp) :
  row_option_ok w op' → row_option_ok (run_nav w op) op'.
Proof.
  destruct (run_nav_keeps w op) as [Hd Hq].
  pose proof (run_nav_config w op) as Hc.
  assert (Hat : ∀ j, tableConfig_at (run_nav w op) j = tableConfig_at w j).
  { intros j. unfold tableConfig_at, tableConfig_of. rewrite Hd, Hq, Hc.
    reflexivity. }
  destruct op' as [| | | q o | i o | i]; cbn [row_option_ok]; auto.
  - intros H r i Hr Hi. rewrite Hat. rewrite Hq in Hi. auto.
  - intros H r Hr. rewrite Hat. auto.
Qed.

(** X1. Whatever sequence of navigation calls is made, the cursor stays
    in range: the index is -1 or designates a question of the list, and
    the row lies between 0 and the last row of the current table,
    provided the [tableRow] options passed along, which
    [setQuestionIndex] stores unchecked, are rows of the tables they are
    passed for.  The question list is never written. *)
Theorem navigation_keeps_cursor_in_range (ops : list NavOp) (w : World) :
  cursor_ok w →
  Forall (row_option_ok w) ops →
  cursor_ok (foldl run_nav w ops)
  ∧ questionList (foldl run_nav w ops) = questionList w.
Proof.
  revert w. induction ops as [| op ops IH]; intros w Hok Hopts; [auto |].
  cbn [foldl]. apply Forall_cons in Hopts. destruct Hopts as [Hop Hopts].
  destruct (IH (run_nav w op)) as (H1 & H2).
  - apply run_nav_cursor_ok; assumption.
  - eapply Forall_impl; [exact Hopts |].
    intros op' Hop'. apply row_option_ok_run_nav. exact Hop'.
  - destruct (run_nav_keeps w op) as [_ Hq].
    split; [exact H1 | congruence].
Qed.

(** X2. From a cursor in range, [moveNext] does exactly one of three
    things: inside a table below its last row it advances the row and
    nothing else; otherwise it lands, row 0, on the first later position
    that [isVisible] accepts, skipping only rejected ones; when there is
    none it emits [reachEnd] and leaves the cursor where it is. *)
Theorem moveNext_cases (w : World) :
  cursor_ok w →
  let i := questionIndex w in
  let r := tableRowIndex w in
  let len := Z.of_nat (length (questionList w)) in
  ((r < maxRow_of (getTableConfig w))%Z
   ∧ moveNext w
     = (emit (tableRowChange (r + 1) (getCurrentQuestion w))
          (set_tableRowIndex (r + 1) w), true))
  ∨ (r = maxRow_of (getTableConfig w)
     ∧ ∃ j, (i < j < len)%Z ∧ visible_at w j = true
            ∧ (∀ k, (i < k < j)%Z → visible_at w k = false)
            ∧ moveNext w
              = (emit (questionChange i j 0 false false)
                   (set_tableRowIndex 0 (set_questionIndex j w)), true))
  ∨ (r = maxRow_of (getTableConfig w)
     ∧ (∀ k, (i < k < len)%Z → visible_at w k = false)
     ∧ moveNext w = (emit reachEnd w, false)).
Proof.
  intros [Hidx Hrow] i r len. subst i r len.
  destruct (Z_lt_dec (tableRowIndex w) (maxRow_of (getTableConfig w)))
    as [Hlt | Hge].
  - left. split; [exact Hlt |].
    apply moveNext_advances_row; [| lia].
    apply row_below_max_table; lia.
  - right.
    assert (Hlast : tableRowIndex w = maxRow_of (getTableConfig w)) by lia.
    destruct (moveNext_scans_forward w) as [(j & Hj) | Hnone];
      [lia | right; lia | left | right].
    + split; [exact Hlast |]. exists j. exact Hj.
    + split; [exact Hlast |]. exact Hnone.
Qed.

(** X3. From a cursor in range, [movePrev] does exactly one of three
    things: inside a table above its first row it goes back one row and
    nothing else; otherwise it lands on the nearest earlier position
    that [isVisible] accepts, on the last row when that question is a
    table and on row 0 otherwise; when there is none it goes to
    identifier entry. *)
Theorem movePrev_cases (w : World) :
  cursor_ok w →
  let i := questionIndex w in
  let r := tableRowIndex w in
  ((0 < r)%Z
   ∧ movePrev w
     = (emit (tableRowChange (r - 1) (getCurrentQuestion w))
          (set_tableRowIndex (r - 1) w), true))
  ∨ (r = 0%Z
     ∧ ∃ j, (0 ≤ j < i)%Z ∧ visible_at w j = true
            ∧ (∀ k, (j < k < i)%Z → visible_at w k = false)
            ∧ movePrev w
              = (emit (questionChange i j (maxRow_of (tableConfig_at w j))
                         false false)
                   (set_tableRowIndex (maxRow_of (tableConfig_at w j))
                      (set_questionIndex j w)), true))
  ∨ (r = 0%Z
     ∧ (∀ k, (0 ≤ k < i)%Z → visible_at w k = false)
     ∧ movePrev w
       = (emit (questionChange i (-1) 0 false false)
            (set_tableRowIndex 0 (set_questionIndex (-1) w)), true)).
Proof.
  intros Hok i r. subst i r. pose proof Hok as [Hidx Hrow].
  destruct (Z_lt_dec 0 (tableRowIndex w)) as [Hpos | Hzero].
  - left. split; [exact Hpos |]. apply movePrev_retreats_row; assumption.
  - right. assert (Hfirst : tableRowIndex w = 0%Z) by lia.
    destruct (movePrev_scans_backward w)
      as [(j & q & Hj & Hv & Hmin & Hq & Hmove) | Hnone];
      [right; lia | lia | left | right].
    + split; [exact Hfirst |]. exists j.
      split; [exact Hj |]. split; [exact Hv |]. split; [exact Hmin |].
      rewrite Hmove. unfold tableConfig_at. rewrite Hq.
      destruct (is_table (Some q) (doc w)); reflexivity.
    + split; [exact Hfirst |]. exact Hnone.
Qed.

Lemma visible_at_moved w i row ev k :
  visible_at (emit ev (set_tableRowIndex row (set_questionIndex i w))) k
  = visible_at w k.
Proof. reflexivity. Qed.

Lemma visible_at_id_entry w : visible_at w (-1) = false.
Proof. reflexivity. Qed.

(** X4. Going forward and then back returns to the same place: when the
    cursor is in range and rests on identifier entry or on a position
    that [isVisible] accepts, a successful [moveNext] followed by
    [movePrev] restores the question index and the table row. *)
Theorem movePrev_undoes_moveNext (w : World) :
  cursor_ok w →
  questionIndex w = (-1)%Z ∨ visible_at w (questionIndex w) = true →
  (moveNext w).2 = true →
  let w' := (movePrev (moveNext w).1).1 in
  questionIndex w' = questionIndex w ∧ tableRowIndex w' = tableRowIndex w.
Proof.
  intros Hok Hhere Hmoved. pose proof Hok as [Hidx Hrow].
  destruct (Z_lt_dec (tableRowIndex w) (maxRow_of (getTableConfig w)))
    as [Hlt | Hge].
  - rewrite moveNext_advances_row;
      [| apply row_below_max_table; lia | lia].
    cbn [fst]. cbv zeta.
    rewrite movePrev_retreats_row.
    + cbn [fst]. world_simpl. repeat split; try reflexivity; lia.
    + split; [exact Hidx |]. change (getTableConfig _) with (getTableConfig w).
      world_simpl. lia.
    + world_simpl. lia.
  - destruct (moveNext_scans_forward w)
      as [(j & Hj & Hv & Hmin & Hmove) | [_ Hmove]];
      [lia | right; lia | | rewrite Hmove in Hmoved; discriminate].
    rewrite Hmove. cbn [fst]. cbv zeta.
    set (w1 := emit _ _).
    destruct (movePrev_scans_backward w1)
      as [(j' & q & Hj' & Hv' & Hmin' & Hq & ->) | [Hnone ->]];
      [right; subst w1; world_simpl; lia | subst w1; world_simpl; lia | |];
      subst w1; world_simpl; cbn [fst]; world_simpl.
    + rewrite visible_at_moved in Hv'.
      assert (Heq : j' = questionIndex w).
      { destruct (Z_lt_dec (questionIndex w) j') as [Hgt | Hle].
        - rewrite Hmin in Hv' by lia. discriminate.
        - destruct (Z.eq_dec j' (questionIndex w)) as [-> | Hne];
            [reflexivity |].
          destruct Hhere as [Hid | Hvis]; [lia |].
          specialize (Hmin' (questionIndex w)).
          rewrite visible_at_moved in Hmin'.
          rewrite Hmin' in Hvis by lia. discriminate. }
      subst j'. split; [reflexivity |].
      change (nth_Z (questionList w) (questionIndex w))
        with (getCurrentQuestion w) in Hq.
      unfold getTableConfig in Hge, Hrow. rewrite Hq in Hge, Hrow.
      change (doc (emit _ _)) with (doc w).
      destruct (is_table (Some q) (doc w)).
      * change (tableConfig_of q (emit _ _)) with (tableConfig_of q w). lia.
      * cbn in Hrow. lia.
    + assert (Hid : questionIndex w = (-1)%Z).
      { destruct (Z.eq_dec (questionIndex w) (-1)%Z) as [Heq | Hne];
          [exact Heq |].
        destruct Hhere as [Hid | Hvis]; [exact Hid |].
        specialize (Hnone (questionIndex w)).
        rewrite visible_at_moved in Hnone.
        rewrite Hnone in Hvis by lia. discriminate. }
      split; [lia |].
      unfold getTableConfig, getCurrentQuestion in Hrow.
      rewrite Hid in Hrow. cbn in Hrow. lia.
Qed.

(** X5. Going back and then forward returns to the same place: when the
    cursor is in range and rests on a question that [isVisible]
    accepts, [movePrev] followed by [moveNext] restores the question
    index and the table row. *)
Theorem moveNext_undoes_movePrev (w : World) :
  cursor_ok w →
  visible_at w (questionIndex w) = true →
  let w' := (moveNext (movePrev w).1).1 in
  questionIndex w' = questionIndex w ∧ tableRowIndex w' = tableRowIndex w.
Proof.
  intros Hok Hvis. pose proof Hok as [Hidx Hrow].
  assert (Hpos : (0 ≤ questionIndex w)%Z).
  { destruct (Z_lt_dec (questionIndex w) 0) as [Hneg | Hnn]; [| lia].
    replace (questionIndex w) with (-1)%Z in Hvis by lia.
    rewrite visible_at_id_entry in Hvis. discriminate. }
  assert (Hlanded : ∀ j row ev,
    (-1 ≤ j < questionIndex w)%Z →
    (∀ k, (j < k < questionIndex w)%Z → visible_at w k = false) →
    (maxRow_of (tableConfig_at w j) ≤ row)%Z →
    let w1 := emit ev (set_tableRowIndex row (set_questionIndex j w)) in
    questionIndex (moveNext w1).1 = questionIndex w
    ∧ tableRowIndex (moveNext w1).1 = 0%Z).
  { intros j row ev Hj Hmin Hlast w1.
    destruct (moveNext_scans_forward w1)
      as [(j' & Hj' & Hv' & Hmin' & ->) | [Hnone _]];
      [subst w1; world_simpl; lia
      | right; subst w1; world_simpl; exact Hlast | |];
      subst w1; world_simpl; cbn [fst]; world_simpl.
    - rewrite visible_at_moved in Hv'.
      assert (Heq : j' = questionIndex w).
      { destruct (Z_lt_dec j' (questionIndex w)) as [Hlt | Hge].
        - rewrite Hmin in Hv' by lia. discriminate.
        - destruct (Z.eq_dec j' (questionIndex w)) as [-> | Hne];
            [reflexivity |].
          specialize (Hmin' (questionIndex w)).
          rewrite visible_at_moved in Hmin'.
          rewrite Hmin' in Hvis by lia. discriminate. }
      subst j'. auto.
    - specialize (Hnone (questionIndex w)).
      rewrite visible_at_moved in Hnone.
      rewrite Hnone in Hvis by lia. discriminate. }
  destruct (Z_lt_dec 0 (tableRowIndex w)) as [Hrowpos | Hzero].
  - rewrite movePrev_retreats_row by assumption.
    cbn [fst]. cbv zeta.
    rewrite moveNext_advances_row.
    + cbn [fst]. world_simpl. repeat split; try reflexivity; lia.
    + change (is_table (getCurrentQuestion w) (doc w) = true).
      apply row_below_max_table; lia.
    + change (getTableConfig _) with (getTableConfig w). world_simpl. lia.
  - assert (Hfirst : tableRowIndex w = 0%Z) by lia. rewrite Hfirst.
    destruct (movePrev_scans_backward w)
      as [(j & q & Hj & _ & Hmin & Hq & ->) | [Hnone ->]];
      [right; lia | lia | |]; cbn [fst]; cbv zeta.
    + apply Hlanded; [lia | exact Hmin |].
      unfold tableConfig_at. rewrite Hq.
      destruct (is_table (Some q) (doc w)); [lia | reflexivity].
    + apply Hlanded; [lia | intros k Hk; apply Hnone; lia | reflexivity].
Qed.

Ltac cursor_in_range := unfold cursor_ok; vm_compute; intuition discriminate.

Lemma navigation_keeps_cursor_in_range_witness :
  cursor_ok
    (foldl run_nav TableSample.initial
       [NavNext; NavNext; NavSetRow 5; NavNext; NavPrev;
        NavSetIndex 7 (mkOptions None true false);
        NavSetIndex 0 (mkOptions (Some 1%Z) false false)]).
Proof.
  apply (navigation_keeps_cursor_in_range
           [NavNext; NavNext; NavSetRow 5; NavNext; NavPrev;
            NavSetIndex 7 (mkOptions None true false);
            NavSetIndex 0 (mkOptions (Some 1%Z) false false)]
           TableSample.initial).
  - cursor_in_range.
  - repeat first [apply Forall_nil_2 | apply Forall_cons_2];
      try exact I; intros r Hr; try discriminate Hr.
    injection Hr as <-. vm_compute. intuition discriminate.
Defined.

Lemma moveNext_cases_witness :
  cursor_ok TableSample.first_row
  ∧ tableRowIndex (moveNext TableSample.first_row).1 = 1%Z.
Proof.
  assert (Hok : cursor_ok TableSample.first_row) by cursor_in_range.
  split; [exact Hok |].
  destruct (moveNext_cases TableSample.first_row Hok)
    as [[_ ->] | [[Hlast _] | [Hlast _]]];
    [reflexivity | discriminate Hlast | discriminate Hlast].
Defined.

Lemma movePrev_cases_witness :
  cursor_ok TableSample.after_table
  ∧ tableRowIndex (movePrev TableSample.after_table).1 = 1%Z.
Proof.
  assert (Hok : cursor_ok TableSample.after_table) by cursor_in_range.
  split; [exact Hok |].
  destruct (movePrev_cases TableSample.after_table Hok)
    as [[Hpos _] | [(_ & j & Hj & Hv & _ & ->) | (_ & Hnone & _)]].
  - discriminate Hpos.
  - cbn [fst]. world_simpl.
    assert (j = 0%Z) as -> by (change (questionIndex TableSample.after_table)
                                 with 1%Z in Hj; lia).
    reflexivity.
  - specialize (Hnone 0%Z). vm_compute in Hnone.
    assert (true = false) by (apply Hnone; split; [discriminate | reflexivity]).
    discriminate.
Defined.

Lemma movePrev_undoes_moveNext_witness :
  questionIndex (movePrev (moveNext TableSample.last_row).1).1 = 0%Z
  ∧ tableRowIndex (movePrev (moveNext TableSample.last_row).1).1 = 1%Z.
Proof.
  destruct (movePrev_undoes_moveNext TableSample.last_row)
    as (Hq & Hr);
    [cursor_in_range | right; reflexivity | reflexivity |].
  split; [exact Hq | exact Hr].
Defined.

Lemma moveNext_undoes_movePrev_witness :
  questionIndex (moveNext (movePrev TableSample.after_table).1).1 = 1%Z
  ∧ tableRowIndex (moveNext (movePrev TableSample.after_table).1).1 = 0%Z.
Proof.
  destruct (moveNext_undoes_movePrev TableSample.after_table)
    as (Hq & Hr); [cursor_in_range | reflexivity |].
  split; [exact Hq | exact Hr].
Defined.

(** ** Show-all mode and manual overrides *)

Section Overrides.

(** X6. In show-all mode evaluation is switched off: [evaluate] returns
    the state it was given, whatever the parent and its answers. *)
Theorem evaluate_in_show_all_is_noop (w : World) (parentId fieldType : string) :
  showAll w = true → evaluate parentId fieldType w = w.
Proof.
  intros Hall. unfold evaluate.
  destruct (JS.get (conditionMap w) parentId) as [conditions |];
    [| reflexivity].
  destruct (bool_decide (fieldType = "checkbox")).
  - change (eval_all (shouldShow_checkbox (checkbox_values parentId (doc w)))
              conditions w = w).
    apply eval_all_fixed. intros c _. left. rewrite Hall. reflexivity.
  - change (eval_all (shouldShow_radio (radio_value parentId (doc w)))
              conditions w = w).
    apply eval_all_fixed. intros c _. left. rewrite Hall. reflexivity.
Qed.

Lemma eval_all_show_overridden f conds w t el :
  (∀ c, c ∈ conds → targetEl c (doc w) = Some el → targetId c = t) →
  overridden w t = true →
  matches_at (contains "other-input") (doc w) el = false →
  has_show (doc (eval_all f conds w)) el = has_show (doc w) el.
Proof.
  revert w. induction conds as [| c conds IH]; intros w Hel Hov Hblock;
    [reflexivity |].
  rewrite eval_all_cons.
  pose proof (evolves_keeps _ _ (evaluate_entry_evolves (f c) c w))
    as (Hshape & _ & Hm & _).
  assert (Hstep : has_show (doc (evaluate_entry (f c) c w)) el
                  = has_show (doc w) el).
  { destruct (decide (targetEl c (doc w) = Some el)) as [Heq | Hne].
    - rewrite settled_skips; [reflexivity |]. left.
      rewrite (Hel c) by (try apply elem_of_cons; auto).
      rewrite Hov. apply orb_true_r.
    - apply evaluate_entry_show_other; assumption. }
  rewrite <- Hstep. apply IH.
  - intros c' Hc' Hel'. apply (Hel c'); [apply elem_of_cons; auto |].
    rewrite <- Hel'. symmetry. apply targetEl_same_shape. exact Hshape.
  - unfold overridden. rewrite Hm. exact Hov.
  - rewrite (other_input_same_shape _ _ _ Hshape). exact Hblock.
Qed.

(** X7. A manually opened target stays open: in a well-formed table,
    [evaluate] of any parent with any answers leaves the [show] class
    of an overridden target as it is, and leaves it overridden. *)
Theorem overridden_target_survives_evaluate (w : World)
    (parentId fieldType P : string) (cs : list Cond) (c : Cond) (el : nat) :
  table_wf (conditionMap w) (doc w) →
  (P, cs) ∈ conditionMap w → c ∈ cs → targetEl c (doc w) = Some el →
  overridden w (targetId c) = true →
  let w' := evaluate parentId fieldType w in
  has_show (doc w') el = has_show (doc w) el
  ∧ overridden w' (targetId c) = true.
Proof.
  intros Hwf HP Hc Hel Hov w'. subst w'.
  pose proof (evolves_keeps _ _ (evaluate_evolves parentId fieldType w))
    as (_ & _ & Hm & _).
  split; [| unfold overridden; rewrite Hm; exact Hov].
  unfold evaluate.
  destruct (JS.get (conditionMap w) parentId) as [conditions |] eqn:Hget;
    [| reflexivity].
  apply get_elem_of in Hget.
  assert (Hsame : ∀ c', c' ∈ conditions → targetEl c' (doc w) = Some el →
                        targetId c' = targetId c).
  { intros c' Hc' Hel'.
    rewrite (wf_elements _ _ Hwf parentId conditions P cs c' c el);
      auto. }
  assert (Hblock : matches_at (contains "other-input") (doc w) el = false)
    by exact (wf_blocks _ _ Hwf P cs c el HP Hc Hel).
  destruct (bool_decide (fieldType = "checkbox")).
  - exact (eval_all_show_overridden _ conditions w (targetId c) el
             Hsame Hov Hblock).
  - exact (eval_all_show_overridden _ conditions w (targetId c) el
             Hsame Hov Hblock).
Qed.

End Overrides.

Section Toggle.

Lemma same_inputs_refl d : same_inputs d d.
Proof. intros i. auto. Qed.

Lemma same_inputs_trans d1 d2 d3 :
  same_inputs d1 d2 → same_inputs d2 d3 → same_inputs d1 d3.
Proof.
  intros H12 H23 i. destruct (H12 i) as (<- & <- & <-). apply H23.
Qed.

Lemma same_inputs_alter f i (d : Document) :
  (∀ e, el_checked (f e) = el_checked e ∧ el_value (f e) = el_value e
        ∧ el_selectedIndex (f e) = el_selectedIndex e) →
  same_inputs d (alter f i d).
Proof.
  intros Hf j. destruct (decide (i = j)) as [-> | Hne].
  - rewrite !list_lookup_alter_eq. destruct (d !! j) as [e |]; [| auto].
    cbn. destruct (Hf e) as (-> & -> & ->). auto.
  - rewrite !list_lookup_alter_ne by exact Hne. auto.
Qed.

Lemma class_add_inputs c e :
  el_checked (class_add c e) = el_checked e
  ∧ el_value (class_add c e) = el_value e
  ∧ el_selectedIndex (class_add c e) = el_selectedIndex e.
Proof. unfold class_add. destruct (contains c e); auto. Qed.

Lemma has_show_alter_add (d : Document) el :
  is_Some (d !! el) → has_show (alter (class_add "show") el d) el = true.
Proof.
  intros [e He]. unfold has_show, matches_at.
  rewrite list_lookup_alter_eq, He. cbn. apply contains_class_add_eq.
Qed.

Lemma toggle_element_Some d t el :
  toggle_element d t = Some el → is_Some (d !! el).
Proof.
  unfold toggle_element.
  destruct (getElementById d ("q_" ++ t)) as [x |] eqn:Hq.
  - intros [= <-]. eapply getElementById_Some; eauto.
  - apply getElementById_Some.
Qed.

Lemma overrides_set_spec t t' l :
  t' ∈ overrides_set t l ↔ t' = t ∨ t' ∈ l.
Proof.
  unfold overrides_set. destruct (bool_decide (t ∈ l)) eqn:Hb.
  - apply bool_decide_eq_true in Hb. split; [auto |].
    intros [-> | H]; assumption.
  - rewrite elem_of_app, list_elem_of_singleton. tauto.
Qed.

(** X8. Opening a branch by hand: on a target that is not overridden,
    [toggleManual] records the override and shows the target's
    element; no answer is touched, the visibility cache is left alone
    and the other overrides are kept. *)
Theorem toggleManual_opens (w : World) (t : string) (el : nat) :
  toggle_element (doc w) t = Some el →
  overridden w t = false →
  let w' := toggleManual t w in
  overridden w' t = true
  ∧ has_show (doc w') el = true
  ∧ same_inputs (doc w) (doc w')
  ∧ visibilityCache w' = visibilityCache w
  ∧ ∀ t', t' ≠ t → overridden w' t' = overridden w t'.
Proof.
  intros Hel Hov w'. subst w'. unfold toggleManual.
  change (match getElementById (doc w) ("q_" ++ t) with
          | Some el => Some el
          | None => getElementById (doc w) t
          end) with (toggle_element (doc w) t).
  rewrite Hel, Hov. cbv zeta. unfold _updateToggleButton.
  match goal with
  | |- context [_updateToggleIcon t ?o ?m ?w2] =>
      pose proof (evolves_keeps _ _ (updateToggleIcon_evolves t o m w2))
        as (_ & _ & Hm & _);
      unfold overridden;
      rewrite updateToggleIcon_doc, updateToggleIcon_cache, Hm
  end.
  world_simpl. repeat split.
  - apply bool_decide_eq_true, overrides_set_spec. auto.
  - apply has_show_alter_add. eapply toggle_element_Some; eauto.
  - apply (same_inputs_alter (class_add "show") el (doc w)).
    intros e. apply class_add_inputs.
  - apply (same_inputs_alter (class_add "show") el (doc w)).
    intros e. apply class_add_inputs.
  - apply (same_inputs_alter (class_add "show") el (doc w)).
    intros e. apply class_add_inputs.
  - intros t' Hne. apply bool_decide_ext. rewrite overrides_set_spec. tauto.
Qed.

End Toggle.

Section ToggleClose.

Lemma targetEl_toggle_element c d el :
  targetEl c d = Some el → is_Some (toggle_element d (targetId c)).
Proof.
  unfold targetEl, toggle_element.
  destruct (getElementById d ("q_" ++ targetId c)) as [x |]; [eauto |].
  destruct (isSection c); [| discriminate]. eauto.
Qed.

(** The parent found by [_reevaluateForTarget] is the one that lists the
    target. *)
Lemma reevaluateForTarget_parent w P cs c :
  table_wf (conditionMap w) (doc w) →
  (P, cs) ∈ conditionMap w → c ∈ cs →
  _reevaluateForTarget (targetId c) w
  = evaluate P (fieldType_of P (doc w)) w.
Proof.
  intros Hwf HP Hc. unfold _reevaluateForTarget.
  set (lists := λ p : string * list Cond,
                  existsb (λ cond, bool_decide (targetId cond = targetId c)) p.2).
  assert (Hhere : lists (P, cs) = true).
  { apply existsb_exists. exists c. split; [| apply bool_decide_eq_true; auto].
    apply list_elem_of_In. exact Hc. }
  destruct (List.find lists (conditionMap w)) as [[P' cs'] |] eqn:Hfind.
  - apply find_some in Hfind. destruct Hfind as [Hin Hlists].
    apply existsb_exists in Hlists. destruct Hlists as (c' & Hc' & Heq).
    apply bool_decide_eq_true in Heq.
    apply list_elem_of_In in Hin, Hc'.
    apply list_elem_of_lookup in Hin, HP.
    destruct Hin as [j Hj]. destruct HP as [i Hi].
    assert (i = j) by
      (eapply (wf_single _ _ Hwf i j P cs P' cs' c c'); eauto).
    subst j. rewrite Hi in Hj. injection Hj as <- <-. reflexivity.
  - exfalso. pose proof (find_none _ _ Hfind (P, cs)) as Hnone.
    rewrite Hhere in Hnone. discriminate Hnone.
    apply list_elem_of_In. exact HP.
Qed.

(** X9. Closing a branch opened by hand: outside show-all mode, in a
    well-formed table, [toggleManual] on an overridden target removes
    the override and puts the target back under its condition: its
    element is shown exactly when the parent's answers meet the entry. *)
Theorem toggleManual_closes_to_condition (w : World) (P : string)
    (cs : list Cond) (c : Cond) (el : nat) :
  table_wf (conditionMap w) (doc w) →
  showAll w = false →
  (P, cs) ∈ conditionMap w → c ∈ cs → targetEl c (doc w) = Some el →
  overridden w (targetId c) = true →
  let w' := toggleManual (targetId c) w in
  overridden w' (targetId c) = false
  ∧ (has_show (doc w') el = true ↔ entry_condition (doc w) P c).
Proof.
  intros Hwf Hall HP Hc Hel Hov w'. subst w'. unfold toggleManual.
  change (match getElementById (doc w) ("q_" ++ targetId c) with
          | Some el => Some el
          | None => getElementById (doc w) (targetId c)
          end) with (toggle_element (doc w) (targetId c)).
  destruct (targetEl_toggle_element c (doc w) el Hel) as [x ->].
  rewrite Hov. cbv zeta. unfold _updateToggleButton.
  set (w2 := set_visibilityCache _ _).
  rewrite (reevaluateForTarget_parent w2 P cs c Hwf HP Hc).
  match goal with
  | |- context [_updateToggleIcon ?t ?o ?m ?w3] =>
      pose proof (evolves_keeps _ _ (updateToggleIcon_evolves t o m w3))
        as (_ & _ & Hm3 & _);
      unfold overridden at 1; rewrite updateToggleIcon_doc, Hm3
  end.
  pose proof (evolves_keeps _ _
                (evaluate_evolves P (fieldType_of P (doc w2)) w2))
    as (_ & _ & Hm2 & _).
  assert (Hov2 : overridden w2 (targetId c) = false).
  { subst w2. unfold overridden. world_simpl. apply bool_decide_eq_false.
    unfold overrides_delete. rewrite list_elem_of_filter. tauto. }
  split; [unfold overridden in Hov2; rewrite Hm2; exact Hov2 |].
  assert (Hget : JS.get (conditionMap w2) P = Some cs).
  { apply list_elem_of_lookup in HP. destruct HP as [i Hi].
    eapply get_lookup; [apply Hwf | exact Hi]. }
  destruct (evaluate_detected w2 P cs Hget) as (f & -> & Hf).
  destruct (eval_all_show f cs w2 c el) as [Hshow _]; try assumption.
  - apply (wf_once _ _ Hwf P cs HP).
  - intros c' Hc' Hne Hel'. apply Hne.
    exact (wf_elements _ _ Hwf P cs P cs c' c el HP HP Hc' Hc Hel' Hel).
  - exact (wf_blocks _ _ Hwf P cs c el HP Hc Hel).
  - subst w2. world_simpl. rewrite lookup_delete_eq. discriminate.
  - rewrite Hshow. apply Hf.
Qed.

End ToggleClose.

Section OpenBranches.

Lemma openBranches_body_inputs acc c :
  same_inputs (doc acc.1) (doc (openBranches_body acc c).1).
Proof.
  destruct acc as [w opened]. unfold openBranches_body. cbn [fst].
  destruct (targetEl c (doc w)) as [el |]; [| apply same_inputs_refl].
  destruct (negb (matches_at _ _ _)); [apply same_inputs_refl |].
  destruct (negb (has_show _ _)); [| apply same_inputs_refl].
  cbn [fst]. rewrite updateToggleIcon_doc. world_simpl.
  apply same_inputs_alter. intros e. apply class_add_inputs.
Qed.

Lemma openBranches_body_mono acc c el :
  has_show (doc acc.1) el = true →
  has_show (doc (openBranches_body acc c).1) el = true.
Proof.
  destruct acc as [w opened]. unfold openBranches_body. cbn [fst].
  destruct (targetEl c (doc w)) as [el0 |] eqn:Hel0; [| auto].
  destruct (negb (matches_at _ _ _)); [auto |].
  destruct (negb (has_show _ _)); [| auto].
  cbn [fst]. rewrite updateToggleIcon_doc. world_simpl. intros Hshow.
  destruct (decide (el0 = el)) as [-> | Hne].
  - apply has_show_alter_add. eapply targetEl_Some; eauto.
  - rewrite has_show_alter_ne by exact Hne. exact Hshow.
Qed.

Lemma openBranches_body_target acc c el :
  targetEl c (doc acc.1) = Some el →
  matches_at (contains "conditional") (doc acc.1) el = true →
  has_show (doc (openBranches_body acc c).1) el = true.
Proof.
  destruct acc as [w opened]. unfold openBranches_body. cbn [fst].
  intros Hel Hcond. rewrite Hel, Hcond. cbn [negb].
  destruct (has_show (doc w) el) eqn:Hshow; cbn [negb fst]; [exact Hshow |].
  rewrite updateToggleIcon_doc. world_simpl.
  apply has_show_alter_add. eapply targetEl_Some; eauto.
Qed.

Lemma openBranches_fold_keeps conds acc :
  same_shape (doc acc.1) (doc (foldl openBranches_body acc conds).1)
  ∧ config (foldl openBranches_body acc conds).1 = config acc.1
  ∧ same_inputs (doc acc.1) (doc (foldl openBranches_body acc conds).1)
  ∧ ∀ el, has_show (doc acc.1) el = true →
          has_show (doc (foldl openBranches_body acc conds).1) el = true.
Proof.
  revert acc. induction conds as [| c conds IH]; intros acc.
  - cbn [foldl]. repeat split; auto using same_shape_refl, same_inputs_refl.
  - cbn [foldl]. destruct (IH (openBranches_body acc c)) as (Hs & Hc & Hi & Hm).
    destruct (openBranches_body_keeps acc c) as [Hs0 Hc0].
    split; [eapply same_shape_trans; eauto |].
    split; [congruence |].
    split; [eapply same_inputs_trans; [apply openBranches_body_inputs | exact Hi] |].
    intros el Hshow. apply Hm, openBranches_body_mono, Hshow.
Qed.

Lemma static_conditional : static_selector (contains "conditional").
Proof. apply static_contains, not_dynamic; discriminate. Qed.

Lemma openBranches_fold_opens conds acc c el :
  c ∈ conds →
  targetEl c (doc acc.1) = Some el →
  matches_at (contains "conditional") (doc acc.1) el = true →
  has_show (doc (foldl openBranches_body acc conds).1) el = true.
Proof.
  revert acc. induction conds as [| c0 conds IH]; intros acc Hc Hel Hcond.
  - apply elem_of_nil in Hc. contradiction.
  - cbn [foldl]. destruct (openBranches_body_keeps acc c0) as [Hs0 _].
    apply elem_of_cons in Hc. destruct Hc as [-> | Hc].
    + apply openBranches_fold_keeps.
      apply openBranches_body_target; assumption.
    + apply IH; [exact Hc | |].
      * rewrite (targetEl_same_shape _ _ _ Hs0). exact Hel.
      * rewrite (matches_at_same_shape _ _ _ _ static_conditional Hs0).
        exact Hcond.
Qed.

Lemma openBranches_fold_noop conds w opened :
  (∀ c el, c ∈ conds → targetEl c (doc w) = Some el →
           matches_at (contains "conditional") (doc w) el = true →
           has_show (doc w) el = true) →
  foldl openBranches_body (w, opened) conds = (w, opened).
Proof.
  induction conds as [| c conds IH]; intros Hopen; [reflexivity |].
  cbn [foldl].
  assert (Hstep : openBranches_body (w, opened) c = (w, opened)).
  { unfold openBranches_body.
    destruct (targetEl c (doc w)) as [el |] eqn:Hel; [| reflexivity].
    destruct (matches_at (contains "conditional") (doc w) el) eqn:Hcond;
      [| reflexivity].
    rewrite (Hopen c el) by (try apply elem_of_cons; auto). reflexivity. }
  rewrite Hstep. apply IH.
  intros c' el Hc'. apply Hopen. apply elem_of_cons. auto.
Qed.

(** X10. The [+] key: [openBranchesForParent] shows every conditional
    target of the parent without touching any answer, and a second
    call finds nothing left to open: it returns [false] and the state
    it was given. *)
Theorem openBranches_opens_all_once (w : World) (parentId : string) :
  let w' := (openBranchesForParent parentId w).1 in
  (∀ conditions c el,
     JS.get (conditionMap w) parentId = Some conditions → c ∈ conditions →
     targetEl c (doc w) = Some el →
     matches_at (contains "conditional") (doc w) el = true →
     has_show (doc w') el = true)
  ∧ same_inputs (doc w) (doc w')
  ∧ openBranchesForParent parentId w' = (w', false).
Proof.
  intros w'. subst w'. unfold openBranchesForParent.
  destruct (JS.get (conditionMap w) parentId) as [conditions |] eqn:Hget.
  - destruct (openBranches_fold_keeps conditions (w, false))
      as (Hshape & Hcfg & Hinputs & _).
    cbn [fst] in Hshape, Hcfg, Hinputs.
    split; [| split; [exact Hinputs |]].
    + intros conditions' c el [= <-] Hc Hel Hcond.
      apply (openBranches_fold_opens conditions (w, false) c); assumption.
    + unfold conditionMap at 1. rewrite Hcfg.
      fold (conditionMap w). rewrite Hget.
      apply openBranches_fold_noop. intros c el Hc Hel Hcond.
      apply (openBranches_fold_opens conditions (w, false) c);
        [exact Hc | |]; cbn [fst].
      * rewrite <- (targetEl_same_shape _ _ _ Hshape). exact Hel.
      * rewrite <- (matches_at_same_shape _ _ _ _ static_conditional Hshape).
        exact Hcond.
  - cbn [fst]. rewrite Hget.
    split; [intros ? ? ? [=] |]. split; [apply same_inputs_refl | reflexivity].
Qed.

End OpenBranches.

Section CloseBranches.

Lemma overrides_delete_spec t t' l :
  t' ∈ overrides_delete t l ↔ t' ≠ t ∧ t' ∈ l.
Proof. unfold overrides_delete. rewrite list_elem_of_filter. tauto. Qed.

(** The first loop of [closeBranchesForParent]: the overrides of the
    parent's targets are dropped together with their cache entries, the
    others are kept, and the flag tells whether one was dropped. *)
Lemma closeBranches_fold conds w closed :
  let r := foldl closeBranches_body (w, closed) conds in
  doc r.1 = doc w ∧ config r.1 = config w ∧ showAll r.1 = showAll w
  ∧ (∀ t, overridden r.1 t
          = overridden w t && negb (bool_decide (t ∈ targetId <$> conds)))
  ∧ r.2 = closed || existsb (λ c, overridden w (targetId c)) conds
  ∧ (cache_coherent w → cache_coherent r.1).
Proof.
  revert w closed. induction conds as [| c conds IH]; intros w closed.
  - cbn. repeat split; auto.
    + intros t. rewrite andb_true_r. reflexivity.
    + rewrite orb_false_r. reflexivity.
  - cbn [foldl]. cbv zeta.
    set (acc := closeBranches_body (w, closed) c).
    assert (Hacc : doc acc.1 = doc w ∧ config acc.1 = config w
                   ∧ showAll acc.1 = showAll w
                   ∧ (∀ t, overridden acc.1 t
                           = overridden w t
                             && negb (bool_decide (t = targetId c)))
                   ∧ acc.2 = closed || overridden w (targetId c)
                   ∧ (cache_coherent w → cache_coherent acc.1)).
    { split; [apply (closeBranches_body_keeps (w, closed) c) |].
      split; [apply (closeBranches_body_keeps (w, closed) c) |].
      split; [| split; [| split]].
      - subst acc. unfold closeBranches_body.
        destruct (overridden w (targetId c)); reflexivity.
      - intros t. subst acc. unfold closeBranches_body.
        destruct (overridden w (targetId c)) eqn:Hov; cbn [fst].
        + unfold overridden. world_simpl.
          destruct (decide (t = targetId c)) as [-> | Hne].
          * rewrite (bool_decide_eq_true_2 (targetId c = targetId c))
              by reflexivity.
            rewrite andb_false_r.
            apply bool_decide_eq_false. rewrite overrides_delete_spec. tauto.
          * rewrite (bool_decide_eq_false_2 (t = targetId c)) by exact Hne.
            rewrite andb_true_r. apply bool_decide_ext.
            rewrite overrides_delete_spec. tauto.
        + destruct (decide (t = targetId c)) as [-> | Hne].
          * rewrite Hov. reflexivity.
          * rewrite (bool_decide_eq_false_2 (t = targetId c)) by exact Hne.
            rewrite andb_true_r. reflexivity.
      - subst acc. unfold closeBranches_body.
        destruct (overridden w (targetId c)); cbn [snd];
          [rewrite orb_true_r | rewrite orb_false_r]; reflexivity.
      - intros Hcoh. apply coherent_closeBranches_body. exact Hcoh. }
    destruct acc as [w1 closed1]. cbn [fst snd] in Hacc.
    destruct Hacc as (Hd & Hc & Hs & Hov & Hflag & Hcoh).
    destruct (IH w1 closed1) as (Hd' & Hc' & Hs' & Hov' & Hflag' & Hcoh').
    split; [congruence |]. split; [congruence |]. split; [congruence |].
    split; [| split].
    + intros t. rewrite Hov', Hov, <- andb_assoc. f_equal.
      rewrite <- negb_orb. f_equal. cbn [fmap list_fmap].
      apply eq_true_iff_eq. rewrite orb_true_iff, !bool_decide_eq_true.
      rewrite elem_of_cons. tauto.
    + rewrite Hflag', Hflag. cbn [existsb].
      destruct (overridden w (targetId c)) eqn:Hc0.
      * rewrite !orb_true_r. reflexivity.
      * rewrite !orb_false_r. cbn [orb]. f_equal. clear -Hov Hc0.
        induction conds as [| c' conds IH]; [reflexivity |].
        cbn [existsb]. rewrite IH, Hov. f_equal.
        destruct (overridden w (targetId c')) eqn:Hc'; [| reflexivity].
        rewrite bool_decide_eq_false_2; [reflexivity |].
        intros Heq. rewrite Heq in Hc'. congruence.
    + intros H. apply Hcoh', Hcoh, H.
Qed.

End CloseBranches.

Section CloseBranchesClaim.

Lemma closeBranches_fold_noop conds w closed :
  (∀ c, c ∈ conds → overridden w (targetId c) = false) →
  foldl closeBranches_body (w, closed) conds = (w, closed).
Proof.
  induction conds as [| c conds IH]; intros Hno; [reflexivity |].
  cbn [foldl]. unfold closeBranches_body at 2.
  rewrite (Hno c) by (apply elem_of_cons; auto).
  apply IH. intros c' Hc'. apply Hno. apply elem_of_cons. auto.
Qed.

(** X11. The [-] key: [closeBranchesForParent] reports whether one of
    the parent's targets was overridden.  When none was, nothing
    changes.  When one was, outside show-all mode and from a coherent
    cache in a well-formed table, no target of the parent is
    overridden afterwards, the overrides of other targets are kept, and
    every target of the parent is shown exactly when the parent's
    answers meet its entry. *)
Theorem closeBranches_restores_conditions (w : World) (P : string)
    (cs : list Cond) :
  table_wf (conditionMap w) (doc w) →
  cache_coherent w →
  showAll w = false →
  JS.get (conditionMap w) P = Some cs →
  let r := closeBranchesForParent P w in
  (r.2 = true ↔ ∃ c, c ∈ cs ∧ overridden w (targetId c) = true)
  ∧ (r.2 = false → r.1 = w)
  ∧ (∀ c, c ∈ cs → overridden r.1 (targetId c) = false)
  ∧ (∀ t, t ∉ targetId <$> cs → overridden r.1 t = overridden w t)
  ∧ (r.2 = true →
     ∀ c el, c ∈ cs → targetEl c (doc w) = Some el →
             (has_show (doc r.1) el = true ↔ entry_condition (doc w) P c)).
Proof.
  intros Hwf Hcoh Hall Hget r. subst r. unfold closeBranchesForParent.
  rewrite Hget.
  assert (Hex : existsb (λ c, overridden w (targetId c)) cs = true
                ↔ ∃ c, c ∈ cs ∧ overridden w (targetId c) = true).
  { rewrite existsb_exists. split; intros (c & Hc & Hov); exists c;
      (split; [apply list_elem_of_In; exact Hc | exact Hov]). }
  destruct (existsb (λ c, overridden w (targetId c)) cs) eqn:Hany.
  - destruct (closeBranches_fold cs w false)
      as (Hd & Hc & Hs & Hov & Hflag & Hcoh1).
    destruct (foldl closeBranches_body (w, false) cs) as [w1 closed].
    cbn [fst snd] in *. rewrite Hany in Hflag. cbn in Hflag. subst closed.
    cbn [fst snd].
    pose proof (evolves_keeps _ _
                  (evaluate_evolves P (fieldType_of P (doc w1)) w1))
      as (_ & _ & Hm & _).
    assert (Hov1 : ∀ c, c ∈ cs → overridden w1 (targetId c) = false).
    { intros c Hin. rewrite Hov.
      rewrite (bool_decide_eq_true_2 (targetId c ∈ targetId <$> cs))
        by (apply list_elem_of_fmap; eauto).
      apply andb_false_r. }
    split; [split; [intros _; apply Hex; reflexivity | reflexivity] |].
    split; [discriminate |].
    split; [intros c Hin; unfold overridden; rewrite Hm; apply Hov1, Hin |].
    split.
    { intros t Ht. unfold overridden at 1. rewrite Hm.
      change (overridden w1 t = overridden w t). rewrite Hov.
      rewrite (bool_decide_eq_false_2 (t ∈ targetId <$> cs)) by exact Ht.
      apply andb_true_r. }
    intros _ c el Hin Hel.
    assert (Hcm : conditionMap w1 = conditionMap w)
      by (unfold conditionMap; rewrite Hc; reflexivity).
    pose proof (get_elem_of _ _ _ Hget) as HP.
    assert (Hget1 : JS.get (conditionMap w1) P = Some cs)
      by (rewrite Hcm; exact Hget).
    destruct (evaluate_detected w1 P cs Hget1) as (f & -> & Hf).
    rewrite Hd in Hf.
    destruct (eval_all_show f cs w1 c el) as [Hshow _]; try assumption.
    + apply (wf_once _ _ Hwf P cs HP).
    + intros c' Hc' Hne Hel'. apply Hne. rewrite Hd in Hel'.
      exact (wf_elements _ _ Hwf P cs P cs c' c el HP HP Hc' Hin Hel' Hel).
    + rewrite Hd. exact Hel.
    + rewrite Hd. exact (wf_blocks _ _ Hwf P cs c el HP Hin Hel).
    + intros b Hb. apply (Hcoh1 Hcoh P cs c el b); try assumption.
      * rewrite Hcm. exact HP.
      * rewrite Hd. exact Hel.
      * congruence.
      * apply Hov1, Hin.
    + congruence.
    + apply Hov1, Hin.
    + rewrite Hshow. apply Hf.
  - assert (Hno : ∀ c, c ∈ cs → overridden w (targetId c) = false).
    { intros c Hin. destruct (overridden w (targetId c)) eqn:Hov; [| reflexivity].
      assert (Htrue : false = true) by (apply Hex; eauto).
      discriminate. }
    rewrite (closeBranches_fold_noop cs w false Hno). cbn [fst snd].
    split; [split; [discriminate | intros H; apply Hex in H; discriminate] |].
    split; [reflexivity |]. split; [exact Hno |].
    split; [reflexivity | discriminate].
Qed.

End CloseBranchesClaim.

Section AllCalls.

Lemma reevaluate_all_keeps keys w :
  same_shape (doc w) (doc (reevaluate_all keys w))
  ∧ config (reevaluate_all keys w) = config w.
Proof.
  revert w. induction keys as [| P keys IH]; intros w.
  - split; [apply same_shape_refl | reflexivity].
  - rewrite reevaluate_all_cons.
    pose proof (evolves_keeps _ _
                  (evaluate_evolves P (fieldType_of P (doc w)) w))
      as (Hshape & _ & _ & Hcfg & _).
    destruct (IH (evaluate P (fieldType_of P (doc w)) w)) as [Hs Hc].
    split; [eapply same_shape_trans; eauto | congruence].
Qed.

Lemma setShowAll_body_keeps flag w c :
  same_shape (doc w) (doc (setShowAll_body flag w c))
  ∧ config (setShowAll_body flag w c) = config w
  ∧ same_inputs (doc w) (doc (setShowAll_body flag w c))
  ∧ manualOverrides (setShowAll_body flag w c) = manualOverrides w
  ∧ showAll (setShowAll_body flag w c) = showAll w.
Proof.
  unfold setShowAll_body.
  destruct (targetEl c (doc w)) as [el |];
    [| repeat split; auto using same_shape_refl].
  destruct flag; [| repeat split; auto using same_shape_refl].
  match goal with
  | |- context [_updateToggleIcon ?t ?o ?m ?w2] =>
      pose proof (evolves_keeps _ _ (updateToggleIcon_evolves t o m w2))
        as (_ & Hs & Hm & Hc & _);
      rewrite updateToggleIcon_doc, Hs, Hm, Hc
  end.
  world_simpl. split; [| split; [reflexivity | split; [| auto]]].
  - apply same_shape_alter. intros e. apply shape_class_add, dynamic_show.
  - apply same_inputs_alter. intros e. apply class_add_inputs.
Qed.

Lemma setShowAll_fold_keeps flag conds w :
  same_shape (doc w) (doc (foldl (setShowAll_body flag) w conds))
  ∧ config (foldl (setShowAll_body flag) w conds) = config w
  ∧ same_inputs (doc w) (doc (foldl (setShowAll_body flag) w conds))
  ∧ manualOverrides (foldl (setShowAll_body flag) w conds) = manualOverrides w
  ∧ showAll (foldl (setShowAll_body flag) w conds) = showAll w.
Proof.
  revert w. induction conds as [| c conds IH]; intros w.
  - cbn [foldl]. repeat split; auto using same_shape_refl.
  - cbn [foldl].
    destruct (setShowAll_body_keeps flag w c) as (Hs & Hc & Hi & Hm & Ha).
    destruct (IH (setShowAll_body flag w c)) as (Hs' & Hc' & Hi' & Hm' & Ha').
    split; [eapply same_shape_trans; eauto |].
    split; [congruence |].
    split; [eapply same_inputs_trans; eauto |].
    split; congruence.
Qed.

Lemma toggleManual_shape t w :
  same_shape (doc w) (doc (toggleManual t w))
  ∧ config (toggleManual t w) = config w.
Proof.
  unfold toggleManual.
  destruct (match getElementById (doc w) ("q_" ++ t) with
            | Some el => Some el
            | None => getElementById (doc w) t
            end) as [el |]; [| split; [apply same_shape_refl | reflexivity]].
  destruct (overridden w t); cbv zeta; unfold _updateToggleButton;
    match goal with
    | |- context [_updateToggleIcon t ?o ?m ?w3] =>
        pose proof (evolves_keeps _ _ (updateToggleIcon_evolves t o m w3))
          as (_ & _ & _ & Hc3 & _);
        rewrite updateToggleIcon_doc, Hc3
    end.
  - unfold _reevaluateForTarget.
    destruct (List.find _ _) as [[parentId conditions] |];
      [| split; [apply same_shape_refl | reflexivity]].
    match goal with
    | |- context [evaluate parentId ?ft ?w2] =>
        pose proof (evolves_keeps _ _ (evaluate_evolves parentId ft w2))
          as (Hs & _ & _ & Hc & _)
    end.
    split; [exact Hs | exact Hc].
  - world_simpl. split; [| reflexivity].
    apply same_shape_alter. intros e. apply shape_class_add, dynamic_show.
Qed.

Lemma run_call_shape w c :
  same_shape (doc w) (doc (run_call w c)) ∧ config (run_call w c) = config w.
Proof.
  destruct c as [P ft | t | P | P | flag |]; cbn [run_call].
  - pose proof (evolves_keeps _ _ (evaluate_evolves P ft w))
      as (Hs & _ & _ & Hc & _). auto.
  - apply toggleManual_shape.
  - unfold openBranchesForParent.
    destruct (JS.get (conditionMap w) P) as [cs |];
      [| split; [apply same_shape_refl | reflexivity]].
    destruct (openBranches_fold_keeps cs (w, false)) as (Hs & Hc & _). auto.
  - unfold closeBranchesForParent.
    destruct (JS.get (conditionMap w) P) as [cs |];
      [| split; [apply same_shape_refl | reflexivity]].
    destruct (closeBranches_fold cs w false) as (Hd & Hc & _).
    destruct (foldl closeBranches_body (w, false) cs) as [w1 closed].
    cbn [fst snd] in *. destruct closed; cbn [fst].
    + pose proof (evolves_keeps _ _
                    (evaluate_evolves P (fieldType_of P (doc w1)) w1))
        as (Hs & _ & _ & Hc' & _).
      split; [rewrite <- Hd at 1; exact Hs | congruence].
    + rewrite Hd. split; [apply same_shape_refl | exact Hc].
  - unfold setShowAll. rewrite nested_loop.
    destruct (setShowAll_fold_keeps flag
                (mjoin (snd <$> conditionMap (set_showAll flag w)))
                (set_showAll flag w)) as (Hs & Hc & _).
    destruct flag; [auto |].
    match goal with
    | |- context [reevaluate_all ?keys ?w2] =>
        destruct (reevaluate_all_keeps keys w2) as [Hs' Hc']
    end.
    world_simpl.
    split; [eapply same_shape_trans; eauto | rewrite Hc', Hc; reflexivity].
  - split; [apply same_shape_refl | reflexivity].
Qed.

Lemma toggle_ok_same_shape cm d d' t :
  same_shape d d' → toggle_ok cm d t → toggle_ok cm d' t.
Proof.
  intros Hshape Hok P cs c el HP Hc Hel Htog.
  apply (Hok P cs c el HP Hc).
  - rewrite <- Hel. symmetry. apply targetEl_same_shape. exact Hshape.
  - rewrite <- Htog. unfold toggle_element.
    rewrite !(getElementById_same_shape _ _ _ Hshape). reflexivity.
Qed.

(** X12. The visibility cache never disagrees with the document: in a
    well-formed table, whatever sequence of evaluator calls is made
    ([evaluate], [toggleManual], the two branch calls, [setShowAll],
    [clearCache]), a cache entry of a target that is neither overridden
    nor under show-all mode tells whether the target's element carries
    [show].  The table stays well formed along the way. *)
Theorem evaluator_keeps_cache_coherent (calls : list EvaluatorCall)
    (w : World) :
  table_wf (conditionMap w) (doc w) →
  (∀ t, CallToggleManual t ∈ calls → toggle_ok (conditionMap w) (doc w) t) →
  cache_coherent w →
  cache_coherent (foldl run_call w calls)
  ∧ table_wf (conditionMap (foldl run_call w calls))
      (doc (foldl run_call w calls)).
Proof.
  revert w. induction calls as [| c calls IH]; intros w Hwf Htog Hcoh;
    [auto |].
  cbn [foldl]. destruct (run_call_shape w c) as [Hshape Hcfg].
  assert (Hcm : conditionMap (run_call w c) = conditionMap w)
    by (unfold conditionMap; rewrite Hcfg; reflexivity).
  apply IH.
  - rewrite Hcm. eapply table_wf_same_shape; eauto.
  - intros t Ht. rewrite Hcm. eapply toggle_ok_same_shape; [exact Hshape |].
    apply Htog. apply elem_of_cons. auto.
  - destruct c as [P ft | t | P | P | flag |]; cbn [run_call].
    + apply coherent_evaluate; assumption.
    + apply coherent_toggleManual; [exact Hwf | | exact Hcoh].
      apply (Htog t). apply elem_of_cons. auto.
    + apply coherent_openBranches; assumption.
    + apply coherent_closeBranches; assumption.
    + apply coherent_setShowAll. exact Hwf.
    + apply coherent_empty_cache. reflexivity.
Qed.

End AllCalls.

Section Elements.

Lemma cleared_ext e e' :
  kind e' = kind e → el_checked e' = el_checked e →
  el_value e' = el_value e → el_selectedIndex e' = el_selectedIndex e →
  cleared e → cleared e'.
Proof.
  intros Hk Hc Hv Hs (H1 & H2 & H3 & H4).
  destruct (kind_selectors e e' Hk) as (_ & Ht & Hi & Hta & Hse).
  injection Hk as Htag Hty _.
  unfold cleared, input_checked in *.
  rewrite !Ht, Hi, Hta, Hse, Hty, Hc, Hv, Hs. auto.
Qed.

Lemma class_toggle_kind c b e : kind (class_toggle c b e) = kind e.
Proof.
  unfold class_toggle, class_add, class_remove.
  destruct b; [destruct (contains c e) |]; reflexivity.
Qed.

Lemma class_toggle_inputs c b e :
  el_checked (class_toggle c b e) = el_checked e
  ∧ el_value (class_toggle c b e) = el_value e
  ∧ el_selectedIndex (class_toggle c b e) = el_selectedIndex e.
Proof.
  unfold class_toggle, class_add, class_remove.
  destruct b; [destruct (contains c e) |]; auto.
Qed.

(** What one pass of the evaluation loop does to one element: its tag,
    type and place never change; its answer is kept, unless the pass
    hides a target that contains it, and then it is cleared. *)
Lemma evaluate_entry_element b c w i e :
  doc w !! i = Some e →
  ∃ e', doc (evaluate_entry b c w) !! i = Some e' ∧ kind e' = kind e
        ∧ ((el_checked e' = el_checked e ∧ el_value e' = el_value e
            ∧ el_selectedIndex e' = el_selectedIndex e)
           ∨ (∃ el, targetEl c (doc w) = Some el ∧ under el e = true
                    ∧ cleared e')).
Proof.
  intros He.
  destruct (evaluate_entry_cases b c w)
    as [H | (el & _ & _ & _ & Hel & _ & Hd & _)].
  { rewrite (settled_skips _ _ _ H). exists e.
    split; [exact He |]. split; [reflexivity |]. left. auto. }
  set (d1 := alter (class_toggle "show" b) el (doc w)) in Hd.
  assert (H1 : ∃ e1, d1 !! i = Some e1 ∧ kind e1 = kind e
                     ∧ el_checked e1 = el_checked e
                     ∧ el_value e1 = el_value e
                     ∧ el_selectedIndex e1 = el_selectedIndex e).
  { subst d1. destruct (decide (el = i)) as [-> | Hne].
    - rewrite list_lookup_alter_eq, He. cbn. eexists. split; [reflexivity |].
      split; [apply class_toggle_kind | apply class_toggle_inputs].
    - rewrite list_lookup_alter_ne by exact Hne. exists e. auto. }
  destruct H1 as (e1 & He1 & Hk1 & Hc1 & Hv1 & Hs1).
  destruct b.
  { rewrite Hd. exists e1.
    split; [exact He1 |]. split; [exact Hk1 |]. left. auto. }
  rewrite Hd, clearInputs_lookup, He1.
  rewrite (checked_in_select _ _ _ _ He1).
  cbn [fmap option_fmap option_map]. eexists. split; [reflexivity |].
  split; [rewrite clear_element_kind; exact Hk1 |].
  destruct (kind_selectors e e1 Hk1) as (Hu & _).
  destruct (under el e1) eqn:Hunder.
  - right. exists el. split; [exact Hel |]. split; [congruence |].
    rewrite <- Hunder at 1. apply clear_element_inside. exact Hunder.
  - left. cbn [andb].
    destruct (clear_element_outside el
                (bool_decide
                   (i ∈ omap (closest is_label d1)
                          (select (λ x, under el x && input_checked x) d1)))
                e1 Hunder) as (-> & -> & ->).
    auto.
Qed.

Lemma eval_all_element f conds w i e :
  doc w !! i = Some e →
  ∃ e', doc (eval_all f conds w) !! i = Some e' ∧ kind e' = kind e
        ∧ (cleared e → cleared e')
        ∧ ((∀ c el, c ∈ conds → targetEl c (doc w) = Some el →
                    under el e = false) →
           el_checked e' = el_checked e ∧ el_value e' = el_value e
           ∧ el_selectedIndex e' = el_selectedIndex e).
Proof.
  revert w e. induction conds as [| c conds IH]; intros w e He.
  - exists e. unfold eval_all. cbn [foldl].
    split; [exact He |]. split; [reflexivity |]. split; auto.
  - rewrite eval_all_cons.
    destruct (evaluate_entry_element (f c) c w i e He) as (e1 & He1 & Hk1 & H1).
    pose proof (evolves_keeps _ _ (evaluate_entry_evolves (f c) c w))
      as (Hshape & _).
    destruct (IH _ e1 He1) as (e' & He' & Hk' & Hcl & Hfr).
    exists e'. split; [exact He' |]. split; [congruence |].
    destruct (kind_selectors e e1 Hk1) as (Hu & _).
    split.
    + intros Hc. apply Hcl.
      destruct H1 as [(Hc1 & Hv1 & Hs1) | (el & _ & _ & Hc1)]; [| exact Hc1].
      apply (cleared_ext e e1); assumption.
    + intros Hout.
      destruct H1 as [(Hc1 & Hv1 & Hs1) | (el & Hel & Hunder & _)].
      * destruct Hfr as (-> & -> & ->); [| auto].
        intros c' el Hc' Hel'. rewrite Hu. apply (Hout c' el).
        -- apply elem_of_cons. auto.
        -- rewrite <- Hel'. symmetry. apply targetEl_same_shape. exact Hshape.
      * rewrite (Hout c el) in Hunder; [discriminate | | exact Hel].
        apply elem_of_cons. auto.
Qed.

Lemma evaluate_eval_all P ft w cs :
  JS.get (conditionMap w) P = Some cs →
  ∃ f, evaluate P ft w = eval_all f cs w.
Proof.
  intros Hget. unfold evaluate. rewrite Hget.
  destruct (bool_decide (ft = "checkbox")); eexists; reflexivity.
Qed.

(** X13. [evaluate] only writes inside the targets of the parent it
    evaluates: an element that lies under none of them keeps its
    checked state, its value and its selected index, whatever the
    answers are. *)
Theorem evaluate_keeps_answers_outside_targets (w : World)
    (parentId fieldType : string) (i : nat) (e : Element) :
  doc w !! i = Some e →
  (∀ conditions c el,
     JS.get (conditionMap w) parentId = Some conditions → c ∈ conditions →
     targetEl c (doc w) = Some el → under el e = false) →
  ∃ e', doc (evaluate parentId fieldType w) !! i = Some e'
        ∧ el_checked e' = el_checked e ∧ el_value e' = el_value e
        ∧ el_selectedIndex e' = el_selectedIndex e.
Proof.
  intros He Hout.
  destruct (JS.get (conditionMap w) parentId) as [cs |] eqn:Hget.
  - destruct (evaluate_eval_all parentId fieldType w cs Hget) as [f ->].
    destruct (eval_all_element f cs w i e He) as (e' & He' & _ & _ & Hfr).
    exists e'. split; [exact He' |]. apply Hfr.
    intros c el. apply (Hout cs c el). reflexivity.
  - unfold evaluate. rewrite Hget. exists e. auto.
Qed.

Lemma eval_all_hiding_clears f conds w el :
  matches_at (contains "other-input") (doc w) el = false →
  has_show (doc w) el = true →
  has_show (doc (eval_all f conds w)) el = false →
  ∀ i e, doc (eval_all f conds w) !! i = Some e → under el e = true →
         cleared e.
Proof.
  revert w. induction conds as [| c conds IH];
    intros w Hblock Hbefore Hafter i e Hi Hu.
  { cbn in Hafter. congruence. }
  rewrite eval_all_cons in Hafter, Hi.
  pose proof (evolves_keeps _ _ (evaluate_entry_evolves (f c) c w))
    as (Hshape & _).
  destruct (has_show (doc (evaluate_entry (f c) c w)) el) eqn:Hmid.
  - apply (IH (evaluate_entry (f c) c w)) with (i := i); try assumption.
    rewrite (other_input_same_shape _ _ _ Hshape). exact Hblock.
  - assert (Hel : targetEl c (doc w) = Some el).
    { destruct (decide (targetEl c (doc w) = Some el)) as [Heq | Hne];
        [exact Heq |].
      rewrite (evaluate_entry_show_other _ _ _ _ Hne Hblock) in Hmid.
      congruence. }
    pose proof (same_shape_length _ _ Hshape) as Hlen.
    assert (Hsome : is_Some (doc (evaluate_entry (f c) c w) !! i)).
    { apply lookup_lt_is_Some.
      pose proof (evolves_keeps _ _
                    (eval_all_evolves f conds (evaluate_entry (f c) c w)))
        as (Hshape' & _).
      rewrite <- (same_shape_length _ _ Hshape').
      apply lookup_lt_is_Some. eauto. }
    destruct Hsome as [e1 He1].
    destruct (eval_all_element f conds _ i e1 He1)
      as (e' & He' & Hk' & Hcl & _).
    rewrite Hi in He'. injection He' as <-.
    apply Hcl.
    apply (evaluate_entry_hiding_clears (f c) c w el Hel Hbefore Hmid i e1 He1).
    destruct (kind_selectors e1 e Hk') as (Hu' & _). rewrite <- Hu'. exact Hu.
Qed.

(** X14. When [evaluate] hides a target of a well-formed table (its
    element carried [show] before the call and not after), every
    element under the target is cleared when the call returns: no radio
    button or checkbox is checked, text and number fields and text
    areas are empty, and selects are back on their first option. *)
Theorem evaluate_hiding_clears (w : World) (parentId fieldType P : string)
    (cs : list Cond) (c : Cond) (el : nat) :
  table_wf (conditionMap w) (doc w) →
  (P, cs) ∈ conditionMap w → c ∈ cs → targetEl c (doc w) = Some el →
  has_show (doc w) el = true →
  has_show (doc (evaluate parentId fieldType w)) el = false →
  ∀ i e, doc (evaluate parentId fieldType w) !! i = Some e →
         under el e = true → cleared e.
Proof.
  intros Hwf HP Hc Hel Hbefore Hafter.
  destruct (JS.get (conditionMap w) parentId) as [conds |] eqn:Hget.
  - destruct (evaluate_eval_all parentId fieldType w conds Hget) as [f Hf].
    rewrite Hf in Hafter |- *.
    apply eval_all_hiding_clears; try assumption.
    exact (wf_blocks _ _ Hwf P cs c el HP Hc Hel).
  - unfold evaluate in Hafter. rewrite Hget in Hafter. congruence.
Qed.

End Elements.

Section ShowAllOn.

Lemma setShowAll_body_cache w c :
  visibilityCache (setShowAll_body true w c) = visibilityCache w.
Proof.
  unfold setShowAll_body. destruct (targetEl c (doc w)); [| reflexivity].
  rewrite updateToggleIcon_cache. reflexivity.
Qed.

Lemma setShowAll_body_mono w c el :
  has_show (doc w) el = true →
  has_show (doc (setShowAll_body true w c)) el = true.
Proof.
  unfold setShowAll_body.
  destruct (targetEl c (doc w)) as [el0 |] eqn:Hel0; [| auto].
  rewrite updateToggleIcon_doc. world_simpl. intros Hshow.
  destruct (decide (el0 = el)) as [-> | Hne].
  - apply has_show_alter_add. eapply targetEl_Some; eauto.
  - rewrite has_show_alter_ne by exact Hne. exact Hshow.
Qed.

Lemma setShowAll_fold_shows conds w :
  visibilityCache (foldl (setShowAll_body true) w conds) = visibilityCache w
  ∧ (∀ el, has_show (doc w) el = true →
           has_show (doc (foldl (setShowAll_body true) w conds)) el = true)
  ∧ ∀ c el, c ∈ conds → targetEl c (doc w) = Some el →
            has_show (doc (foldl (setShowAll_body true) w conds)) el = true.
Proof.
  revert w. induction conds as [| c conds IH]; intros w.
  - cbn [foldl]. split; [reflexivity |]. split; [auto |].
    intros c el Hc. apply elem_of_nil in Hc. contradiction.
  - cbn [foldl].
    destruct (IH (setShowAll_body true w c)) as (Hcache & Hmono & Hall).
    destruct (setShowAll_body_keeps true w c) as (Hshape & _).
    split; [rewrite Hcache; apply setShowAll_body_cache |].
    split; [intros el Hshow; apply Hmono, setShowAll_body_mono, Hshow |].
    intros c' el Hc' Hel. apply elem_of_cons in Hc'.
    destruct Hc' as [-> | Hc'].
    + apply Hmono. unfold setShowAll_body. rewrite Hel.
      rewrite updateToggleIcon_doc. world_simpl.
      apply has_show_alter_add. eapply targetEl_Some; eauto.
    + apply (Hall c' el Hc').
      rewrite (targetEl_same_shape _ _ _ Hshape). exact Hel.
Qed.

(** X15. Turning show-all mode on shows the element of every entry of
    the condition table; no answer is touched, and the manual overrides
    and the visibility cache are left as they were. *)
Theorem setShowAll_on_shows_every_target (w : World) :
  let w' := setShowAll true w in
  showAll w' = true
  ∧ (∀ P cs c el,
       (P, cs) ∈ conditionMap w → c ∈ cs → targetEl c (doc w) = Some el →
       has_show (doc w') el = true)
  ∧ same_inputs (doc w) (doc w')
  ∧ manualOverrides w' = manualOverrides w
  ∧ visibilityCache w' = visibilityCache w.
Proof.
  intros w'. subst w'. unfold setShowAll. rewrite nested_loop.
  set (conds := mjoin (snd <$> conditionMap (set_showAll true w))).
  destruct (setShowAll_fold_keeps true conds (set_showAll true w))
    as (_ & _ & Hinputs & Hm & Hall).
  destruct (setShowAll_fold_shows conds (set_showAll true w))
    as (Hcache & _ & Hshows).
  split; [exact Hall |]. split; [| split; [exact Hinputs |]].
  - intros P cs c el HP Hc Hel. apply (Hshows c el); [| exact Hel].
    subst conds. apply list_elem_of_join. exists cs. split; [exact Hc |].
    apply list_elem_of_fmap. exists (P, cs). split; [reflexivity | exact HP].
  - split; [exact Hm | exact Hcache].
Qed.

End ShowAllOn.

Section Displayed.

(** X16. [isVisible] never rejects a question that is displayed: when
    neither the question nor any of its ancestors is a conditional
    block without [show], [isVisible] accepts it, so [moveNext] and
    [movePrev] never skip it.  (The converse does not hold: [isVisible]
    looks at the nearest conditional ancestor only.) *)
Theorem displayed_question_is_visible (d : Document) (q : nat) :
  displayed d q = true → isVisible (Some q) d = true.
Proof.
  unfold displayed, isVisible, parent_closest.
  destruct (d !! q) as [e |] eqn:He; [| discriminate].
  cbn [forallb]. rewrite andb_true_iff. intros [Hown Hanc].
  destruct (matches_at (contains "conditional") d q && negb (has_show d q))
    eqn:Hhidden.
  { apply andb_true_iff in Hhidden. destruct Hhidden as [Hc Hs].
    rewrite Hc in Hown. cbn in Hown. rewrite Hown in Hs. discriminate. }
  destruct (List.find (matches_at (contains "conditional") d) (el_parents e))
    as [a |] eqn:Hfind; [| reflexivity].
  apply find_some in Hfind. destruct Hfind as [Hin Hcond].
  rewrite forallb_forall in Hanc. specialize (Hanc a Hin).
  rewrite Hcond in Hanc. exact Hanc.
Qed.

End Displayed.

Lemma nested_conditionMap w :
  config w = Some NestedSample.configuration →
  conditionMap w = cfg_conditionMap NestedSample.configuration.
Proof. intros H. unfold conditionMap. rewrite H. reflexivity. Qed.

Lemma opened_table_wf :
  table_wf (conditionMap OverrideSample.opened) (doc OverrideSample.opened).
Proof.
  rewrite nested_conditionMap by reflexivity.
  apply nested_table_wf. vm_compute. reflexivity.
Qed.

Lemma opened_entry :
  ("A", [OverrideSample.entry]) ∈ conditionMap OverrideSample.opened.
Proof. apply elem_of_cons. left. reflexivity. Qed.

Lemma overridden_target_survives_evaluate_witness :
  has_show (doc (evaluate "A" "radio" OverrideSample.opened)) 6
  = has_show (doc OverrideSample.opened) 6
  ∧ overridden (evaluate "A" "radio" OverrideSample.opened) "B" = true.
Proof.
  apply (overridden_target_survives_evaluate OverrideSample.opened
           "A" "radio" "A" [OverrideSample.entry] OverrideSample.entry 6).
  - exact opened_table_wf.
  - exact opened_entry.
  - apply list_elem_of_singleton. reflexivity.
  - reflexivity.
  - reflexivity.
Defined.

Lemma toggleManual_opens_witness :
  overridden (toggleManual "B" NestedSample.initial) "B" = true
  ∧ has_show (doc (toggleManual "B" NestedSample.initial)) 6 = true.
Proof.
  destruct (toggleManual_opens NestedSample.initial "B" 6)
    as (H1 & H2 & _); [reflexivity | reflexivity |].
  split; [exact H1 | exact H2].
Defined.

Lemma toggleManual_closes_to_condition_witness :
  overridden (toggleManual "B" OverrideSample.opened) "B" = false
  ∧ (has_show (doc (toggleManual "B" OverrideSample.opened)) 6 = true
     ↔ entry_condition (doc OverrideSample.opened) "A" OverrideSample.entry).
Proof.
  apply (toggleManual_closes_to_condition OverrideSample.opened "A"
           [OverrideSample.entry] OverrideSample.entry 6).
  - exact opened_table_wf.
  - reflexivity.
  - exact opened_entry.
  - apply list_elem_of_singleton. reflexivity.
  - reflexivity.
  - reflexivity.
Defined.

Lemma closeBranches_restores_conditions_witness :
  (closeBranchesForParent "A" OverrideSample.opened).2 = true
  ∧ overridden (closeBranchesForParent "A" OverrideSample.opened).1 "B"
    = false.
Proof.
  destruct (closeBranches_restores_conditions OverrideSample.opened "A"
              [OverrideSample.entry])
    as (Hflag & _ & Hov & _).
  - exact opened_table_wf.
  - apply coherent_empty_cache. reflexivity.
  - reflexivity.
  - reflexivity.
  - split.
    + apply Hflag. exists OverrideSample.entry.
      split; [apply list_elem_of_singleton |]; reflexivity.
    + apply (Hov OverrideSample.entry). apply list_elem_of_singleton.
      reflexivity.
Defined.

Lemma nested_toggle_ok :
  toggle_ok (conditionMap NestedSample.initial) (doc NestedSample.initial) "B".
Proof.
  intros P cs c el HP Hc Hel Htog.
  change (conditionMap NestedSample.initial)
    with (cfg_conditionMap NestedSample.configuration) in HP.
  cbn [cfg_conditionMap NestedSample.configuration] in HP.
  revert Hel Htog. table_entries; intros Hel Htog; [reflexivity |].
  vm_compute in Hel, Htog. congruence.
Qed.

Lemma evaluator_keeps_cache_coherent_witness :
  cache_coherent
    (foldl run_call NestedSample.initial
       [CallEvaluate "A" "radio"; CallToggleManual "B"; CallSetShowAll true;
        CallOpenBranches "A"; CallSetShowAll false; CallCloseBranches "A";
        CallClearCache]).
Proof.
  apply (evaluator_keeps_cache_coherent
           [CallEvaluate "A" "radio"; CallToggleManual "B";
            CallSetShowAll true; CallOpenBranches "A"; CallSetShowAll false;
            CallCloseBranches "A"; CallClearCache] NestedSample.initial).
  - apply (nested_table_wf NestedSample.document). apply same_shape_refl.
  - intros t Ht.
    repeat (apply elem_of_cons in Ht; destruct Ht as [Ht | Ht];
            [try discriminate Ht |]).
    + injection Ht as ->. exact nested_toggle_ok.
    + apply elem_of_nil in Ht. contradiction.
  - apply coherent_empty_cache. reflexivity.
Defined.

Lemma evaluate_keeps_answers_outside_targets_witness :
  ∃ e', doc (evaluate "A" "radio" ConditionSample.answered) !! 3%nat = Some e'
        ∧ el_checked e' = true.
Proof.
  destruct (evaluate_keeps_answers_outside_targets ConditionSample.answered
              "A" "radio" 3
              (set_checked true
                 (Sample.input "radio" "A" "1" false [2%nat; 1%nat; 0%nat])))
    as (e' & He' & Hc & _).
  - reflexivity.
  - intros conditions c el Hget Hc Hel. vm_compute in Hget.
    injection Hget as <-. apply list_elem_of_singleton in Hc. subst c.
    vm_compute in Hel. injection Hel as <-. reflexivity.
  - exists e'. split; [exact He' | exact Hc].
Defined.

Lemma clicked_table_wf :
  table_wf (conditionMap CursorSample.clicked) (doc CursorSample.clicked).
Proof.
  rewrite nested_conditionMap by reflexivity.
  apply nested_table_wf. vm_compute. reflexivity.
Qed.

Lemma evaluate_hiding_clears_witness :
  ∃ e, doc (evaluate "A" "radio" CursorSample.clicked) !! 9%nat = Some e
       ∧ under 6 e = true ∧ cleared e.
Proof.
  eexists. split; [vm_compute; reflexivity |]. split; [reflexivity |].
  apply (evaluate_hiding_clears CursorSample.clicked "A" "radio" "A"
           [OverrideSample.entry] OverrideSample.entry 6) with (i := 9%nat).
  - exact clicked_table_wf.
  - rewrite nested_conditionMap by reflexivity.
    apply elem_of_cons. left. reflexivity.
  - apply list_elem_of_singleton. reflexivity.
  - reflexivity.
  - reflexivity.
  - reflexivity.
  - vm_compute. reflexivity.
  - reflexivity.
Defined.

Lemma displayed_question_is_visible_witness :
  isVisible (Some 18%nat) NestedSample.document = true.
Proof.
  apply (displayed_question_is_visible NestedSample.document 18).
  reflexivity.
Defined.

(** ** The cursor's question across an evaluation pass *)

Section CursorVisible.




End CursorVisible.


(** ** Committing a selection *)

Section AnswerSteps.

Lemma answer_step_refl w : answer_step w w.
Proof. unfold answer_step. repeat split; auto using same_shape_refl. Qed.

Lemma answer_step_trans w1 w2 w3 :
  answer_step w1 w2 → answer_step w2 w3 → answer_step w1 w3.
Proof.
  unfold answer_step.
  intros (Hs & H1 & H2 & H3 & H4 & H5 & H6 & H7 & H8 & H9 & H10)
         (Hs' & H1' & H2' & H3' & H4' & H5' & H6' & H7' & H8' & H9' & H10').
  split; [eapply same_shape_trans; eauto |].
  repeat split; congruence.
Qed.

Lemma evolves_answer_step w w' : evolves w w' → answer_step w w'.
Proof.
  intros (d & vc & tb & ev & -> & Hshape). unfold answer_step.
  repeat split; auto.
Qed.

Lemma answer_step_doc w d :
  same_shape (doc w) d → answer_step w (set_doc d w).
Proof. intros Hs. unfold answer_step. repeat split; auto. Qed.

Lemma showOtherInput_step q v w : answer_step w (_showOtherInput q v w).
Proof.
  unfold _showOtherInput.
  destruct (getElementById (doc w) _) as [o |]; [| apply answer_step_refl].
  destruct (first_field _ _); unfold answer_step; world_simpl;
    repeat split; auto;
    apply same_shape_alter; intros e; apply shape_class_add, dynamic_show.
Qed.

Lemma hideOtherInput_step q v w : answer_step w (_hideOtherInput q v w).
Proof.
  unfold _hideOtherInput.
  destruct (getElementById (doc w) _) as [o |]; [| apply answer_step_refl].
  apply answer_step_doc.
  eapply same_shape_trans;
    [| apply same_shape_alter_opt; intros e; apply shape_set_value].
  apply same_shape_alter. intros e. apply shape_class_remove, dynamic_show.
Qed.

Lemma handleOtherField_step name value w :
  answer_step w (_handleOtherField name value w).
Proof.
  unfold _handleOtherField.
  destruct (JS.get (otherFieldMap w) name) as [vs |];
    [| apply answer_step_refl].
  revert w. induction vs as [| v vs IH]; intros w; [apply answer_step_refl |].
  cbn [foldl]. eapply answer_step_trans; [| apply IH].
  destruct (bool_decide (value = v));
    [apply showOtherInput_step | apply hideOtherInput_step].
Qed.

Lemma handleRadioChange_step input w :
  answer_step w (_handleRadioChange input w).
Proof.
  unfold _handleRadioChange. destruct (doc w !! input) as [e |];
    [| apply answer_step_refl].
  eapply answer_step_trans; [| apply handleOtherField_step].
  apply evolves_answer_step, evaluate_evolves.
Qed.

Lemma same_shape_foldl {A} (g : Document → A → Document) l d :
  (∀ d x, same_shape d (g d x)) → same_shape d (foldl g d l).
Proof.
  intros Hg. revert d. induction l as [| x l IH]; intros d;
    [apply same_shape_refl |].
  cbn [foldl]. eapply same_shape_trans; [apply Hg | apply IH].
Qed.

Lemma same_shape_enforceMaxSelect c m d :
  same_shape d (_enforceMaxSelect c m d).
Proof.
  unfold _enforceMaxSelect. apply same_shape_foldl. intros d' cb.
  destruct (_ && _); apply same_shape_alter_opt; intros e;
    [apply shape_class_add | apply shape_class_remove]; apply dynamic_disabled.
Qed.

Lemma handleCheckboxChange_step input w :
  answer_step w (_handleCheckboxChange input w).
Proof.
  unfold _handleCheckboxChange. destruct (doc w !! input) as [e |];
    [| apply answer_step_refl].
  cbv zeta.
  match goal with
  | |- answer_step w (evaluate _ _ ?w2) =>
      apply (answer_step_trans w w2);
      [| apply evolves_answer_step, evaluate_evolves]
  end.
  match goal with
  | |- answer_step w (match JS.get (otherFieldMap ?w1) _ with _ => _ end) =>
      assert (H1 : answer_step w w1)
  end.
  { destruct (closest _ _ _) as [container |]; [| apply answer_step_refl].
    destruct (_ ≫= JS.parseInt) as [m |]; [| apply answer_step_refl].
    destruct (bool_decide (m = 0%Z)); [apply answer_step_refl |].
    apply answer_step_doc, same_shape_enforceMaxSelect. }
  eapply answer_step_trans; [exact H1 |].
  destruct (JS.get _ _) as [vs |]; [| apply answer_step_refl].
  destruct (bool_decide _); [| apply answer_step_refl].
  destruct (el_checked e);
    [apply showOtherInput_step | apply hideOtherInput_step].
Qed.

Lemma selectOptionCached_step question num inputs w :
  answer_step w (_selectOptionCached question num inputs w).
Proof.
  unfold _selectOptionCached.
  destruct (_ || _); [apply answer_step_refl |].
  destruct (inputs !! _) as [input |]; [| apply answer_step_refl].
  destruct (doc w !! input) as [e |]; [| apply answer_step_refl].
  destruct (bool_decide (el_type e = "checkbox")); cbv zeta.
  - eapply answer_step_trans; [| apply handleCheckboxChange_step].
    apply answer_step_doc.
    eapply same_shape_trans;
      [| apply same_shape_alter_opt; intros x;
         apply shape_class_toggle, dynamic_selected].
    apply same_shape_alter. intros x. apply shape_set_checked.
  - eapply answer_step_trans; [| apply handleRadioChange_step].
    apply answer_step_doc.
    assert (H1 : same_shape (doc w)
                   match closest (contains "options") (doc w) input with
                   | Some parent =>
                       update_where
                         (λ x, under parent x && contains "option-label" x)
                         (class_remove "selected") (doc w)
                   | None => doc w
                   end).
    { destruct (closest _ _ _); [| apply same_shape_refl].
      apply same_shape_update_where. intros x.
      apply shape_class_remove, dynamic_selected. }
    eapply same_shape_trans; [exact H1 |].
    destruct (el_checked e); [apply same_shape_uncheck |].
    eapply same_shape_trans; [apply same_shape_check |].
    apply same_shape_alter_opt. intros x.
    apply shape_class_add, dynamic_selected.
Qed.

Lemma selectScaleValue_step question value w :
  answer_step w (_selectScaleValue question value w).
Proof.
  unfold _selectScaleValue. cbv zeta.
  destruct (_ || _); [apply answer_step_refl |].
  match goal with
  | |- answer_step w (match optionCache ?w0 !! _ with _ => _ end) =>
      set (w1 := w0)
  end.
  assert (H1 : answer_step w w1).
  { subst w1. destruct (optionCache w !! _); unfold answer_step; world_simpl;
      repeat split; auto using same_shape_refl. }
  clearbody w1.
  destruct (optionCache w1 !! _) as [cache |]; [| exact H1].
  destruct (List.find _ _) as [input |]; [| exact H1].
  eapply answer_step_trans; [exact H1 |].
  eapply answer_step_trans; [| apply handleRadioChange_step].
  apply answer_step_doc.
  eapply same_shape_trans;
    [apply same_shape_update_at; intros x;
     apply shape_class_remove, dynamic_selected |].
  destruct (matches_at el_checked _ _); [apply same_shape_uncheck |].
  eapply same_shape_trans; [apply same_shape_check |].
  apply same_shape_alter_opt. intros x. apply shape_class_add, dynamic_selected.
Qed.

Lemma selectTableRadio_step question rowName radio w :
  answer_step w (_selectTableRadio question rowName radio w).
Proof.
  unfold _selectTableRadio. cbv zeta. apply answer_step_doc.
  match goal with
  | |- same_shape _ (if _ then ?d1 else _) =>
      assert (H1 : same_shape (doc w) d1)
  end.
  { apply same_shape_foldl. intros d r.
    eapply same_shape_trans; [apply same_shape_uncheck |].
    apply same_shape_alter_opt. intros x.
    apply shape_class_remove, dynamic_selected. }
  destruct (matches_at el_checked _ _); [exact H1 |].
  eapply same_shape_trans; [exact H1 |].
  eapply same_shape_trans; [apply same_shape_check |].
  apply same_shape_alter_opt. intros x.
  apply shape_class_add, dynamic_selected.
Qed.

Lemma onSelect_step cb num w : answer_step w (onSelect cb num w).
Proof.
  destruct cb as [question inputs | question | question rowName radios];
    cbn [onSelect].
  - apply selectOptionCached_step.
  - apply selectScaleValue_step.
  - destruct (_ && _); [| apply answer_step_refl].
    destruct (radios !! _); [| apply answer_step_refl].
    apply selectTableRadio_step.
Qed.

End AnswerSteps.

(** ** The pending callback is never read by a commit *)

Section Pending.

Variable p : option OnSelect.

Ltac pending_simpl :=
  unfold overridden, conditionMap, otherFieldMap; world_simpl.

Lemma pending_set_doc d w :
  set_doc d (set_pendingSelect p w) = set_pendingSelect p (set_doc d w).
Proof. reflexivity. Qed.

Lemma pending_set_optionCache oc w :
  set_optionCache oc (set_pendingSelect p w)
  = set_pendingSelect p (set_optionCache oc w).
Proof. reflexivity. Qed.

Lemma pending_updateToggleIcon t o m w :
  _updateToggleIcon t o m (set_pendingSelect p w)
  = set_pendingSelect p (_updateToggleIcon t o m w).
Proof.
  unfold _updateToggleIcon. world_simpl.
  destruct (toggleButtons w !! t); reflexivity.
Qed.

Lemma pending_evaluate_entry b c w :
  evaluate_entry b c (set_pendingSelect p w)
  = set_pendingSelect p (evaluate_entry b c w).
Proof.
  unfold evaluate_entry, _updateToggleButton. pending_simpl.
  destruct (showAll w || bool_decide (targetId c ∈ manualOverrides w));
    [reflexivity |].
  destruct (bool_decide (visibilityCache w !! targetId c = Some b));
    [reflexivity |].
  destruct (targetEl c (doc w)) as [el |]; [| reflexivity].
  cbv zeta. unfold _updateToggleIcon. world_simpl.
  destruct (toggleButtons w !! targetId c); destruct b; reflexivity.
Qed.

Lemma pending_eval_all f conds w :
  eval_all f conds (set_pendingSelect p w)
  = set_pendingSelect p (eval_all f conds w).
Proof.
  revert w. induction conds as [| c conds IH]; intros w; [reflexivity |].
  rewrite !eval_all_cons, pending_evaluate_entry. apply IH.
Qed.

Lemma pending_evaluate P ft w :
  evaluate P ft (set_pendingSelect p w)
  = set_pendingSelect p (evaluate P ft w).
Proof.
  unfold evaluate. pending_simpl.
  destruct (JS.get _ P) as [conds |]; [| reflexivity].
  destruct (bool_decide (ft = "checkbox")).
  - apply (pending_eval_all
             (shouldShow_checkbox (checkbox_values P (doc w))) conds w).
  - apply (pending_eval_all (shouldShow_radio (radio_value P (doc w))) conds w).
Qed.

Lemma pending_showOtherInput q v w :
  _showOtherInput q v (set_pendingSelect p w)
  = set_pendingSelect p (_showOtherInput q v w).
Proof.
  unfold _showOtherInput. world_simpl.
  destruct (getElementById (doc w) _); [| reflexivity].
  destruct (first_field _ _); reflexivity.
Qed.

Lemma pending_hideOtherInput q v w :
  _hideOtherInput q v (set_pendingSelect p w)
  = set_pendingSelect p (_hideOtherInput q v w).
Proof.
  unfold _hideOtherInput. world_simpl.
  destruct (getElementById (doc w) _); reflexivity.
Qed.

Lemma pending_handleOtherField name value w :
  _handleOtherField name value (set_pendingSelect p w)
  = set_pendingSelect p (_handleOtherField name value w).
Proof.
  unfold _handleOtherField. pending_simpl.
  destruct (JS.get _ name) as [vs |]; [| reflexivity].
  revert w. induction vs as [| v vs IH]; intros w; [reflexivity |].
  cbn [foldl]. destruct (bool_decide (value = v));
    [rewrite pending_showOtherInput | rewrite pending_hideOtherInput];
    apply IH.
Qed.

Lemma pending_handleRadioChange input w :
  _handleRadioChange input (set_pendingSelect p w)
  = set_pendingSelect p (_handleRadioChange input w).
Proof.
  unfold _handleRadioChange. world_simpl.
  destruct (doc w !! input) as [e |]; [| reflexivity].
  rewrite pending_evaluate. apply pending_handleOtherField.
Qed.

Lemma pending_handleCheckboxChange input w :
  _handleCheckboxChange input (set_pendingSelect p w)
  = set_pendingSelect p (_handleCheckboxChange input w).
Proof.
  unfold _handleCheckboxChange. world_simpl.
  destruct (doc w !! input) as [e |]; [| reflexivity].
  cbv zeta. rewrite <- pending_evaluate. f_equal.
  match goal with
  | |- _ = set_pendingSelect p
             (match JS.get (otherFieldMap ?w0) _ with _ => _ end) =>
      set (w1 := w0)
  end.
  match goal with
  | |- match JS.get (otherFieldMap ?w0) _ with _ => _ end = _ =>
      replace w0 with (set_pendingSelect p w1)
  end.
  2:{ subst w1.
      destruct (closest (contains "options") (doc w) input) as [container |];
        [| reflexivity].
      destruct ((doc w !! container ≫= data_maxSelect) ≫= JS.parseInt)
        as [m |]; [| reflexivity].
      destruct (bool_decide (m = 0%Z)); reflexivity. }
  clearbody w1. pending_simpl.
  destruct (JS.get _ (el_name e)) as [vs |]; [| reflexivity].
  destruct (bool_decide (el_value e ∈ vs)); [| reflexivity].
  destruct (el_checked e);
    [apply pending_showOtherInput | apply pending_hideOtherInput].
Qed.

Lemma pending_onSelect cb num w :
  onSelect cb num (set_pendingSelect p w)
  = set_pendingSelect p (onSelect cb num w).
Proof.
  destruct cb as [question inputs | question | question rowName radios];
    cbn [onSelect].
  - unfold _selectOptionCached. world_simpl.
    destruct (_ || _); [reflexivity |].
    destruct (inputs !! _) as [input |]; [| reflexivity].
    destruct (doc w !! input) as [e |]; [| reflexivity].
    destruct (bool_decide (el_type e = "checkbox")); cbv zeta;
      rewrite pending_set_doc.
    + apply (pending_handleCheckboxChange input).
    + apply (pending_handleRadioChange input).
  - unfold _selectScaleValue. world_simpl. cbv zeta.
    destruct (_ || _); [reflexivity |].
    destruct (optionCache w !! _) as [cache |] eqn:Hcache; world_simpl.
    + rewrite Hcache.
      destruct (List.find _ _) as [input |]; [| reflexivity].
      rewrite pending_set_doc. apply (pending_handleRadioChange input).
    + rewrite lookup_insert_eq.
      destruct (List.find _ _) as [input |]; [| reflexivity].
      rewrite pending_set_optionCache, pending_set_doc.
      apply (pending_handleRadioChange input).
  - destruct (_ && _); [| reflexivity].
    destruct (radios !! _); reflexivity.
Qed.

Lemma pending_onSelect_parsed cb num w :
  onSelect_parsed cb num (set_pendingSelect p w)
  = set_pendingSelect p (onSelect_parsed cb num w).
Proof. destruct num; [apply pending_onSelect | reflexivity]. Qed.

End Pending.

(** ** The digit buffer *)

Ltac frame_tac :=
  unfold digit_frame, blur, setDigitTimer, setDigitBuffer, appendDigitBuffer,
    clearDigitBuffer, clearDigitTimer;
  world_simpl; repeat split; auto using same_shape_refl.

Section Buffer.

Lemma answer_step_parsed cb num w : answer_step w (onSelect_parsed cb num w).
Proof. destruct num; [apply onSelect_step | apply answer_step_refl]. Qed.

Lemma buffer_idle_step w w' :
  answer_step w w' →
  digitBuffer w = "" → digitTimer w = None → pendingSelect w = None →
  buffer_ok w'.
Proof.
  intros (_ & _ & _ & _ & Hb & Ht & Hp & _) Hb0 Ht0 Hp0. left.
  repeat split; congruence.
Qed.

Lemma digit_frame_refl w : digit_frame w w.
Proof. unfold digit_frame. repeat split; auto using same_shape_refl. Qed.

Lemma digit_frame_trans w1 w2 w3 :
  digit_frame w1 w2 → digit_frame w2 w3 → digit_frame w1 w3.
Proof.
  unfold digit_frame.
  intros (Hs & H1 & H2 & H3 & H4 & H5 & H6 & H7)
         (Hs' & H1' & H2' & H3' & H4' & H5' & H6' & H7').
  split; [eapply same_shape_trans; eauto |].
  repeat split; congruence.
Qed.

Lemma answer_step_frame w w' : answer_step w w' → digit_frame w w'.
Proof.
  unfold answer_step, digit_frame.
  intros (Hs & H1 & H2 & H3 & _ & _ & _ & H7 & H8 & H9 & H10).
  repeat split; assumption.
Qed.

Lemma parseInt_empty : JS.parseInt "" = None.
Proof. reflexivity. Qed.

Lemma handleTwoDigitInput_frame digit maxValue cb w :
  digit_frame w (_handleTwoDigitInput digit maxValue cb w).
Proof.
  unfold _handleTwoDigitInput. cbv zeta.
  destruct (bool_decide (digitBuffer w = "")); cbn [negb].
  - destruct (match JS.parseInt digit with
              | Some p0 =>
                  match (λ m, (m / 10)%Z) <$> maxValue with
                  | Some m => ((1 <=? p0)%Z && (p0 <=? m)%Z)
                  | None => false
                  end
              | None => false
              end); [frame_tac |].
    apply (digit_frame_trans w (set_pendingSelect None w));
      [frame_tac | apply answer_step_frame, answer_step_parsed].
  - unfold appendDigitBuffer, clearDigitTimer.
    eapply digit_frame_trans;
      [| apply answer_step_frame, answer_step_parsed].
    frame_tac.
Qed.

Lemma handleTwoDigitInput_buffer digit maxValue cb w :
  buffer_ok w → buffer_ok (_handleTwoDigitInput digit maxValue cb w).
Proof.
  intros Hok. unfold _handleTwoDigitInput. cbv zeta.
  destruct (bool_decide (digitBuffer w = "")) eqn:Hempty; cbn [negb].
  - apply bool_decide_eq_true in Hempty.
    destruct (match JS.parseInt digit with
              | Some p0 =>
                  match (λ m, (m / 10)%Z) <$> maxValue with
                  | Some m => ((1 <=? p0)%Z && (p0 <=? m)%Z)
                  | None => false
                  end
              | None => false
              end) eqn:Hwait.
    + right. exists cb. unfold setDigitTimer, setDigitBuffer, clearDigitTimer.
      world_simpl. split; [| auto].
      intros ->. rewrite parseInt_empty in Hwait. discriminate.
    + destruct Hok as [(_ & Ht & _) | (cb' & Hne & _)]; [| contradiction].
      apply (buffer_idle_step (set_pendingSelect None w));
        [apply answer_step_parsed | exact Hempty | exact Ht | reflexivity].
  - unfold appendDigitBuffer, clearDigitTimer.
    eapply buffer_idle_step; [apply answer_step_parsed | | |]; reflexivity.
Qed.

Lemma buffer_ok_optionCache oc w :
  buffer_ok w → buffer_ok (set_optionCache oc w).
Proof. intros H. exact H. Qed.

(** [handleDigitInput] hands the key to one of the three handlers. *)
Lemma handleDigitInput_dispatch digit w question :
  getCurrentQuestion w = Some question →
  handleDigitInput digit w = _handleTableDigit digit question w
  ∨ handleDigitInput digit w = _handleScaleDigit digit question w
  ∨ handleDigitInput digit w = _handleNormalDigit digit question w.
Proof.
  intros Hq. unfold handleDigitInput. rewrite Hq.
  destruct (doc w !! question ≫= data_type) as [ty |]; [| auto].
  repeat match goal with
         | |- context [match ?x with _ => _ end] => is_var x; destruct x
         end; auto.
Qed.

Lemma handleDigitInput_handlers (Q : World → Prop) digit w :
  Q w →
  (∀ oc maxValue cb,
     Q (_handleTwoDigitInput digit maxValue cb w)
     ∧ Q (_handleTwoDigitInput digit maxValue cb (set_optionCache oc w))) →
  Q (handleDigitInput digit w).
Proof.
  intros Hw Htwo.
  destruct (getCurrentQuestion w) as [question |] eqn:Hq;
    [| unfold handleDigitInput; rewrite Hq; exact Hw].
  destruct (handleDigitInput_dispatch digit w question Hq)
    as [-> | [-> | ->]].
  - unfold _handleTableDigit.
    destruct (getTableConfig w) as [tc |]; [| exact Hw].
    destruct (rowNames tc ≫= _) as [rowName |]; [| exact Hw].
    destruct (bool_decide (rowName = "")); [exact Hw |].
    cbv zeta.
    destruct (optionCache w !! _) as [entry |] eqn:Hcache.
    + rewrite Hcache. apply (Htwo ∅).
    + world_simpl. rewrite lookup_insert_eq. apply Htwo.
  - apply (Htwo ∅).
  - unfold _handleNormalDigit, _getOptionCache.
    destruct (optionCache w !! _) as [entry |]; [apply (Htwo ∅) | apply Htwo].
Qed.

Lemma handleDigitInput_buffer digit w :
  buffer_ok w → buffer_ok (handleDigitInput digit w).
Proof.
  intros Hok. apply handleDigitInput_handlers; [exact Hok |].
  intros oc maxValue cb.
  split; apply handleTwoDigitInput_buffer; exact Hok.
Qed.

Lemma handleDigitInput_frame digit w :
  digit_frame w (handleDigitInput digit w).
Proof.
  apply (handleDigitInput_handlers (digit_frame w));
    [apply digit_frame_refl |].
  intros oc maxValue cb. split; [apply handleTwoDigitInput_frame |].
  apply (digit_frame_trans w (set_optionCache oc w));
    [frame_tac | apply handleTwoDigitInput_frame].
Qed.

Lemma timer_expires_frame w : digit_frame w (timer_expires w).
Proof.
  unfold timer_expires.
  destruct (digitTimer w) as [t |]; [| apply digit_frame_refl].
  cbv zeta.
  eapply digit_frame_trans; [| apply answer_step_frame, answer_step_parsed].
  frame_tac.
Qed.

Lemma timer_expires_buffer w : buffer_ok w → buffer_ok (timer_expires w).
Proof.
  intros Hok. unfold timer_expires.
  destruct (digitTimer w) as [t |]; [| exact Hok].
  cbv zeta.
  eapply buffer_idle_step; [apply answer_step_parsed | | |]; reflexivity.
Qed.

Lemma flushDigitBuffer_frame w : digit_frame w (flushDigitBuffer w).
Proof.
  unfold flushDigitBuffer.
  destruct (pendingSelect w) as [cb |]; [| apply digit_frame_refl].
  destruct (negb _); [| apply digit_frame_refl]. cbv zeta.
  match goal with
  | |- digit_frame w (set_pendingSelect None ?w2) =>
      apply (digit_frame_trans w w2); [| frame_tac]
  end.
  eapply digit_frame_trans; [| apply answer_step_frame, answer_step_parsed].
  frame_tac.
Qed.

Lemma flushDigitBuffer_buffer w : buffer_ok w → buffer_ok (flushDigitBuffer w).
Proof.
  intros Hok. unfold flushDigitBuffer.
  destruct (pendingSelect w) as [cb |]; [| exact Hok].
  destruct (negb _); [| exact Hok]. cbv zeta.
  match goal with
  | |- buffer_ok (set_pendingSelect None (onSelect_parsed ?c ?n ?w1)) =>
      pose proof (answer_step_parsed c n w1)
        as (_ & _ & _ & _ & Hb & Ht & _)
  end.
  left. world_simpl. rewrite Hb, Ht. auto.
Qed.

(** X17. The two-digit state stays consistent: whatever sequence of
    digit keys, timer expiries and flushes occurs, either nothing is
    pending (empty buffer, no timer, no stored callback), or a digit is
    buffered, the timer is armed for 500 ms and the stored callback is
    the one the timer will run. *)
Theorem digit_entry_keeps_buffer_consistent (ops : list DigitOp) (w : World) :
  buffer_ok w → buffer_ok (foldl run_digit w ops).
Proof.
  revert w. induction ops as [| op ops IH]; intros w Hok; [exact Hok |].
  cbn [foldl]. apply IH. destruct op as [digit | |]; cbn [run_digit].
  - apply handleDigitInput_buffer. exact Hok.
  - apply timer_expires_buffer. exact Hok.
  - apply flushDigitBuffer_buffer. exact Hok.
Qed.

(** X18. Digit entry never moves the cursor: whatever sequence of digit
    keys, timer expiries and flushes occurs, the question index, the
    table row, the question list, the identifier field, the
    configuration, show-all mode and the manual overrides are what they
    were, and the document keeps its shape (only classes, values and
    checked states are written). *)
Theorem digit_entry_keeps_cursor (ops : list DigitOp) (w : World) :
  digit_frame w (foldl run_digit w ops).
Proof.
  revert w. induction ops as [| op ops IH]; intros w;
    [apply digit_frame_refl |].
  cbn [foldl]. eapply digit_frame_trans; [| apply IH].
  destruct op as [digit | |]; cbn [run_digit].
  - apply handleDigitInput_frame.
  - apply timer_expires_frame.
  - apply flushDigitBuffer_frame.
Qed.

(** X19. A flush commits what the timer would have committed: while a
    digit is buffered in a consistent state, [flushDigitBuffer] (Tab or
    click) and the expiry of the timer lead to the same state. *)
Theorem flush_equals_expiry (w : World) :
  buffer_ok w → digitBuffer w ≠ "" →
  flushDigitBuffer w = timer_expires w.
Proof.
  intros [(Hempty & _) | (cb & _ & Ht & Hp)] Hne; [contradiction |].
  unfold flushDigitBuffer, timer_expires. rewrite Ht, Hp.
  rewrite bool_decide_eq_false_2 by exact Hne. cbn [negb timer_onSelect].
  cbv zeta. symmetry. apply pending_onSelect_parsed.
Qed.

End Buffer.

Lemma digit_entry_keeps_buffer_consistent_witness :
  buffer_ok
    (foldl run_digit WideSample.on_question
       [DigitKey "1"; DigitExpiry; DigitKey "1"; DigitKey "2"; DigitKey "1";
        DigitFlush]).
Proof.
  apply (digit_entry_keeps_buffer_consistent
           [DigitKey "1"; DigitExpiry; DigitKey "1"; DigitKey "2";
            DigitKey "1"; DigitFlush] WideSample.on_question).
  left. repeat split; reflexivity.
Defined.

Lemma flush_equals_expiry_witness :
  flushDigitBuffer WideSample.waiting = timer_expires WideSample.waiting.
Proof.
  apply (flush_equals_expiry WideSample.waiting).
  - right. eexists. split; [| split; reflexivity].
    vm_compute. discriminate.
  - vm_compute. discriminate.
Defined.

(** ** Clicks *)

Section Clicks.

Lemma handleOptionClick_step label isScale w :
  answer_step w (handleOptionClick label isScale w).
Proof.
  unfold handleOptionClick.
  destruct (first_input label (doc w)) as [input |];
    [| apply answer_step_refl].
  destruct (doc w !! input) as [e |]; [| apply answer_step_refl].
  destruct (bool_decide (el_type e = "checkbox")); cbv zeta.
  - eapply answer_step_trans; [| apply handleCheckboxChange_step].
    apply answer_step_doc.
    eapply same_shape_trans;
      [| apply same_shape_alter; intros x;
         apply shape_class_toggle, dynamic_selected].
    apply same_shape_alter. intros x. apply shape_set_checked.
  - eapply answer_step_trans; [| apply handleRadioChange_step].
    apply answer_step_doc.
    match goal with
    | |- same_shape _ (if _ then uncheck _ ?d1 else _) =>
        assert (H1 : same_shape (doc w) d1)
    end.
    { destruct (closest _ _ _); [| apply same_shape_refl].
      apply same_shape_update_where. intros x.
      apply shape_class_remove, dynamic_selected. }
    destruct (el_checked e).
    + eapply same_shape_trans; [exact H1 | apply same_shape_uncheck].
    + eapply same_shape_trans; [exact H1 |].
      eapply same_shape_trans; [apply same_shape_check |].
      apply same_shape_alter. intros x.
      apply shape_class_add, dynamic_selected.
Qed.

Lemma static_is_question : static_selector is_question.
Proof.
  intros e. unfold is_question.
  rewrite contains_shape by (apply not_dynamic; discriminate). reflexivity.
Qed.

Lemma closest_same_shape sel d d' i :
  static_selector sel → same_shape d d' →
  closest sel d' i = closest sel d i.
Proof.
  intros Hsel Hshape. unfold closest.
  destruct (d !! i) as [e |] eqn:He.
  - destruct (same_shape_lookup _ _ _ _ Hshape He) as (e' & -> & Hs).
    assert (Hp : el_parents e' = el_parents e)
      by (apply (f_equal el_parents) in Hs; exact Hs).
    rewrite Hp. generalize (i :: el_parents e). intros l.
    induction l as [| a l IH]; [reflexivity |]. cbn [List.find].
    rewrite (matches_at_same_shape _ _ _ _ Hsel Hshape), IH. reflexivity.
  - destruct (d' !! i) as [e' |] eqn:He'; [| reflexivity].
    destruct (same_shape_lookup _ _ _ _ (same_shape_sym _ _ Hshape) He')
      as (e & He2 & _). congruence.
Qed.

(** X20. A click on an option never moves the cursor backwards.  With
    an identifier present, [_handleOptionClick] either leaves the
    question index and the table row as they are (the click is on the
    current question or on an earlier one: a correction), or moves the
    cursor, row 0, to the clicked question, which then lies later in
    the list.  With the identifier blank after trimming nothing is
    selected: no element changes its checked state, value or selected
    index, the message is passed on and [focusId] is called. *)
Theorem option_click_never_moves_back (label : nat) (isScale : bool)
    (w : World) :
  let w' := _handleOptionClick label isScale w in
  (hasValidId w = true →
   (questionIndex w' = questionIndex w ∧ tableRowIndex w' = tableRowIndex w)
   ∨ ∃ question,
       closest is_question (doc w) label = Some question
       ∧ (questionIndex w < indexOf (questionList w) question)%Z
       ∧ questionIndex w' = indexOf (questionList w) question
       ∧ tableRowIndex w' = 0%Z)
  ∧ (hasValidId w = false →
     w' = (focusId (emit (idRequired "先にIDを入力してください")
                      (emit preventDefault w))).1
     ∧ same_inputs (doc w) (doc w')).
Proof.
  intros w'. subst w'. unfold _handleOptionClick. cbv zeta.
  change (hasValidId (emit preventDefault w)) with (hasValidId w).
  split; intros Hid; rewrite Hid; cbn [negb].
  2:{ split; [reflexivity |]. unfold focusId.
      match goal with
      | |- context [setQuestionIndex ?i ?o ?w0] =>
          destruct (setQuestionIndex_keeps i o w0) as [-> _]
      end.
      apply same_inputs_refl. }
  set (w3 := handleOptionClick label isScale _).
  assert (Hframe : digit_frame w w3).
  { subst w3.
    eapply digit_frame_trans;
      [| apply answer_step_frame, handleOptionClick_step].
    apply (digit_frame_trans w (flushDigitBuffer (emit preventDefault w)));
      [| frame_tac].
    apply (digit_frame_trans w (emit preventDefault w));
      [frame_tac | apply flushDigitBuffer_frame]. }
  destruct Hframe as (Hshape & Hq & Hr & Hl & _).
  clearbody w3.
  rewrite (closest_same_shape _ _ _ _ static_is_question Hshape).
  destruct (closest is_question (doc w) label) as [question |];
    [| left; auto].
  unfold focusQuestion, indexOf. rewrite Hl, Hq.
  destruct (list_find (λ q, q = question) (questionList w))
    as [[index q] |] eqn:Hfind.
  - destruct (Z.ltb_spec (questionIndex w) (Z.of_nat index)) as [Hlt | Hge];
      [| left; auto].
    right. exists question. rewrite Hfind.
    split; [reflexivity |]. split; [exact Hlt |].
    apply list_find_Some in Hfind. destruct Hfind as (Hlook & _).
    apply lookup_lt_Some in Hlook.
    rewrite setQuestionIndex_accepts by (rewrite Hl; lia).
    cbn [fst opt_tableRow default]. world_simpl.
    split; [reflexivity |]. destruct (is_table _ _); reflexivity.
  - destruct (questionIndex w <? -1)%Z; left; auto.
Qed.

End Clicks.

Lemma option_click_never_moves_back_witness :
  hasValidId RouterSample.blank_id = false
  ∧ questionIndex (_handleOptionClick 2 false RouterSample.blank_id)
    = (-1)%Z
  ∧ same_inputs (doc RouterSample.blank_id)
      (doc (_handleOptionClick 2 false RouterSample.blank_id)).
Proof.
  split; [reflexivity |].
  destruct (option_click_never_moves_back 2 false RouterSample.blank_id)
    as [_ Hblank].
  destruct (Hblank eq_refl) as [Hstate Hsame].
  split; [rewrite Hstate; reflexivity | exact Hsame].
Defined.

(** ** The Tab key and the keyboard handler *)

Section Keyboard.

Lemma static_data_type t :
  static_selector (λ e, bool_decide (data_type e = Some t)).
Proof. intros e. reflexivity. Qed.

Lemma getTableConfig_same w w' :
  same_shape (doc w) (doc w') → questionIndex w' = questionIndex w →
  questionList w' = questionList w → config w' = config w →
  getTableConfig w' = getTableConfig w.
Proof.
  intros Hshape Hq Hl Hc.
  unfold getTableConfig, getCurrentQuestion. rewrite Hq, Hl.
  destruct (nth_Z (questionList w) (questionIndex w)) as [q |];
    [| reflexivity].
  unfold is_table.
  rewrite (matches_at_same_shape _ _ _ _ (static_data_type "table") Hshape).
  destruct (matches_at _ (doc w) q); [| reflexivity].
  unfold tableConfig_of. rewrite Hc.
  destruct (config w) as [c |]; [| reflexivity].
  assert (Hname : doc w' !! q ≫= data_name = doc w !! q ≫= data_name).
  { destruct (doc w !! q) as [e |] eqn:He.
    - destruct (same_shape_lookup _ _ _ _ Hshape He) as (e' & -> & Hs).
      cbn. apply (f_equal data_name) in Hs. exact Hs.
    - destruct (doc w' !! q) as [e' |] eqn:He'; [| reflexivity].
      destruct (same_shape_lookup _ _ _ _ (same_shape_sym _ _ Hshape) He')
        as (e & He2 & _). congruence. }
  rewrite Hname. reflexivity.
Qed.

Lemma cursor_ok_same w w' :
  same_shape (doc w) (doc w') → questionIndex w' = questionIndex w →
  tableRowIndex w' = tableRowIndex w → questionList w' = questionList w →
  config w' = config w → cursor_ok w → cursor_ok w'.
Proof.
  intros Hshape Hq Hr Hl Hc [Hidx Hrow].
  pose proof (getTableConfig_same _ _ Hshape Hq Hl Hc) as Htc.
  unfold cursor_ok. rewrite Htc, Hq, Hr, Hl. auto.
Qed.

Lemma cursor_ok_frame w w' : digit_frame w w' → cursor_ok w → cursor_ok w'.
Proof.
  intros (Hshape & Hq & Hr & Hl & _ & Hc & _).
  apply cursor_ok_same; assumption.
Qed.

Lemma buffer_ok_nav w w' :
  digitBuffer w' = digitBuffer w → digitTimer w' = digitTimer w →
  pendingSelect w' = pendingSelect w → buffer_ok w → buffer_ok w'.
Proof. unfold buffer_ok. intros -> -> ->. auto. Qed.

Lemma setQuestionIndex_buffer i o w :
  digitBuffer (setQuestionIndex i o w).1 = digitBuffer w
  ∧ digitTimer (setQuestionIndex i o w).1 = digitTimer w
  ∧ pendingSelect (setQuestionIndex i o w).1 = pendingSelect w.
Proof.
  unfold setQuestionIndex. destruct (_ || _); [auto |].
  destruct (is_table _ _); auto.
Qed.

Lemma setTableRowIndex_buffer i w :
  digitBuffer (setTableRowIndex i w).1 = digitBuffer w
  ∧ digitTimer (setTableRowIndex i w).1 = digitTimer w
  ∧ pendingSelect (setTableRowIndex i w).1 = pendingSelect w.
Proof.
  unfold setTableRowIndex. destruct (getTableConfig w); [| auto].
  destruct (_ || _); auto.
Qed.

Lemma moveNext_buffer w :
  digitBuffer (moveNext w).1 = digitBuffer w
  ∧ digitTimer (moveNext w).1 = digitTimer w
  ∧ pendingSelect (moveNext w).1 = pendingSelect w.
Proof.
  unfold moveNext. cbv zeta.
  destruct (if is_table _ _ then _ else None) as [r |] eqn:Hstep.
  - destruct (is_table _ _); [| discriminate].
    destruct (_ <? _)%Z; [| discriminate]. injection Hstep as <-.
    apply setTableRowIndex_buffer.
  - destruct (scan_next _ _ _); [apply setQuestionIndex_buffer | auto].
Qed.

Lemma movePrev_buffer w :
  digitBuffer (movePrev w).1 = digitBuffer w
  ∧ digitTimer (movePrev w).1 = digitTimer w
  ∧ pendingSelect (movePrev w).1 = pendingSelect w.
Proof.
  unfold movePrev. cbv zeta.
  destruct (if is_table _ _ then _ else None) as [r |] eqn:Hstep.
  - destruct (is_table _ _); [| discriminate].
    destruct (_ <? _)%Z; [| discriminate]. injection Hstep as <-.
    apply setTableRowIndex_buffer.
  - destruct (scan_prev _ _ _) as [i |]; [| apply setQuestionIndex_buffer].
    destruct (is_table (nth_Z (questionList w) i) (doc w));
      apply setQuestionIndex_buffer.
Qed.

Lemma flushDigitBuffer_empties w :
  buffer_ok w → digitBuffer (flushDigitBuffer w) = "".
Proof.
  intros [(Hempty & _ & Hp) | (cb & Hne & _ & Hp)];
    unfold flushDigitBuffer; rewrite Hp; [exact Hempty |].
  rewrite bool_decide_eq_false_2 by exact Hne. cbn [negb]. cbv zeta.
  match goal with
  | |- digitBuffer (set_pendingSelect None (onSelect_parsed ?c ?n ?w1)) = _ =>
      pose proof (answer_step_parsed c n w1) as (_ & _ & _ & _ & Hb & _)
  end.
  world_simpl. rewrite Hb. reflexivity.
Qed.

Lemma multiFieldNav_cases activeEl question isShiftTab w :
  _handleMultiFieldNav activeEl question isShiftTab w = (w, false)
  ∨ ∃ field, _handleMultiFieldNav activeEl question isShiftTab w
             = (set_activeElement (Some field) w, true).
Proof.
  unfold _handleMultiFieldNav. cbv zeta.
  destruct (if (1 <? _)%Z then _ else None) as [field |]; [eauto |].
  destruct (querySelector _ _) as [[c e] |]; [| auto].
  destruct (next_field _ _ _) as [field |]; eauto.
Qed.

Lemma handleTab_cases activeEl isShiftTab w :
  (∃ field,
     _handleTab activeEl isShiftTab w = set_activeElement (Some field) w)
  ∨ (doc (_handleTab activeEl isShiftTab w) = doc (flushDigitBuffer w)
     ∧ digitBuffer (_handleTab activeEl isShiftTab w)
       = digitBuffer (flushDigitBuffer w)
     ∧ digitTimer (_handleTab activeEl isShiftTab w)
       = digitTimer (flushDigitBuffer w)
     ∧ pendingSelect (_handleTab activeEl isShiftTab w)
       = pendingSelect (flushDigitBuffer w)).
Proof.
  unfold _handleTab. cbv zeta.
  assert (Hmoved :
    (match getCurrentQuestion w with
     | Some question => _handleMultiFieldNav activeEl question isShiftTab w
     | None => (w, false)
     end) = (w, false)
    ∨ ∃ field,
        (match getCurrentQuestion w with
         | Some question => _handleMultiFieldNav activeEl question isShiftTab w
         | None => (w, false)
         end) = (set_activeElement (Some field) w, true)).
  { destruct (getCurrentQuestion w); [apply multiFieldNav_cases | auto]. }
  destruct Hmoved as [-> | [field ->]]; cbn [fst snd]; [right | left; eauto].
  set (w1 := flushDigitBuffer w). clearbody w1.
  assert (Hsync : doc (_syncFocusPosition activeEl w1) = doc w1
                  ∧ digitBuffer (_syncFocusPosition activeEl w1) = digitBuffer w1
                  ∧ digitTimer (_syncFocusPosition activeEl w1) = digitTimer w1
                  ∧ pendingSelect (_syncFocusPosition activeEl w1)
                    = pendingSelect w1).
  { unfold _syncFocusPosition.
    destruct (activeEl ≫= _) as [question |]; [| auto]. cbv zeta.
    destruct (_ && _); [| auto].
    split; [apply setQuestionIndex_keeps | apply setQuestionIndex_buffer]. }
  set (w3 := blur (_syncFocusPosition activeEl w1)).
  assert (H3 : doc w3 = doc w1 ∧ digitBuffer w3 = digitBuffer w1
               ∧ digitTimer w3 = digitTimer w1
               ∧ pendingSelect w3 = pendingSelect w1).
  { subst w3. unfold blur. world_simpl. exact Hsync. }
  clearbody w3. clear Hsync. destruct H3 as (Hd & Hb & Ht & Hp).
  destruct isShiftTab.
  - destruct (movePrev_buffer w3) as (-> & -> & ->).
    destruct (run_nav_keeps w3 NavPrev) as [Hk _]. cbn [run_nav] in Hk.
    rewrite Hk. auto.
  - destruct (isAtIdSection w3 && negb (hasValidId w3)); [world_simpl; auto |].
    destruct (moveNext_buffer w3) as (-> & -> & ->).
    destruct (run_nav_keeps w3 NavNext) as [Hk _]. cbn [run_nav] in Hk.
    rewrite Hk. auto.
Qed.

(** X21. Tab never carries a buffered digit to another question: from
    a consistent two-digit state, [_handleTab] either only moves the
    focus to the neighbouring field of a multi-field question (cursor
    and buffer untouched), or commits the pending digit before the
    cursor moves: the buffer, the timer and the stored callback are
    cleared, and the answers in the document are those the stored
    callback produces when called with the buffered number (those of
    before when nothing was pending).  Either way the two-digit state
    stays consistent. *)
Theorem tab_commits_pending_digit (activeEl : option nat) (isShiftTab : bool)
    (w : World) :
  buffer_ok w →
  let w' := _handleTab activeEl isShiftTab w in
  buffer_ok w'
  ∧ ((∃ field, w' = set_activeElement (Some field) w)
     ∨ (digitBuffer w' = "" ∧ digitTimer w' = None
        ∧ pendingSelect w' = None
        ∧ (∀ cb, pendingSelect w = Some cb →
             same_inputs
               (doc (onSelect_parsed cb (JS.parseInt (digitBuffer w))
                       (clearDigitBuffer w)))
               (doc w'))
        ∧ (pendingSelect w = None → same_inputs (doc w) (doc w')))).
Proof.
  intros Hok w'. subst w'.
  destruct (handleTab_cases activeEl isShiftTab w)
    as [[field Hfield] | (Hd & Hb & Ht & Hp)].
  { rewrite Hfield. split; [exact Hok | left; eauto]. }
  pose proof (flushDigitBuffer_buffer w Hok) as Hok1.
  pose proof (flushDigitBuffer_empties w Hok) as Hempty.
  assert (Hidle : digitBuffer (_handleTab activeEl isShiftTab w) = ""
                  ∧ digitTimer (_handleTab activeEl isShiftTab w) = None
                  ∧ pendingSelect (_handleTab activeEl isShiftTab w) = None).
  { rewrite Hb, Ht, Hp.
    destruct Hok1 as [H | (cb & Hne & _)]; [exact H | contradiction]. }
  split; [left; exact Hidle |]. right.
  destruct Hidle as (H1 & H2 & H3).
  split; [exact H1 |]. split; [exact H2 |]. split; [exact H3 |]. split.
  - intros cb Hcb. rewrite Hd. unfold flushDigitBuffer. rewrite Hcb.
    destruct Hok as [(_ & _ & Hnone) | (cb0 & Hne & _ & _)];
      [congruence |].
    rewrite bool_decide_eq_false_2 by exact Hne. cbn [negb].
    apply same_inputs_refl.
  - intros Hnone. rewrite Hd. unfold flushDigitBuffer. rewrite Hnone.
    apply same_inputs_refl.
Qed.

Lemma cursor_ok_handleTab activeEl isShiftTab w :
  cursor_ok w → cursor_ok (_handleTab activeEl isShiftTab w).
Proof.
  intros Hok. unfold _handleTab. cbv zeta.
  assert (Hmoved :
    (match getCurrentQuestion w with
     | Some question => _handleMultiFieldNav activeEl question isShiftTab w
     | None => (w, false)
     end) = (w, false)
    ∨ ∃ field,
        (match getCurrentQuestion w with
         | Some question => _handleMultiFieldNav activeEl question isShiftTab w
         | None => (w, false)
         end) = (set_activeElement (Some field) w, true)).
  { destruct (getCurrentQuestion w); [apply multiFieldNav_cases | auto]. }
  destruct Hmoved as [-> | [field ->]]; cbn [fst snd]; [| exact Hok].
  assert (H3 : cursor_ok (blur (_syncFocusPosition activeEl
                                  (flushDigitBuffer w)))).
  { change (cursor_ok (_syncFocusPosition activeEl (flushDigitBuffer w))).
    pose proof (cursor_ok_frame _ _ (flushDigitBuffer_frame w) Hok) as H1.
    unfold _syncFocusPosition.
    destruct (activeEl ≫= _) as [question |]; [| exact H1]. cbv zeta.
    destruct (_ && _); [| exact H1].
    apply cursor_ok_setQuestionIndex. exact H1. }
  destruct isShiftTab; [exact (run_nav_cursor_ok _ NavPrev H3 I) |].
  destruct (isAtIdSection _ && negb (hasValidId _)); [exact H3 |].
  exact (run_nav_cursor_ok _ NavNext H3 I).
Qed.

Lemma cursor_ok_handleEnterInInput activeEl w :
  cursor_ok w → cursor_ok (_handleEnterInInput activeEl w).
Proof.
  intros Hok. unfold _handleEnterInInput. cbv zeta.
  assert (Hmoved :
    (match getCurrentQuestion w with
     | Some question => _handleMultiFieldNav activeEl question false w
     | None => (w, false)
     end) = (w, false)
    ∨ ∃ field,
        (match getCurrentQuestion w with
         | Some question => _handleMultiFieldNav activeEl question false w
         | None => (w, false)
         end) = (set_activeElement (Some field) w, true)).
  { destruct (getCurrentQuestion w); [apply multiFieldNav_cases | auto]. }
  destruct Hmoved as [-> | [field ->]]; cbn [fst snd]; [| exact Hok].
  exact (run_nav_cursor_ok _ NavNext Hok I).
Qed.

Lemma cursor_ok_branches w (call : EvaluatorCall) :
  questionIndex (run_call w call) = questionIndex w →
  tableRowIndex (run_call w call) = tableRowIndex w →
  questionList (run_call w call) = questionList w →
  cursor_ok w → cursor_ok (run_call w call).
Proof.
  intros Hq Hr Hl. destruct (run_call_shape w call) as [Hshape Hc].
  apply cursor_ok_same; assumption.
Qed.

(** X22. Whatever key is pressed, the cursor stays in range: the
    keyboard handler, with its own Tab, Enter, digit, [+] and [-]
    handling, keeps the question index at -1 or inside the question
    list and the row inside the current table, provided the modal
    dialog and the action on Enter at the end do. *)
Theorem keydown_keeps_cursor_in_range
    (onModalKeydown : KeyEvent → World → option World)
    (onEnterAtEnd : World → World) (e : KeyEvent) (w : World) :
  (∀ w', onModalKeydown e w = Some w' → cursor_ok w') →
  (∀ w0, cursor_ok w0 → cursor_ok (onEnterAtEnd w0)) →
  cursor_ok w →
  cursor_ok (keydown onModalKeydown onEnterAtEnd e w).
Proof.
  intros Hmodal Hend Hok. unfold keydown, _handleKeydown.
  destruct (onModalKeydown e w) as [w' |]; [apply Hmodal; reflexivity |].
  cbv zeta.
  destruct (bool_decide (key e = "Tab"));
    [apply cursor_ok_handleTab; exact Hok |].
  destruct (bool_decide (key e = "Enter")).
  { destruct (match activeElement w with
              | Some i => matches_at (λ x, bool_decide (tagName x = BUTTON))
                            (doc w) i
              | None => false
              end); [exact Hok |].
    destruct (_ || _); [apply cursor_ok_handleEnterInInput; exact Hok |].
    destruct (negb _); [apply Hend |]; exact Hok. }
  destruct (_ || _ || _); [exact Hok |].
  destruct (is_digit_key (key e) && (0 <=? questionIndex w)%Z).
  { destruct (negb (hasValidId w)).
    - unfold focusId. apply cursor_ok_setQuestionIndex. exact Hok.
    - apply (cursor_ok_frame (emit preventDefault w));
        [apply handleDigitInput_frame | exact Hok]. }
  destruct (bool_decide (key e = "+") && (0 <=? questionIndex w)%Z).
  { destruct (getCurrentQuestion w) as [question |]; [| exact Hok].
    destruct (questionId_of question (doc w)) as [questionId |];
      [| exact Hok].
    pose proof (openBranches_keeps questionId w) as (Hq & Hr & Hl).
    pose proof (cursor_ok_branches w (CallOpenBranches questionId) Hq Hr Hl Hok)
      as H1.
    cbn [run_call] in H1.
    destruct (openBranchesForParent questionId w) as [w1 opened].
    destruct opened; exact H1. }
  destruct (bool_decide (key e = "-") && (0 <=? questionIndex w)%Z);
    [| exact Hok].
  destruct (getCurrentQuestion w) as [question |]; [| exact Hok].
  destruct (questionId_of question (doc w)) as [questionId |]; [| exact Hok].
  pose proof (closeBranches_keeps questionId w) as (Hq & Hr & Hl).
  pose proof (cursor_ok_branches w (CallCloseBranches questionId) Hq Hr Hl Hok)
    as H1.
  cbn [run_call] in H1.
  destruct (closeBranchesForParent questionId w) as [w1 closed].
  destruct closed; exact H1.
Qed.

End Keyboard.

(** ** Restoring a saved answer *)

Section Restore.

Lemma check_lookup i (d : Document) e j :
  d !! i = Some e →
  check i d !! j
  = (λ x, if bool_decide (j = i) then set_checked true x
          else if same_group e x then set_checked false x else x)
      <$> d !! j.
Proof.
  intros He. unfold check. rewrite He. apply list_lookup_imap.
Qed.

Lemma alter_opt_lookup_class c o (d : Document) j :
  ∃ f, alter_opt (class_add c) o d !! j = f <$> d !! j
       ∧ ∀ x, checked_named (el_name x) (f x) = checked_named (el_name x) x
              ∧ el_name (f x) = el_name x ∧ el_value (f x) = el_value x
              ∧ is_input (f x) = is_input x ∧ el_type (f x) = el_type x
              ∧ el_checked (f x) = el_checked x.
Proof.
  assert (Hadd : ∀ x, checked_named (el_name x) (class_add c x)
                      = checked_named (el_name x) x
                      ∧ el_name (class_add c x) = el_name x
                      ∧ el_value (class_add c x) = el_value x
                      ∧ is_input (class_add c x) = is_input x
                      ∧ el_type (class_add c x) = el_type x
                      ∧ el_checked (class_add c x) = el_checked x).
  { intros x. unfold class_add. destruct (contains c x); repeat split. }
  assert (Hid : ∀ x : Element,
             checked_named (el_name x) (id x) = checked_named (el_name x) x
             ∧ el_name (id x) = el_name x ∧ el_value (id x) = el_value x
             ∧ is_input (id x) = is_input x ∧ el_type (id x) = el_type x
             ∧ el_checked (id x) = el_checked x).
  { intros x. repeat split. }
  destruct o as [l |]; cbn [alter_opt].
  - destruct (decide (l = j)) as [-> | Hne].
    + exists (class_add c). rewrite list_lookup_alter_eq. split; auto.
    + exists id. rewrite list_lookup_alter_ne by exact Hne.
      split; [destruct (d !! j); reflexivity | exact Hid].
  - exists id. split; [destruct (d !! j); reflexivity | exact Hid].
Qed.

(** X23. A saved single-choice answer survives the round trip: when
    every input called [name] is a radio button and one of them holds
    [value], [_getRadioValue] after [_restoreRadio name value] returns
    [value], whatever was checked before. *)
Theorem restoreRadio_then_getRadioValue (name value : string) (d : Document) :
  name ≠ "" →
  (∃ i e, d !! i = Some e ∧ named_input name e = true ∧ el_value e = value) →
  (∀ i e, d !! i = Some e → named_input name e = true →
          el_type e = "radio") →
  _getRadioValue name (_restoreRadio name value d) = value.
Proof.
  intros Hname (i0 & e0 & He0 & Hn0 & Hv0) Hradio.
  unfold _restoreRadio.
  destruct (querySelector _ d) as [[radio e] |] eqn:Hfind.
  2:{ exfalso. unfold querySelector in Hfind.
      apply list_find_None in Hfind. rewrite Forall_forall in Hfind.
      apply (Hfind e0); [apply list_elem_of_lookup; eauto |].
      rewrite Hn0. cbn [andb]. apply bool_decide_eq_true. exact Hv0. }
  unfold querySelector in Hfind. apply list_find_Some in Hfind.
  destruct Hfind as (He & Hsel & _).
  apply andb_true_iff in Hsel. destruct Hsel as [Hn Hv].
  apply bool_decide_eq_true in Hv.
  pose proof (Hradio _ _ He Hn) as Hty.
  pose proof Hn as Hn'. unfold named_input in Hn'.
  apply andb_true_iff in Hn'. destruct Hn' as [Hin Hnm].
  apply bool_decide_eq_true in Hnm.
  cbv zeta. set (label := match closest _ _ radio with
                          | Some l => Some l
                          | None => _
                          end).
  unfold _getRadioValue.
  assert (Hres : querySelector (checked_named name)
                   (alter_opt (class_add "selected") label (check radio d))
                 = Some (radio,
                         default e (alter_opt (class_add "selected") label
                                      (check radio d) !! radio))).
  { unfold querySelector. apply list_find_Some.
    destruct (alter_opt_lookup_class "selected" label (check radio d) radio)
      as (f & Hf & Hkeep).
    rewrite Hf, (check_lookup _ _ _ _ He), He.
    rewrite bool_decide_eq_true_2 by reflexivity. cbn.
    split; [reflexivity |]. split.
    - destruct (Hkeep (set_checked true e)) as (Hc & _).
      change (el_name (set_checked true e)) with (el_name e) in Hc.
      rewrite Hnm in Hc. rewrite Hc.
      unfold checked_named, input_checked, is_input in *. el_simpl.
      rewrite Hin, Hty, Hnm. cbn.
      apply bool_decide_eq_true. reflexivity.
    - intros j y Hy Hlt.
      destruct (alter_opt_lookup_class "selected" label (check radio d) j)
        as (g & Hg & Hkeepg).
      rewrite Hg, (check_lookup _ _ _ _ He) in Hy.
      destruct (d !! j) as [x |] eqn:Hx; [| discriminate].
      cbn in Hy. injection Hy as <-.
      rewrite bool_decide_eq_false_2 by lia.
      intros Hchecked.
      assert (Hxn : named_input name x = true).
      { destruct (same_group e x);
          [destruct (Hkeepg (set_checked false x)) as (_ & Hgn & _ & Hgi & _)
          |destruct (Hkeepg x) as (_ & Hgn & _ & Hgi & _)];
          unfold checked_named, input_checked, named_input in *;
          rewrite Hgn, Hgi in Hchecked; unfold is_input in *; el_simpl;
          apply andb_true_iff in Hchecked; destruct Hchecked as [H1 H2];
          apply andb_true_iff in H1; destruct H1 as [H1 _];
          apply andb_true_iff in H1; destruct H1 as [H1 _];
          rewrite H1, H2; reflexivity. }
      pose proof (Hradio _ _ Hx Hxn) as Hxty.
      unfold named_input in Hxn. apply andb_true_iff in Hxn.
      destruct Hxn as [Hxin Hxnm]. apply bool_decide_eq_true in Hxnm.
      assert (Hgroup : same_group e x = true).
      { unfold same_group, has_type. rewrite Hin, Hxin, Hty, Hxty, Hnm, Hxnm.
        cbn. rewrite !bool_decide_eq_true_2; auto. }
      rewrite Hgroup in Hchecked.
      destruct (Hkeepg (set_checked false x)) as (_ & _ & _ & _ & _ & Hgc).
      unfold checked_named, input_checked in Hchecked.
      rewrite Hgc in Hchecked. el_simpl.
      rewrite andb_false_r in Hchecked. discriminate. }
  rewrite Hres.
  destruct (alter_opt_lookup_class "selected" label (check radio d) radio)
    as (f & Hf & Hkeep).
  rewrite Hf, (check_lookup _ _ _ _ He), He.
  rewrite bool_decide_eq_true_2 by reflexivity.
  cbn. destruct (Hkeep (set_checked true e)) as (_ & _ & -> & _).
  exact Hv.
Qed.

End Restore.

(** ** Instances on the sample forms *)

Lemma evaluate_in_show_all_is_noop_witness :
  showAll ForwardSample.showing_all = true
  ∧ evaluate "P" "radio" ForwardSample.showing_all
    = ForwardSample.showing_all.
Proof.
  split; [reflexivity |].
  apply (evaluate_in_show_all_is_noop ForwardSample.showing_all "P" "radio").
  reflexivity.
Defined.

Lemma wide_waiting_buffer_ok : buffer_ok WideSample.waiting.
Proof.
  right. eexists. split; [vm_compute; discriminate |].
  split; [vm_compute; reflexivity | reflexivity].
Qed.

Lemma tab_commits_pending_digit_witness :
  buffer_ok WideSample.waiting
  ∧ digitBuffer WideSample.waiting = "1"
  ∧ (el_checked <$> doc WideSample.waiting !! 3%nat) = Some false
  ∧ digitBuffer (_handleTab None false WideSample.waiting) = ""
  ∧ (el_checked <$> doc (_handleTab None false WideSample.waiting) !! 3%nat)
    = Some true.
Proof.
  split; [exact wide_waiting_buffer_ok |]. split; [reflexivity |].
  split; [reflexivity |].
  destruct (tab_commits_pending_digit None false WideSample.waiting
              wide_waiting_buffer_ok)
    as [_ [[field Hfield] | (Hbuf & _ & _ & Hcommit & _)]].
  - apply (f_equal digitBuffer) in Hfield. vm_compute in Hfield.
    discriminate Hfield.
  - split; [exact Hbuf |].
    pose proof (Hcommit _ eq_refl 3%nat) as (Hchecked & _).
    rewrite Hchecked. vm_compute. reflexivity.
Defined.

Lemma table_first_row_cursor_ok : cursor_ok TableSample.first_row.
Proof. unfold cursor_ok. vm_compute. repeat split; discriminate. Qed.

Lemma keydown_keeps_cursor_in_range_witness :
  cursor_ok TableSample.first_row
  ∧ cursor_ok (keydown RouterSample.no_modal RouterSample.no_enter_at_end
                 (mkKeyEvent "Tab" false) TableSample.first_row).
Proof.
  split; [exact table_first_row_cursor_ok |].
  apply (keydown_keeps_cursor_in_range RouterSample.no_modal
           RouterSample.no_enter_at_end (mkKeyEvent "Tab" false)
           TableSample.first_row).
  - intros w' Hmodal. discriminate Hmodal.
  - intros w0 Hok. exact Hok.
  - exact table_first_row_cursor_ok.
Defined.

Lemma restoreRadio_then_getRadioValue_witness :
  _getRadioValue "A" (check 3 NestedSample.document) = "1"
  ∧ _getRadioValue "A" (_restoreRadio "A" "2" (check 3 NestedSample.document))
    = "2".
Proof.
  split; [reflexivity |].
  apply (restoreRadio_then_getRadioValue "A" "2"
           (check 3 NestedSample.document)).
  - discriminate.
  - exists 5%nat. eexists. split; [reflexivity |]. split; reflexivity.
  - intros i e He Hnamed.
    assert (Hi : (i < 22)%nat).
    { apply lookup_lt_Some in He. exact He. }
    do 22 (destruct i as [| i];
           [vm_compute in He; injection He as <-;
            first [reflexivity | discriminate Hnamed] |]).
    lia.
Defined.
